(** * A shallow embedding of the item grammar of syn (src/item.rs and
    src/partial_borrows.rs): its syntax tree, its speculative parser and its
    printer, over a token-tree model of proc_macro2 token streams. *)

From Stdlib Require Import String Ascii List Bool Arith Lia.
Import ListNotations.
Set Warnings "-register-all".
Open Scope string_scope.
Open Scope list_scope.

(* ------------------------------------------------------------------ *)
(** ** Token trees *)

(** Modelled from the spec: the lexical tokenizer is an external
    collaborator; its output is a sequence of identifiers, punctuation
    characters, literals and delimited groups.  Spans and spacing are not
    kept: the round trip is stated up to trivia. *)
Inductive Delimiter := Parenthesis | Brace | Bracket | NoDelim.

Inductive LitKind := LitStrKind | LitOtherKind.

Inductive TokenTree :=
| TIdent (s : string)
| TPunct (c : ascii)
| TLit (k : LitKind) (repr : string)
| TGroup (d : Delimiter) (ts : list TokenTree).

Definition TokenStream := list TokenTree.

Definition delimiter_eqb (a b : Delimiter) : bool :=
  match a, b with
  | Parenthesis, Parenthesis | Brace, Brace | Bracket, Bracket
  | NoDelim, NoDelim => true
  | _, _ => false
  end.

(** Modelled from syn 1.0: the identifier/keyword classification of the
    tokenizer ([accept_as_ident] in ident.rs, outside src/).  The words
    below are not identifiers; the 2018-edition keywords [async], [await],
    [dyn] and [try] are not in the list, so they are accepted as
    identifiers. *)
Definition keywords : list string :=
  [ "_"; "abstract"; "as"; "become"; "box"; "break"; "const"; "continue";
    "crate"; "do"; "else"; "enum"; "extern"; "false"; "final"; "fn";
    "for"; "if"; "impl"; "in"; "let"; "loop"; "macro"; "match";
    "mod"; "move"; "mut"; "override"; "priv"; "pub"; "ref";
    "return"; "Self"; "self"; "static"; "struct"; "super"; "trait";
    "true"; "type"; "typeof"; "unsafe"; "unsized"; "use"; "virtual";
    "where"; "while"; "yield" ].

Definition accept_as_ident (s : string) : bool :=
  negb (existsb (String.eqb s) keywords).

(* ------------------------------------------------------------------ *)
(** ** Peeking: the [Token![..]], [Ident], [LitStr], [Lifetime] and group
    tokens that [peek] and [lookahead1] test for. *)

Inductive Peek :=
| PKw (k : string)          (* Token![k] for a keyword k; Token![_] is PKw "_" *)
| PIdent                    (* Ident *)
| PPunct (s : string)       (* Token![;], Token![::], Token![...] *)
| PGroup (d : Delimiter)    (* token::Paren, token::Brace, token::Bracket *)
| PLitStr                   (* LitStr *)
| PLifetime.                (* Lifetime *)

Fixpoint peek_punct_chars (s : string) (ts : TokenStream) : bool :=
  match s with
  | EmptyString => true
  | String c s' =>
      match ts with
      | TPunct c' :: ts' => Ascii.eqb c c' && peek_punct_chars s' ts'
      | _ => false
      end
  end.

Definition peek (k : Peek) (ts : TokenStream) : bool :=
  match k, ts with
  | PKw w, TIdent s :: _ => String.eqb s w
  | PIdent, TIdent s :: _ => accept_as_ident s
  | PPunct p, _ => peek_punct_chars p ts
  | PGroup d, TGroup d' _ :: _ => delimiter_eqb d d'
  | PLitStr, TLit LitStrKind _ :: _ => true
  | PLifetime, TPunct "'" :: TIdent _ :: _ => true
  | _, _ => false
  end.

(** [Cursor::skip]: one token, a lifetime counting as a single token. *)
Definition skip (ts : TokenStream) : option TokenStream :=
  match ts with
  | TPunct "'" :: TIdent _ :: r => Some r
  | _ :: r => Some r
  | [] => None
  end.

Definition peek2 (k : Peek) (ts : TokenStream) : bool :=
  match skip ts with Some ts' => peek k ts' | None => false end.

Definition peek3 (k : Peek) (ts : TokenStream) : bool :=
  match skip ts with Some ts' => peek2 k ts' | None => false end.

Definition display (k : Peek) : string :=
  match k with
  | PKw w => "`" ++ w ++ "`"
  | PIdent => "identifier"
  | PPunct p => "`" ++ p ++ "`"
  | PGroup Parenthesis => "parentheses"
  | PGroup Brace => "curly braces"
  | PGroup Bracket => "square brackets"
  | PGroup NoDelim => "invisible group"
  | PLitStr => "string literal"
  | PLifetime => "lifetime"
  end.

(* ------------------------------------------------------------------ *)
(** ** Parse results and the parser monad.

    A [ParseStream] is the list of token trees still to be read; a fork is
    the same list kept aside, and [advance_to] continues from it.  An error
    carries the position (the remaining tokens where it arose) and a
    message. *)

Inductive Message :=
| Expected (alts : list string)
| UnexpectedToken
| UnexpectedEnd
| Msg (s : string).

Record Error := mkError { err_at : TokenStream; err_msg : Message }.

Inductive PResult (A : Type) :=
| Ok (a : A) (rest : TokenStream)
| Err (e : Error).
Arguments Ok {A} a rest.
Arguments Err {A} e.

Definition Parser (A : Type) := TokenStream -> PResult A.

Definition ret {A} (a : A) : Parser A := fun ts => Ok a ts.

Definition bind {A B} (p : Parser A) (f : A -> Parser B) : Parser B :=
  fun ts => match p ts with Ok a r => f a r | Err e => Err e end.

Notation "x <- p ;; k" := (bind p (fun x => k))
  (at level 61, p at next level, right associativity).

Definition fail {A} (m : Message) : Parser A :=
  fun ts => Err (mkError ts m).

Definition fmap {A B} (f : A -> B) (p : Parser A) : Parser B :=
  x <- p ;; ret (f x).

(** Modelled from the spec: the token parsers of syn ([Token![k]], [Ident],
    [Ident::parse_any], [Option<Token![k]>]); an expected token that is
    missing yields the error "expected <token>" at the current position. *)
Definition token (k : Peek) : Parser unit :=
  fun ts =>
    if peek k ts then
      match k with
      | PPunct p => Ok tt (skipn (String.length p) ts)
      | PLifetime => Ok tt (skipn 2 ts)
      | _ => Ok tt (tl ts)
      end
    else Err (mkError ts (Expected [display k])).

Definition kw (w : string) : Parser unit := token (PKw w).
Definition punct (p : string) : Parser unit := token (PPunct p).

(** [Option<Token![k]>]: present exactly when the next token is [k]. *)
Definition opt_token (k : Peek) : Parser bool :=
  fun ts => if peek k ts then fmap (fun _ => true) (token k) ts else Ok false ts.

Definition parse_ident : Parser string :=
  fun ts =>
    match ts with
    | TIdent s :: r => if accept_as_ident s then Ok s r
                       else Err (mkError ts (Expected ["identifier"]))
    | _ => Err (mkError ts (Expected ["identifier"]))
    end.

Definition parse_ident_any : Parser string :=
  fun ts =>
    match ts with
    | TIdent s :: r => Ok s r
    | _ => Err (mkError ts (Expected ["identifier"]))
    end.

(** [Option<Ident>]. *)
Definition opt_ident : Parser (option string) :=
  fun ts =>
    if peek PIdent ts then fmap Some parse_ident ts else Ok None ts.

Definition parse_lifetime : Parser string :=
  fun ts =>
    match ts with
    | TPunct "'" :: TIdent s :: r => Ok s r
    | _ => Err (mkError ts (Expected ["lifetime"]))
    end.

Definition parse_lit_str : Parser string :=
  fun ts =>
    match ts with
    | TLit LitStrKind s :: r => Ok s r
    | _ => Err (mkError ts (Expected ["string literal"]))
    end.

(** [parenthesized!], [braced!], [bracketed!]: the next token must be a
    group with the delimiter; its content is parsed by [p], which must read
    all of it. *)
Definition in_group {A} (d : Delimiter) (p : Parser A) : Parser A :=
  fun ts =>
    match ts with
    | TGroup d' content :: r =>
        if delimiter_eqb d d' then
          match p content with
          | Ok a [] => Ok a r
          | Ok _ (t :: rs) => Err (mkError (t :: rs) UnexpectedToken)
          | Err e => Err e
          end
        else Err (mkError ts (Expected [display (PGroup d)]))
    | _ => Err (mkError ts (Expected [display (PGroup d)]))
    end.

(** The whole remaining content of a stream as a token stream
    ([TokenStream::parse]). *)
Definition parse_rest_tokens : Parser TokenStream := fun ts => Ok ts [].

(* ------------------------------------------------------------------ *)
(** ** [lookahead1]: a cursor plus the list of tokens tested so far.

    Modelled from the spec: each failed peek records its expected-token
    description; [error] reports all of them at the cursor. *)

Record Lookahead1 := mkLookahead { la_cursor : TokenStream; la_comparisons : list string }.

Definition lookahead1 (ts : TokenStream) : Lookahead1 := mkLookahead ts [].

Definition la_peek (k : Peek) (la : Lookahead1) : bool * Lookahead1 :=
  if peek k (la_cursor la) then (true, la)
  else (false, mkLookahead (la_cursor la) (la_comparisons la ++ [display k])).

(** [lookahead.peek(a) || lookahead.peek(b) || ...], short-circuiting. *)
Fixpoint la_peek_any (ks : list Peek) (la : Lookahead1) : bool * Lookahead1 :=
  match ks with
  | [] => (false, la)
  | k :: ks' =>
      let '(b, la') := la_peek k la in
      if b then (true, la') else la_peek_any ks' la'
  end.

Definition la_error (la : Lookahead1) : Error :=
  match la_comparisons la with
  | [] => match la_cursor la with
          | [] => mkError [] UnexpectedEnd
          | ts => mkError ts UnexpectedToken
          end
  | alts => mkError (la_cursor la) (Expected alts)
  end.

(* ------------------------------------------------------------------ *)
(** ** Punctuated sequences: values each followed by a separator, and an
    optional last value without one. *)

Record Punctuated (A : Type) := mkPunctuated { p_inner : list A; p_last : option A }.
Arguments mkPunctuated {A} p_inner p_last.
Arguments p_inner {A} p.
Arguments p_last {A} p.

Definition punctuated_new {A} : Punctuated A := mkPunctuated [] None.

Definition punctuated_is_empty {A} (p : Punctuated A) : bool :=
  match p_inner p, p_last p with [], None => true | _, _ => false end.

Definition empty_or_trailing {A} (p : Punctuated A) : bool :=
  match p_last p with None => true | Some _ => false end.

Definition punctuated_last {A} (p : Punctuated A) : option A :=
  match p_last p with
  | Some a => Some a
  | None => last (map Some (p_inner p)) None
  end.

(** [push_value] on a punctuated list without a last value, and
    [push_punct] moving the last value into the separated part. *)
Definition push_value {A} (p : Punctuated A) (a : A) : Punctuated A :=
  mkPunctuated (p_inner p) (Some a).

Definition push_punct {A} (p : Punctuated A) : Punctuated A :=
  match p_last p with
  | Some a => mkPunctuated (p_inner p ++ [a]) None
  | None => p
  end.

Definition print_punctuated {A} (pr : A -> TokenStream) (sep : TokenStream)
    (p : Punctuated A) : TokenStream :=
  flat_map (fun a => pr a ++ sep) (p_inner p)
  ++ match p_last p with Some a => pr a | None => [] end.

(** [ParseBuffer::parse_terminated]: values separated by [sep] until the
    stream is empty.  Each round reads at least one token, so the length of
    the stream bounds the rounds. *)
Fixpoint terminated_go {A} (fuel : nat) (p : Parser A) (sep : Parser unit)
    (acc : Punctuated A) : Parser (Punctuated A) :=
  fun ts =>
    match ts with
    | [] => Ok acc []
    | _ =>
      match fuel with
      | O => Err (mkError ts UnexpectedToken)
      | S fuel' =>
        match p ts with
        | Err e => Err e
        | Ok v r =>
          let acc := push_value acc v in
          match r with
          | [] => Ok acc []
          | _ => match sep r with
                 | Err e => Err e
                 | Ok _ r' => terminated_go fuel' p sep (push_punct acc) r'
                 end
          end
        end
      end
    end.

Definition parse_terminated {A} (p : Parser A) (sep : Parser unit) : Parser (Punctuated A) :=
  fun ts => terminated_go (length ts) p sep punctuated_new ts.

(** Loops of the shape
    [loop { if stop { break } v = p; push_value(v); if !more { break }; sep; push_punct() }],
    as written in syn for generic arguments, bounds and path segments. *)
Fixpoint sep_loop_go {A} (fuel : nat) (stop more : TokenStream -> bool)
    (p : Parser A) (sep : Parser unit) (acc : Punctuated A) : Parser (Punctuated A) :=
  fun ts =>
    if stop ts then Ok acc ts else
    match fuel with
    | O => Err (mkError ts UnexpectedToken)
    | S fuel' =>
      match p ts with
      | Err e => Err e
      | Ok v r =>
        let acc := push_value acc v in
        if more r then
          match sep r with
          | Err e => Err e
          | Ok _ r' => sep_loop_go fuel' stop more p sep (push_punct acc) r'
          end
        else Ok acc r
      end
    end.

Definition sep_loop {A} (stop more : TokenStream -> bool) (p : Parser A)
    (sep : Parser unit) : Parser (Punctuated A) :=
  fun ts => sep_loop_go (length ts) stop more p sep punctuated_new ts.

(** [while cond { v.push(p?) }]. *)
Fixpoint many_go {A} (fuel : nat) (cond : TokenStream -> bool) (p : Parser A)
    (acc : list A) : Parser (list A) :=
  fun ts =>
    if cond ts then
      match fuel with
      | O => Err (mkError ts UnexpectedToken)
      | S fuel' =>
        match p ts with
        | Err e => Err e
        | Ok a r => many_go fuel' cond p (acc ++ [a]) r
        end
      end
    else Ok acc ts.

Definition many_while {A} (cond : TokenStream -> bool) (p : Parser A) : Parser (list A) :=
  fun ts => many_go (length ts) cond p [] ts.

Definition is_empty (ts : TokenStream) : bool :=
  match ts with [] => true | _ => false end.

Fixpoint tt_size (t : TokenTree) : nat :=
  match t with
  | TGroup _ ts => S (fold_right (fun t acc => tt_size t + acc) 0 ts)
  | _ => 1
  end.

Definition ts_size (ts : TokenStream) : nat :=
  fold_right (fun t acc => tt_size t + acc) 0 ts.

(* ------------------------------------------------------------------ *)
(** ** Sub-grammars outside src/ (attributes, visibility, paths, types,
    generics, patterns, expressions, fields).

    Modelled from the spec: these are the external collaborators of the
    item grammar ("referenced structurally but not specified"): attributes
    are opaque bracketed spans, types and expressions a small grammar of
    paths, references, tuples and literals.  Each of them reads a prefix of
    its input and prints back what it read. *)

Inductive AttrStyle := Outer | Inner.

Record Attribute := mkAttribute { attr_style : AttrStyle; attr_tokens : TokenStream }.

Definition single_parse_outer : Parser Attribute :=
  _ <- punct "#" ;;
  c <- in_group Bracket parse_rest_tokens ;;
  ret (mkAttribute Outer c).

Definition single_parse_inner : Parser Attribute :=
  _ <- punct "#" ;;
  _ <- punct "!" ;;
  c <- in_group Bracket parse_rest_tokens ;;
  ret (mkAttribute Inner c).

(** [Attribute::parse_outer] and [Attribute::parse_inner]. *)
Definition parse_outer : Parser (list Attribute) :=
  many_while (peek (PPunct "#")) single_parse_outer.

Definition parse_inner : Parser (list Attribute) :=
  many_while (fun ts => peek (PPunct "#") ts && peek2 (PPunct "!") ts) single_parse_inner.

Definition print_attr (a : Attribute) : TokenStream :=
  match attr_style a with
  | Outer => [TPunct "#"; TGroup Bracket (attr_tokens a)]
  | Inner => [TPunct "#"; TPunct "!"; TGroup Bracket (attr_tokens a)]
  end.

Definition is_outer (a : Attribute) : bool :=
  match attr_style a with Outer => true | Inner => false end.

(** [FilterAttrs::outer] and [FilterAttrs::inner]. *)
Definition attrs_outer (l : list Attribute) : list Attribute := filter is_outer l.
Definition attrs_inner (l : list Attribute) : list Attribute := filter (fun a => negb (is_outer a)) l.

Definition print_attrs (l : list Attribute) : TokenStream := flat_map print_attr l.

(** [private::attrs(outer, inner)]: outer attributes first, then inner. *)
Definition private_attrs (outer inner : list Attribute) : list Attribute := outer ++ inner.

Inductive Visibility :=
| VisPublic
| VisCrate
| VisRestricted (content : TokenStream)
| VisInherited.

Definition restricted_content (c : TokenStream) : bool :=
  match c with
  | [TIdent "crate"] | [TIdent "self"] | [TIdent "super"] => true
  | TIdent "in" :: _ :: _ => true
  | _ => false
  end.

Definition parse_visibility : Parser Visibility :=
  fun ts =>
    if peek (PKw "pub") ts then
      match tl ts with
      | TGroup Parenthesis c :: r =>
          if restricted_content c then Ok (VisRestricted c) r else Ok VisPublic (tl ts)
      | _ => Ok VisPublic (tl ts)
      end
    else if peek (PKw "crate") ts && negb (peek2 (PPunct "::") ts) then Ok VisCrate (tl ts)
    else Ok VisInherited ts.

Definition print_visibility (v : Visibility) : TokenStream :=
  match v with
  | VisPublic => [TIdent "pub"]
  | VisCrate => [TIdent "crate"]
  | VisRestricted c => [TIdent "pub"; TGroup Parenthesis c]
  | VisInherited => []
  end.

(** [Visibility::is_inherited] (item.rs). *)
Definition is_inherited (v : Visibility) : bool :=
  match v with VisInherited => true | _ => false end.

Definition opt_lifetime : Parser (option string) :=
  fun ts => if peek PLifetime ts then fmap Some parse_lifetime ts else Ok None ts.

Definition print_lifetime (l : string) : TokenStream := [TPunct "'"; TIdent l].

Definition print_opt_lifetime (l : option string) : TokenStream :=
  match l with Some l => print_lifetime l | None => [] end.

Definition print_flag (b : bool) (t : TokenStream) : TokenStream := if b then t else [].

Inductive Ty :=
| TyPath (p : Path)
| TyReference (lifetime : option string) (mutability : bool) (elem : Ty)
| TyTuple (elems : Punctuated Ty)
| TyVerbatim (ts : TokenStream)
with Path := mkPath (leading_colon : bool) (segments : Punctuated PathSegment)
with PathSegment := mkPathSegment (seg_ident : string) (arguments : option (Punctuated Ty)).

Definition path_start : list Peek :=
  [PIdent; PKw "self"; PKw "Self"; PKw "super"; PKw "crate"].

Definition peek_path_ident (ts : TokenStream) : bool :=
  existsb (fun k => peek k ts) path_start.

Fixpoint parse_ty_f (n : nat) : Parser Ty :=
  match n with
  | O => fail (Msg "recursion limit")
  | S n' => fun ts =>
    let la := lookahead1 ts in
    let '(b, la) := la_peek (PPunct "&") la in
    if b then
      (_ <- punct "&" ;; lt <- opt_lifetime ;; m <- opt_token (PKw "mut") ;;
       e <- parse_ty_f n' ;; ret (TyReference lt m e)) ts
    else
    let '(b, la) := la_peek (PGroup Parenthesis) la in
    if b then fmap TyTuple (in_group Parenthesis (parse_terminated (parse_ty_f n') (punct ","))) ts
    else
    let '(b, la) := la_peek_any (path_start ++ [PPunct "::"]) la in
    if b then fmap TyPath (parse_path_f n') ts
    else Err (la_error la)
  end
with parse_path_f (n : nat) : Parser Path :=
  match n with
  | O => fail (Msg "recursion limit")
  | S n' =>
    lc <- opt_token (PPunct "::") ;;
    segs <- sep_loop (fun _ => false) (peek (PPunct "::")) (parse_segment_f n') (punct "::") ;;
    ret (mkPath lc segs)
  end
with parse_segment_f (n : nat) : Parser PathSegment :=
  match n with
  | O => fail (Msg "recursion limit")
  | S n' =>
    id <- (fun ts => if peek_path_ident ts then parse_ident_any ts
                     else Err (mkError ts (Expected ["identifier"]))) ;;
    args <- (fun ts =>
      if peek (PPunct "<") ts then
        (_ <- punct "<" ;;
         a <- sep_loop (peek (PPunct ">")) (fun r => negb (peek (PPunct ">") r))
                (parse_ty_f n') (punct ",") ;;
         _ <- punct ">" ;; ret (Some a)) ts
      else Ok None ts) ;;
    ret (mkPathSegment id args)
  end.

Definition parse_type : Parser Ty := fun ts => parse_ty_f (3 * S (ts_size ts)) ts.
Definition parse_path : Parser Path := fun ts => parse_path_f (3 * S (ts_size ts)) ts.

(** [Path::parse_mod_style]: segments without generic arguments. *)
Definition parse_mod_style : Parser Path :=
  lc <- opt_token (PPunct "::") ;;
  segs <- sep_loop
            (fun ts => negb (peek_path_ident ts || peek (PKw "extern") ts))
            (peek (PPunct "::"))
            (fmap (fun i => mkPathSegment i None) parse_ident_any) (punct "::") ;;
  (fun ts =>
     if punctuated_is_empty segs then Err (mkError ts (Msg "expected path"))
     else if empty_or_trailing segs then Err (mkError ts (Msg "expected path segment"))
     else Ok (mkPath lc segs) ts).

Fixpoint print_ty (t : Ty) : TokenStream :=
  match t with
  | TyPath p => print_path p
  | TyReference lt m e =>
      [TPunct "&"] ++ print_opt_lifetime lt ++ print_flag m [TIdent "mut"] ++ print_ty e
  | TyTuple ps => [TGroup Parenthesis (print_punctuated print_ty [TPunct ","] ps)]
  | TyVerbatim ts => ts
  end
with print_path (p : Path) : TokenStream :=
  match p with
  | mkPath lc segs =>
      print_flag lc [TPunct ":"; TPunct ":"]
      ++ print_punctuated print_segment [TPunct ":"; TPunct ":"] segs
  end
with print_segment (s : PathSegment) : TokenStream :=
  match s with
  | mkPathSegment i None => [TIdent i]
  | mkPathSegment i (Some a) =>
      [TIdent i; TPunct "<"] ++ print_punctuated print_ty [TPunct ","] a ++ [TPunct ">"]
  end.

Inductive TypeParamBound :=
| BoundTrait (maybe : bool) (p : Path)
| BoundLifetime (l : string).

Definition parse_bound : Parser TypeParamBound :=
  fun ts =>
    if peek PLifetime ts then fmap BoundLifetime parse_lifetime ts
    else (m <- opt_token (PPunct "?") ;; p <- parse_path ;; ret (BoundTrait m p)) ts.

Definition print_bound (b : TypeParamBound) : TokenStream :=
  match b with
  | BoundTrait m p => print_flag m [TPunct "?"] ++ print_path p
  | BoundLifetime l => print_lifetime l
  end.

Definition print_bounds (b : Punctuated TypeParamBound) : TokenStream :=
  print_punctuated print_bound [TPunct "+"] b.

Inductive GenericParam :=
| GPLifetime (l : string)
| GPType (ident : string) (colon : bool) (bounds : Punctuated TypeParamBound).

Definition parse_generic_param : Parser GenericParam :=
  fun ts =>
    let la := lookahead1 ts in
    let '(b, la) := la_peek PLifetime la in
    if b then fmap GPLifetime parse_lifetime ts else
    let '(b, la) := la_peek PIdent la in
    if b then
      (i <- parse_ident ;;
       c <- opt_token (PPunct ":") ;;
       bs <- (if c then
                sep_loop (fun r => peek (PPunct ",") r || peek (PPunct ">") r || peek (PPunct "=") r)
                         (peek (PPunct "+")) parse_bound (punct "+")
              else ret punctuated_new) ;;
       ret (GPType i c bs)) ts
    else Err (la_error la).

Definition print_generic_param (g : GenericParam) : TokenStream :=
  match g with
  | GPLifetime l => print_lifetime l
  | GPType i c bs => [TIdent i] ++ print_flag c [TPunct ":"] ++ print_bounds bs
  end.

Record WherePredicate := mkWherePredicate { pred_ty : Ty; pred_bounds : Punctuated TypeParamBound }.

Definition where_stop (ts : TokenStream) : bool :=
  is_empty ts || peek (PGroup Brace) ts || peek (PPunct ",") ts || peek (PPunct ";") ts
  || (peek (PPunct ":") ts && negb (peek (PPunct "::") ts)) || peek (PPunct "=") ts.

Definition parse_where_predicate : Parser WherePredicate :=
  t <- parse_type ;;
  _ <- punct ":" ;;
  bs <- sep_loop where_stop (peek (PPunct "+")) parse_bound (punct "+") ;;
  ret (mkWherePredicate t bs).

Definition print_where_predicate (w : WherePredicate) : TokenStream :=
  print_ty (pred_ty w) ++ [TPunct ":"] ++ print_bounds (pred_bounds w).

Definition WhereClause := Punctuated WherePredicate.

Definition parse_where_clause : Parser WhereClause :=
  _ <- kw "where" ;;
  sep_loop where_stop (peek (PPunct ",")) parse_where_predicate (punct ",").

(** [Option<WhereClause>]. *)
Definition parse_opt_where : Parser (option WhereClause) :=
  fun ts => if peek (PKw "where") ts then fmap Some parse_where_clause ts else Ok None ts.

Definition print_where (w : option WhereClause) : TokenStream :=
  match w with
  | Some w => [TIdent "where"] ++ print_punctuated print_where_predicate [TPunct ","] w
  | None => []
  end.

(** [Generics]: the angle-bracketed parameters (absent when [gen_lt] is
    false) and the where clause. *)
Record Generics := mkGenerics {
  gen_lt : bool;
  gen_params : Punctuated GenericParam;
  where_clause : option WhereClause }.

Definition generics_default : Generics := mkGenerics false punctuated_new None.

Definition with_where (g : Generics) (w : option WhereClause) : Generics :=
  mkGenerics (gen_lt g) (gen_params g) w.

Definition parse_generics : Parser Generics :=
  fun ts =>
    if negb (peek (PPunct "<") ts) then Ok generics_default ts
    else (_ <- punct "<" ;;
          ps <- sep_loop (peek (PPunct ">")) (fun r => negb (peek (PPunct ">") r))
                         parse_generic_param (punct ",") ;;
          _ <- punct ">" ;;
          ret (mkGenerics true ps None)) ts.

(** [Generics::to_tokens]: the parameter list only; the where clause is
    printed separately by each item. *)
Definition print_generics (g : Generics) : TokenStream :=
  if gen_lt g then
    [TPunct "<"] ++ print_punctuated print_generic_param [TPunct ","] (gen_params g) ++ [TPunct ">"]
  else [].

Inductive ReturnType := RetDefault | RetType (t : Ty).

Definition parse_return_type : Parser ReturnType :=
  fun ts => if peek (PPunct "->") ts then (_ <- punct "->" ;; fmap RetType parse_type) ts
            else Ok RetDefault ts.

Definition print_return_type (r : ReturnType) : TokenStream :=
  match r with RetDefault => [] | RetType t => [TPunct "-"; TPunct ">"] ++ print_ty t end.

Record Abi := mkAbi { abi_name : option string }.

Definition parse_abi : Parser Abi :=
  _ <- kw "extern" ;;
  n <- (fun ts => if peek PLitStr ts then fmap Some parse_lit_str ts else Ok None ts) ;;
  ret (mkAbi n).

Definition parse_opt_abi : Parser (option Abi) :=
  fun ts => if peek (PKw "extern") ts then fmap Some parse_abi ts else Ok None ts.

Definition print_abi (a : Abi) : TokenStream :=
  [TIdent "extern"] ++ match abi_name a with Some s => [TLit LitStrKind s] | None => [] end.

Definition print_opt_abi (a : option Abi) : TokenStream :=
  match a with Some a => print_abi a | None => [] end.

Inductive Pat :=
| PatIdent (by_ref : bool) (mutability : bool) (ident : string)
| PatWild
| PatReference (mutability : bool) (pat : Pat).

(** [impl Parse for Pat], for the patterns of function parameters: [_],
    [[ref] [mut] ident] and [&[mut] pat] ([pat_reference]).  A reference
    pattern reads at least one token, so the length of the stream bounds the
    nesting. *)
Fixpoint parse_pat_f (n : nat) : Parser Pat :=
  match n with
  | O => fail (Msg "recursion limit")
  | S n' => fun ts =>
    let la := lookahead1 ts in
    let '(b, la) := la_peek (PKw "_") la in
    if b then (_ <- kw "_" ;; ret PatWild) ts else
    let '(b, la) := la_peek_any [PKw "ref"; PKw "mut"] la in
    if b || peek (PKw "self") ts || peek PIdent ts then
      (r <- opt_token (PKw "ref") ;; m <- opt_token (PKw "mut") ;;
       i <- parse_ident_any ;; ret (PatIdent r m i)) ts
    else
    let '(b, la) := la_peek (PPunct "&") la in
    if b then
      (_ <- punct "&" ;; m <- opt_token (PKw "mut") ;;
       p <- parse_pat_f n' ;; ret (PatReference m p)) ts
    else Err (la_error la)
  end.

Definition parse_pat : Parser Pat := fun ts => parse_pat_f (S (length ts)) ts.

Fixpoint print_pat (p : Pat) : TokenStream :=
  match p with
  | PatIdent r m i => print_flag r [TIdent "ref"] ++ print_flag m [TIdent "mut"] ++ [TIdent i]
  | PatWild => [TIdent "_"]
  | PatReference m p => [TPunct "&"] ++ print_flag m [TIdent "mut"] ++ print_pat p
  end.

Inductive Expr :=
| ExprLit (k : LitKind) (repr : string)
| ExprPath (p : Path)
| ExprGroup (d : Delimiter) (ts : TokenStream).

Definition parse_expr : Parser Expr :=
  fun ts =>
    match ts with
    | TLit k s :: r => Ok (ExprLit k s) r
    | TGroup d c :: r => Ok (ExprGroup d c) r
    | _ => if peek_path_ident ts || peek (PPunct "::") ts then fmap ExprPath parse_path ts
           else Err (mkError ts (Expected ["expression"]))
    end.

Definition print_expr (e : Expr) : TokenStream :=
  match e with
  | ExprLit k s => [TLit k s]
  | ExprPath p => print_path p
  | ExprGroup d c => [TGroup d c]
  end.

(** A block keeps its statements as the tokens of the body. *)
Record Block := mkBlock { stmts : TokenStream }.

Definition parse_within : Parser TokenStream := parse_rest_tokens.

Record Field := mkField {
  field_attrs : list Attribute;
  field_vis : Visibility;
  field_ident : option string;
  field_ty : Ty }.

Definition parse_field_named : Parser Field :=
  a <- parse_outer ;; v <- parse_visibility ;; i <- parse_ident ;;
  _ <- punct ":" ;; t <- parse_type ;; ret (mkField a v (Some i) t).

Definition parse_field_unnamed : Parser Field :=
  a <- parse_outer ;; v <- parse_visibility ;; t <- parse_type ;; ret (mkField a v None t).

Definition print_field (f : Field) : TokenStream :=
  print_attrs (attrs_outer (field_attrs f)) ++ print_visibility (field_vis f)
  ++ match field_ident f with Some i => [TIdent i; TPunct ":"] | None => [] end
  ++ print_ty (field_ty f).

Definition FieldsNamed := Punctuated Field.
Definition FieldsUnnamed := Punctuated Field.

Inductive Fields :=
| FieldsNamedV (f : FieldsNamed)
| FieldsUnnamedV (f : FieldsUnnamed)
| FieldsUnit.

Definition parse_fields_named : Parser FieldsNamed :=
  in_group Brace (parse_terminated parse_field_named (punct ",")).

Definition parse_fields_unnamed : Parser FieldsUnnamed :=
  in_group Parenthesis (parse_terminated parse_field_unnamed (punct ",")).

Definition print_fields_named (f : FieldsNamed) : TokenStream :=
  [TGroup Brace (print_punctuated print_field [TPunct ","] f)].

Definition print_fields_unnamed (f : FieldsUnnamed) : TokenStream :=
  [TGroup Parenthesis (print_punctuated print_field [TPunct ","] f)].

Definition print_fields (f : Fields) : TokenStream :=
  match f with
  | FieldsNamedV f => print_fields_named f
  | FieldsUnnamedV f => print_fields_unnamed f
  | FieldsUnit => []
  end.

Record Variant := mkVariant {
  variant_attrs : list Attribute;
  variant_ident : string;
  variant_fields : Fields;
  discriminant : option Expr }.

Definition parse_variant : Parser Variant :=
  a <- parse_outer ;;
  i <- parse_ident ;;
  f <- (fun ts =>
          if peek (PGroup Brace) ts then fmap FieldsNamedV parse_fields_named ts
          else if peek (PGroup Parenthesis) ts then fmap FieldsUnnamedV parse_fields_unnamed ts
          else Ok FieldsUnit ts) ;;
  d <- (fun ts => if peek (PPunct "=") ts then (_ <- punct "=" ;; fmap Some parse_expr) ts
                  else Ok None ts) ;;
  ret (mkVariant a i f d).

Definition print_variant (v : Variant) : TokenStream :=
  print_attrs (attrs_outer (variant_attrs v)) ++ [TIdent (variant_ident v)]
  ++ print_fields (variant_fields v)
  ++ match discriminant v with Some e => [TPunct "="] ++ print_expr e | None => [] end.

(** [derive::parsing::data_struct]. *)
Definition data_struct : Parser (option WhereClause * Fields * bool) :=
  fun ts =>
    let la := lookahead1 ts in
    let '(bw, la) := la_peek (PKw "where") la in
    match (if bw then fmap Some parse_where_clause ts else Ok None ts) with
    | Err e => Err e
    | Ok wc r =>
      let la := if bw then lookahead1 r else la in
      let '(bp, la) := match wc with None => la_peek (PGroup Parenthesis) la | Some _ => (false, la) end in
      if bp then
        match parse_fields_unnamed r with
        | Err e => Err e
        | Ok f r1 =>
          let la := lookahead1 r1 in
          let '(bw2, la) := la_peek (PKw "where") la in
          match (if bw2 then fmap Some parse_where_clause r1 else Ok wc r1) with
          | Err e => Err e
          | Ok wc2 r2 =>
            let la := if bw2 then lookahead1 r2 else la in
            let '(bs, la) := la_peek (PPunct ";") la in
            if bs then fmap (fun _ => (wc2, FieldsUnnamedV f, true)) (punct ";") r2
            else Err (la_error la)
          end
        end
      else
      let '(bb, la) := la_peek (PGroup Brace) la in
      if bb then fmap (fun f => (wc, FieldsNamedV f, false)) parse_fields_named r
      else
      let '(bs, la) := la_peek (PPunct ";") la in
      if bs then fmap (fun _ => (wc, FieldsUnit, true)) (punct ";") r
      else Err (la_error la)
    end.

(** [derive::parsing::data_enum]. *)
Definition data_enum : Parser (option WhereClause * Punctuated Variant) :=
  wc <- parse_opt_where ;;
  vs <- in_group Brace (parse_terminated parse_variant (punct ",")) ;;
  ret (wc, vs).

(** [derive::parsing::data_union]. *)
Definition data_union : Parser (option WhereClause * FieldsNamed) :=
  wc <- parse_opt_where ;;
  f <- parse_fields_named ;;
  ret (wc, f).

Inductive MacroDelimiter := MParen | MBrace | MBracket.

Definition is_brace (d : MacroDelimiter) : bool :=
  match d with MBrace => true | MParen | MBracket => false end.

(** [mac::parse_delimiter]. *)
Definition parse_delimiter : Parser (MacroDelimiter * TokenStream) :=
  fun ts =>
    match ts with
    | TGroup Parenthesis c :: r => Ok (MParen, c) r
    | TGroup Brace c :: r => Ok (MBrace, c) r
    | TGroup Bracket c :: r => Ok (MBracket, c) r
    | _ => Err (mkError ts (Msg "expected delimiter"))
    end.

Definition delimiter_of (d : MacroDelimiter) : Delimiter :=
  match d with MParen => Parenthesis | MBrace => Brace | MBracket => Bracket end.

Record Macro := mkMacro { mac_path : Path; mac_delimiter : MacroDelimiter; mac_tokens : TokenStream }.

Definition parse_macro : Parser Macro :=
  p <- parse_mod_style ;;
  _ <- punct "!" ;;
  dt <- parse_delimiter ;;
  ret (mkMacro p (fst dt) (snd dt)).

Definition print_macro (m : Macro) : TokenStream :=
  print_path (mac_path m) ++ [TPunct "!"; TGroup (delimiter_of (mac_delimiter m)) (mac_tokens m)].

(* ------------------------------------------------------------------ *)
(** ** The syntax tree of item.rs and partial_borrows.rs.

    Tokens that carry only a span ([Token![fn]], [token::Brace], ...) are
    not represented; an [Option<Token![..]>] is a [bool]. *)

Record PartialBorrow := mkPartialBorrow { pb_mutability : bool; pb_ident : string }.

Record PartialBorrows := mkPartialBorrows { borrows : Punctuated PartialBorrow }.

Inductive Reference :=
| Reference_None (mutability : option unit)
| Reference_Partial (pbs : PartialBorrows)
| Reference_Full (lifetime : option string) (mutability : option unit).

Record Receiver := mkReceiver { receiver_attrs : list Attribute; reference : Reference }.

Record PatType := mkPatType { pat_type_attrs : list Attribute; pat : Pat; pat_ty : Ty }.

Inductive FnArg :=
| FnArg_Receiver (r : Receiver)
| FnArg_Typed (p : PatType).

Record Variadic := mkVariadic { variadic_attrs : list Attribute }.

Record Signature := mkSignature {
  constness : bool;
  asyncness : bool;
  unsafety : bool;
  abi : option Abi;
  sig_ident : string;
  sig_generics : Generics;
  inputs : Punctuated FnArg;
  variadic : option Variadic;
  output : ReturnType }.

Record ItemConst := mkItemConst {
  const_attrs : list Attribute; const_vis : Visibility; const_ident : string;
  const_ty : Ty; const_expr : Expr }.

Record ItemEnum := mkItemEnum {
  enum_attrs : list Attribute; enum_vis : Visibility; enum_ident : string;
  enum_generics : Generics; variants : Punctuated Variant }.

Record ItemExternCrate := mkItemExternCrate {
  extern_crate_attrs : list Attribute; extern_crate_vis : Visibility;
  extern_crate_ident : string; rename : option string }.

Record ItemFn := mkItemFn {
  fn_attrs : list Attribute; fn_vis : Visibility; sig : Signature; block : Block }.

Record ForeignItemFn := mkForeignItemFn {
  foreign_fn_attrs : list Attribute; foreign_fn_vis : Visibility; foreign_fn_sig : Signature }.

Record ForeignItemStatic := mkForeignItemStatic {
  foreign_static_attrs : list Attribute; foreign_static_vis : Visibility;
  foreign_static_mutability : bool; foreign_static_ident : string; foreign_static_ty : Ty }.

Record ForeignItemType := mkForeignItemType {
  foreign_type_attrs : list Attribute; foreign_type_vis : Visibility; foreign_type_ident : string }.

Record ForeignItemMacro := mkForeignItemMacro {
  foreign_macro_attrs : list Attribute; foreign_macro_mac : Macro; foreign_macro_semi : bool }.

Inductive ForeignItem :=
| ForeignItem_Fn (f : ForeignItemFn)
| ForeignItem_Static (s : ForeignItemStatic)
| ForeignItem_Type (t : ForeignItemType)
| ForeignItem_Macro (m : ForeignItemMacro)
| ForeignItem_Verbatim (ts : TokenStream).

Record ItemForeignMod := mkItemForeignMod {
  foreign_mod_attrs : list Attribute; foreign_mod_abi : Abi; foreign_mod_items : list ForeignItem }.

Record TraitItemConst := mkTraitItemConst {
  trait_const_attrs : list Attribute; trait_const_ident : string; trait_const_ty : Ty;
  trait_const_default : option Expr }.

Record TraitItemMethod := mkTraitItemMethod {
  trait_method_attrs : list Attribute; trait_method_sig : Signature;
  trait_method_default : option Block; trait_method_semi : bool }.

Record TraitItemType := mkTraitItemType {
  trait_type_attrs : list Attribute; trait_type_ident : string; trait_type_generics : Generics;
  trait_type_colon : bool; trait_type_bounds : Punctuated TypeParamBound;
  trait_type_default : option Ty }.

Record TraitItemMacro := mkTraitItemMacro {
  trait_macro_attrs : list Attribute; trait_macro_mac : Macro; trait_macro_semi : bool }.

Inductive TraitItem :=
| TraitItem_Const (c : TraitItemConst)
| TraitItem_Method (m : TraitItemMethod)
| TraitItem_Type (t : TraitItemType)
| TraitItem_Macro (m : TraitItemMacro)
| TraitItem_Verbatim (ts : TokenStream).

Record ImplItemConst := mkImplItemConst {
  impl_const_attrs : list Attribute; impl_const_vis : Visibility; impl_const_defaultness : bool;
  impl_const_ident : string; impl_const_ty : Ty; impl_const_expr : Expr }.

Record ImplItemMethod := mkImplItemMethod {
  impl_method_attrs : list Attribute; impl_method_vis : Visibility;
  impl_method_defaultness : bool; impl_method_sig : Signature; impl_method_block : Block }.

Record ImplItemType := mkImplItemType {
  impl_type_attrs : list Attribute; impl_type_vis : Visibility; impl_type_defaultness : bool;
  impl_type_ident : string; impl_type_generics : Generics; impl_type_ty : Ty }.

Record ImplItemMacro := mkImplItemMacro {
  impl_macro_attrs : list Attribute; impl_macro_mac : Macro; impl_macro_semi : bool }.

Inductive ImplItem :=
| ImplItem_Const (c : ImplItemConst)
| ImplItem_Method (m : ImplItemMethod)
| ImplItem_Type (t : ImplItemType)
| ImplItem_Macro (m : ImplItemMacro)
| ImplItem_Verbatim (ts : TokenStream).

Record ItemImpl := mkItemImpl {
  impl_attrs : list Attribute; defaultness : bool; impl_unsafety : bool;
  impl_generics : Generics; trait_ : option (bool * Path); self_ty : Ty;
  impl_items : list ImplItem }.

Record ItemMacro := mkItemMacro {
  macro_attrs : list Attribute; macro_ident : option string; mac : Macro; macro_semi : bool }.

Record ItemMacro2 := mkItemMacro2 {
  macro2_attrs : list Attribute; macro2_vis : Visibility; macro2_ident : string;
  rules : TokenStream }.

Record ItemStatic := mkItemStatic {
  static_attrs : list Attribute; static_vis : Visibility; static_mutability : bool;
  static_ident : string; static_ty : Ty; static_expr : Expr }.

Record ItemStruct := mkItemStruct {
  struct_attrs : list Attribute; struct_vis : Visibility; struct_ident : string;
  struct_generics : Generics; struct_fields : Fields; struct_semi_token : option unit }.

Record ItemTrait := mkItemTrait {
  trait_attrs : list Attribute; trait_vis : Visibility; trait_unsafety : bool;
  auto_token : bool; trait_ident : string; trait_generics : Generics;
  trait_colon : bool; supertraits : Punctuated TypeParamBound; trait_items : list TraitItem }.

Record ItemTraitAlias := mkItemTraitAlias {
  trait_alias_attrs : list Attribute; trait_alias_vis : Visibility; trait_alias_ident : string;
  trait_alias_generics : Generics; trait_alias_bounds : Punctuated TypeParamBound }.

Record ItemType := mkItemType {
  type_attrs : list Attribute; type_vis : Visibility; type_ident : string;
  type_generics : Generics; type_ty : Ty }.

Record ItemUnion := mkItemUnion {
  union_attrs : list Attribute; union_vis : Visibility; union_ident : string;
  union_generics : Generics; union_fields : FieldsNamed }.

Inductive UseTree :=
| UseTree_Path (ident : string) (tree : UseTree)
| UseTree_Name (ident : string)
| UseTree_Rename (ident : string) (rename : string)
| UseTree_Glob
| UseTree_Group (items : Punctuated UseTree).

Record ItemUse := mkItemUse {
  use_attrs : list Attribute; use_vis : Visibility; use_leading_colon : bool; use_tree : UseTree }.

(** [Item]; the hidden [__Nonexhaustive] variant is never constructed. *)
Inductive Item :=
| Item_Const (i : ItemConst)
| Item_Enum (i : ItemEnum)
| Item_ExternCrate (i : ItemExternCrate)
| Item_Fn (i : ItemFn)
| Item_ForeignMod (i : ItemForeignMod)
| Item_Impl (i : ItemImpl)
| Item_Macro (i : ItemMacro)
| Item_Macro2 (i : ItemMacro2)
| Item_Mod (i : ItemMod)
| Item_Static (i : ItemStatic)
| Item_Struct (i : ItemStruct)
| Item_Trait (i : ItemTrait)
| Item_TraitAlias (i : ItemTraitAlias)
| Item_Type (i : ItemType)
| Item_Union (i : ItemUnion)
| Item_Use (i : ItemUse)
| Item_Verbatim (ts : TokenStream)
with ItemMod :=
| mkItemMod (mod_attrs : list Attribute) (mod_vis : Visibility) (mod_ident : string)
    (content : option (list Item)) (mod_semi : option unit).

(* ------------------------------------------------------------------ *)
(** ** Parsing (the [parsing] modules of item.rs and partial_borrows.rs) *)

(** [impl Parse for PartialBorrow]. *)
Definition parse_partial_borrow : Parser PartialBorrow :=
  m <- (fun ts =>
          let '(b, _) := la_peek (PKw "mut") (lookahead1 ts) in
          if b then fmap (fun _ => true) (kw "mut") ts else Ok false ts) ;;
  i <- parse_ident ;;
  ret (mkPartialBorrow m i).

(** [impl Parse for PartialBorrows]. *)
Definition parse_partial_borrows : Parser PartialBorrows :=
  bs <- in_group Brace (parse_terminated parse_partial_borrow (punct ",")) ;;
  ret (mkPartialBorrows bs).

Definition opt_mut : Parser (option unit) :=
  fun ts => if peek (PKw "mut") ts then fmap Some (kw "mut") ts else Ok None ts.

(** [impl Parse for Receiver]. *)
Definition parse_receiver : Parser Receiver :=
  fun input =>
    let la := lookahead1 input in
    let '(b, la) := la_peek (PKw "mut") la in
    if b then
      (m <- opt_mut ;; _ <- kw "self" ;; ret (mkReceiver [] (Reference_None m))) input
    else
    let '(b, la) := la_peek (PPunct "&") la in
    if b then
      (_ <- punct "&" ;; lt <- opt_lifetime ;; m <- opt_mut ;; _ <- kw "self" ;;
       ret (mkReceiver [] (Reference_Full lt m))) input
    else
    let '(b, la) := la_peek (PKw "self") la in
    if b then
      (_ <- kw "self" ;;
       r <- (fun ts =>
               if peek (PPunct ".") ts then
                 (_ <- punct "." ;; pbs <- parse_partial_borrows ;; ret (Reference_Partial pbs)) ts
               else Ok (Reference_None None) ts) ;;
       ret (mkReceiver [] r)) input
    else Err (la_error la).

Definition dot3_tokens : TokenStream := [TPunct "."; TPunct "."; TPunct "."].

(** [fn_arg_typed], with its branch for the pre-2018 form [Ident<...>]
    that synthesizes a [_] pattern and a [:] token. *)
Definition fn_arg_typed : Parser PatType :=
  fun input =>
    if peek PIdent input && peek2 (PPunct "<") input then
      match parse_ident input with
      | Err e => Err e
      | Ok _ _ => fmap (fun t => mkPatType [] PatWild t) parse_type input
      end
    else
      (p <- parse_pat ;;
       _ <- punct ":" ;;
       t <- (fun ts =>
               if peek (PPunct "...") ts then
                 (_ <- punct "..." ;; ret (TyVerbatim dot3_tokens)) ts
               else parse_type ts) ;;
       ret (mkPatType [] p t)) input.

(** [impl Parse for FnArg]: a speculative receiver parse on a fork, kept
    unless a [:] follows. *)
Definition parse_fn_arg : Parser FnArg :=
  fun input =>
    match parse_outer input with
    | Err e => Err e
    | Ok attrs input =>
      let typed :=
        match fn_arg_typed input with
        | Ok t r => Ok (FnArg_Typed (mkPatType attrs (pat t) (pat_ty t))) r
        | Err e => Err e
        end in
      match parse_receiver input with
      | Ok receiver ahead =>
          if negb (peek (PPunct ":") ahead)
          then Ok (FnArg_Receiver (mkReceiver attrs (reference receiver))) ahead
          else typed
      | Err _ => typed
      end
    end.

(** [get_variadic] in [impl Parse for ItemFn]. *)
Definition get_variadic (a : FnArg) : option Variadic :=
  match a with
  | FnArg_Typed (mkPatType _ _ (TyVerbatim ts)) =>
      match punct "..." ts with Ok _ [] => Some (mkVariadic []) | _ => None end
  | _ => None
  end.

Definition parse_fn_inputs : Parser (Punctuated FnArg) :=
  in_group Parenthesis (parse_terminated parse_fn_arg (punct ",")).

(** A braced body: inner attributes, then the statements. *)
Definition parse_body : Parser (list Attribute * TokenStream) :=
  in_group Brace (inner <- parse_inner ;; s <- parse_within ;; ret (inner, s)).

(** [impl Parse for ItemFn]. *)
Definition parse_item_fn : Parser ItemFn :=
  outer_attrs <- parse_outer ;;
  vis <- parse_visibility ;;
  constness <- opt_token (PKw "const") ;;
  asyncness <- opt_token (PKw "async") ;;
  unsafety <- opt_token (PKw "unsafe") ;;
  abi <- parse_opt_abi ;;
  _ <- kw "fn" ;;
  ident <- parse_ident ;;
  generics <- parse_generics ;;
  inputs <- parse_fn_inputs ;;
  let variadic := match punctuated_last inputs with Some a => get_variadic a | None => None end in
  output <- parse_return_type ;;
  where_clause <- parse_opt_where ;;
  body <- parse_body ;;
  ret (mkItemFn (private_attrs outer_attrs (fst body)) vis
         (mkSignature constness asyncness unsafety abi ident
            (with_where generics where_clause) inputs variadic output)
         (mkBlock (snd body))).

(** [impl Parse for ItemConst]. *)
Definition parse_item_const : Parser ItemConst :=
  attrs <- parse_outer ;;
  vis <- parse_visibility ;;
  _ <- kw "const" ;;
  ident <- (fun ts =>
              let la := lookahead1 ts in
              let '(b, la) := la_peek_any [PIdent; PKw "_"] la in
              if b then parse_ident_any ts else Err (la_error la)) ;;
  _ <- punct ":" ;;
  ty <- parse_type ;;
  _ <- punct "=" ;;
  expr <- parse_expr ;;
  _ <- punct ";" ;;
  ret (mkItemConst attrs vis ident ty expr).

(** [impl Parse for ItemStatic]. *)
Definition parse_item_static : Parser ItemStatic :=
  attrs <- parse_outer ;;
  vis <- parse_visibility ;;
  _ <- kw "static" ;;
  m <- opt_token (PKw "mut") ;;
  ident <- parse_ident ;;
  _ <- punct ":" ;;
  ty <- parse_type ;;
  _ <- punct "=" ;;
  expr <- parse_expr ;;
  _ <- punct ";" ;;
  ret (mkItemStatic attrs vis m ident ty expr).

(** [impl Parse for ItemExternCrate]. *)
Definition parse_item_extern_crate : Parser ItemExternCrate :=
  attrs <- parse_outer ;;
  vis <- parse_visibility ;;
  _ <- kw "extern" ;;
  _ <- kw "crate" ;;
  ident <- (fun ts => if peek (PKw "self") ts then parse_ident_any ts else parse_ident ts) ;;
  rename <- (fun ts =>
    if peek (PKw "as") ts then
      (_ <- kw "as" ;;
       r <- (fun ts => if peek (PKw "_") ts then (_ <- kw "_" ;; ret "_") ts else parse_ident ts) ;;
       ret (Some r)) ts
    else Ok None ts) ;;
  _ <- punct ";" ;;
  ret (mkItemExternCrate attrs vis ident rename).

(** [impl Parse for UseTree]. *)
Fixpoint parse_use_tree_f (n : nat) : Parser UseTree :=
  match n with
  | O => fail (Msg "recursion limit")
  | S n' => fun input =>
    let la := lookahead1 input in
    let '(b, la) := la_peek_any [PIdent; PKw "self"; PKw "super"; PKw "crate"; PKw "extern"] la in
    if b then
      match parse_ident_any input with
      | Err e => Err e
      | Ok ident r =>
        if peek (PPunct "::") r then
          (_ <- punct "::" ;; t <- parse_use_tree_f n' ;; ret (UseTree_Path ident t)) r
        else if peek (PKw "as") r then
          (_ <- kw "as" ;;
           rn <- (fun ts =>
                    if peek PIdent ts then parse_ident ts
                    else if peek (PKw "_") ts then (_ <- kw "_" ;; ret "_") ts
                    else Err (mkError ts (Msg "expected identifier or underscore"))) ;;
           ret (UseTree_Rename ident rn)) r
        else Ok (UseTree_Name ident) r
      end
    else
    let '(b, la) := la_peek (PPunct "*") la in
    if b then fmap (fun _ => UseTree_Glob) (punct "*") input
    else
    let '(b, la) := la_peek (PGroup Brace) la in
    if b then
      fmap UseTree_Group (in_group Brace (parse_terminated (parse_use_tree_f n') (punct ","))) input
    else Err (la_error la)
  end.

Definition parse_use_tree : Parser UseTree := fun ts => parse_use_tree_f (S (ts_size ts)) ts.

(** [impl Parse for ItemUse]. *)
Definition parse_item_use : Parser ItemUse :=
  attrs <- parse_outer ;;
  vis <- parse_visibility ;;
  _ <- kw "use" ;;
  lc <- opt_token (PPunct "::") ;;
  tree <- parse_use_tree ;;
  _ <- punct ";" ;;
  ret (mkItemUse attrs vis lc tree).

(** [impl Parse for ItemMod]; [parse_item] parses one nested item. *)
Definition parse_item_mod (parse_item : Parser Item) : Parser ItemMod :=
  outer_attrs <- parse_outer ;;
  vis <- parse_visibility ;;
  _ <- kw "mod" ;;
  ident <- parse_ident ;;
  fun input =>
    let la := lookahead1 input in
    let '(b, la) := la_peek (PPunct ";") la in
    if b then fmap (fun _ => mkItemMod outer_attrs vis ident None (Some tt)) (punct ";") input
    else
    let '(b, la) := la_peek (PGroup Brace) la in
    if b then
      (body <- in_group Brace
                 (inner_attrs <- parse_inner ;;
                  items <- many_while (fun ts => negb (is_empty ts)) parse_item ;;
                  ret (inner_attrs, items)) ;;
       ret (mkItemMod (private_attrs outer_attrs (fst body)) vis ident (Some (snd body)) None))
        input
    else Err (la_error la).

(** [impl Parse for ForeignItemFn], with its own argument loop that stops
    at [...]. *)
Fixpoint foreign_inputs_go (fuel : nat) (inputs : Punctuated FnArg)
    : Parser (Punctuated FnArg * option Variadic) :=
  fun content =>
    if is_empty content then Ok (inputs, None) content else
    match fuel with
    | O => Err (mkError content UnexpectedToken)
    | S fuel' =>
      match parse_outer content with
      | Err e => Err e
      | Ok attrs r =>
        if peek (PPunct "...") r then
          fmap (fun _ => (inputs, Some (mkVariadic attrs))) (punct "...") r
        else
        match fn_arg_typed r with
        | Err e => Err e
        | Ok arg r1 =>
          let inputs := push_value inputs (FnArg_Typed (mkPatType attrs (pat arg) (pat_ty arg))) in
          if is_empty r1 then Ok (inputs, None) r1 else
          match punct "," r1 with
          | Err e => Err e
          | Ok _ r2 => foreign_inputs_go fuel' (push_punct inputs) r2
          end
        end
      end
    end.

Definition parse_foreign_item_fn : Parser ForeignItemFn :=
  attrs <- parse_outer ;;
  vis <- parse_visibility ;;
  _ <- kw "fn" ;;
  ident <- parse_ident ;;
  generics <- parse_generics ;;
  iv <- in_group Parenthesis (fun c => foreign_inputs_go (length c) punctuated_new c) ;;
  output <- parse_return_type ;;
  where_clause <- parse_opt_where ;;
  _ <- punct ";" ;;
  ret (mkForeignItemFn attrs vis
         (mkSignature false false false None ident (with_where generics where_clause)
            (fst iv) (snd iv) output)).

(** [impl Parse for ForeignItemStatic]. *)
Definition parse_foreign_item_static : Parser ForeignItemStatic :=
  attrs <- parse_outer ;;
  vis <- parse_visibility ;;
  _ <- kw "static" ;;
  m <- opt_token (PKw "mut") ;;
  ident <- parse_ident ;;
  _ <- punct ":" ;;
  ty <- parse_type ;;
  _ <- punct ";" ;;
  ret (mkForeignItemStatic attrs vis m ident ty).

(** [impl Parse for ForeignItemType]. *)
Definition parse_foreign_item_type : Parser ForeignItemType :=
  attrs <- parse_outer ;;
  vis <- parse_visibility ;;
  _ <- kw "type" ;;
  ident <- parse_ident ;;
  _ <- punct ";" ;;
  ret (mkForeignItemType attrs vis ident).

(** A macro invocation followed by [;] unless braced
    ([ForeignItemMacro], [TraitItemMacro], [ImplItemMacro]). *)
Definition parse_mac_semi : Parser (Macro * bool) :=
  m <- parse_macro ;;
  semi <- (fun ts => if is_brace (mac_delimiter m) then Ok false ts
                     else fmap (fun _ => true) (punct ";") ts) ;;
  ret (m, semi).

Definition parse_foreign_item_macro : Parser ForeignItemMacro :=
  attrs <- parse_outer ;;
  ms <- parse_mac_semi ;;
  ret (mkForeignItemMacro attrs (fst ms) (snd ms)).

(** The tokens a macro item may start with
    ([Ident], [self], [super], [extern], [crate], [::]). *)
Definition macro_start : list Peek :=
  [PIdent; PKw "self"; PKw "super"; PKw "extern"; PKw "crate"; PPunct "::"].

Definition foreign_item_attrs (it : ForeignItem) : list Attribute :=
  match it with
  | ForeignItem_Fn i => foreign_fn_attrs i
  | ForeignItem_Static i => foreign_static_attrs i
  | ForeignItem_Type i => foreign_type_attrs i
  | ForeignItem_Macro i => foreign_macro_attrs i
  | ForeignItem_Verbatim _ => []
  end.

Definition foreign_item_set_attrs (it : ForeignItem) (a : list Attribute) : ForeignItem :=
  match it with
  | ForeignItem_Fn i => ForeignItem_Fn (mkForeignItemFn a (foreign_fn_vis i) (foreign_fn_sig i))
  | ForeignItem_Static i =>
      ForeignItem_Static (mkForeignItemStatic a (foreign_static_vis i)
        (foreign_static_mutability i) (foreign_static_ident i) (foreign_static_ty i))
  | ForeignItem_Type i =>
      ForeignItem_Type (mkForeignItemType a (foreign_type_vis i) (foreign_type_ident i))
  | ForeignItem_Macro i =>
      ForeignItem_Macro (mkForeignItemMacro a (foreign_macro_mac i) (foreign_macro_semi i))
  | ForeignItem_Verbatim ts => ForeignItem_Verbatim ts
  end.

(** [impl Parse for ForeignItem]. *)
Definition parse_foreign_item : Parser ForeignItem :=
  fun input =>
    match parse_outer input with
    | Err e => Err e
    | Ok attrs input =>
      match parse_visibility input with
      | Err e => Err e
      | Ok vis ahead =>
        let la := lookahead1 ahead in
        let item :=
          let '(b, la) := la_peek (PKw "fn") la in
          if b then fmap ForeignItem_Fn parse_foreign_item_fn input else
          let '(b, la) := la_peek (PKw "static") la in
          if b then fmap ForeignItem_Static parse_foreign_item_static input else
          let '(b, la) := la_peek (PKw "type") la in
          if b then fmap ForeignItem_Type parse_foreign_item_type input else
          let '(b, la) := if is_inherited vis then la_peek_any macro_start la else (false, la) in
          if b then fmap ForeignItem_Macro parse_foreign_item_macro input
          else Err (la_error la) in
        match item with
        | Err e => Err e
        | Ok it r => Ok (foreign_item_set_attrs it (attrs ++ foreign_item_attrs it)) r
        end
      end
    end.

(** [impl Parse for ItemForeignMod]. *)
Definition parse_item_foreign_mod : Parser ItemForeignMod :=
  outer_attrs <- parse_outer ;;
  abi <- parse_abi ;;
  body <- in_group Brace
            (inner_attrs <- parse_inner ;;
             items <- many_while (fun ts => negb (is_empty ts)) parse_foreign_item ;;
             ret (inner_attrs, items)) ;;
  ret (mkItemForeignMod (private_attrs outer_attrs (fst body)) abi (snd body)).

(** [impl Parse for ItemType]: the where clause comes before [=]. *)
Definition parse_item_type : Parser ItemType :=
  attrs <- parse_outer ;;
  vis <- parse_visibility ;;
  _ <- kw "type" ;;
  ident <- parse_ident ;;
  generics <- parse_generics ;;
  wc <- parse_opt_where ;;
  _ <- punct "=" ;;
  ty <- parse_type ;;
  _ <- punct ";" ;;
  ret (mkItemType attrs vis ident (with_where generics wc) ty).

(** [while !stop { if !bounds.is_empty() { push_punct(+) } push_value(bound) }],
    the bound loops of [item_existential] and [TraitItemType]. *)
Fixpoint plus_bounds_go (fuel : nat) (stop : TokenStream -> bool)
    (bounds : Punctuated TypeParamBound) : Parser (Punctuated TypeParamBound) :=
  fun ts =>
    if stop ts then Ok bounds ts else
    match fuel with
    | O => Err (mkError ts UnexpectedToken)
    | S fuel' =>
      match (if negb (punctuated_is_empty bounds)
             then fmap (fun _ => push_punct bounds) (punct "+") ts
             else Ok bounds ts) with
      | Err e => Err e
      | Ok bounds r =>
        match parse_bound r with
        | Err e => Err e
        | Ok b r' => plus_bounds_go fuel' stop (push_value bounds b) r'
        end
      end
    end.

Definition plus_bounds (stop : TokenStream -> bool) : Parser (Punctuated TypeParamBound) :=
  fun ts => plus_bounds_go (length ts) stop punctuated_new ts.

(** [item_existential] (with the [printing] feature): parses
    [existential type] and re-emits it as a token stream. *)
Definition item_existential : Parser TokenStream :=
  attrs <- parse_outer ;;
  vis <- parse_visibility ;;
  _ <- kw "existential" ;;
  _ <- kw "type" ;;
  ident <- parse_ident ;;
  generics <- parse_generics ;;
  wc <- parse_opt_where ;;
  _ <- punct ":" ;;
  bounds <- plus_bounds (peek (PPunct ";")) ;;
  _ <- punct ";" ;;
  ret (print_attrs (attrs_outer attrs) ++ print_visibility vis
       ++ [TIdent "existential"; TIdent "type"; TIdent ident]
       ++ print_generics generics ++ print_where wc
       ++ (if negb (punctuated_is_empty bounds) then [TPunct ":"] ++ print_bounds bounds else [])
       ++ [TPunct ";"]).

Definition semi_opt (b : bool) : option unit := if b then Some tt else None.

(** [impl Parse for ItemStruct]. *)
Definition parse_item_struct : Parser ItemStruct :=
  attrs <- parse_outer ;;
  vis <- parse_visibility ;;
  _ <- kw "struct" ;;
  ident <- parse_ident ;;
  generics <- parse_generics ;;
  d <- data_struct ;;
  let '(wc, fields, semi) := d in
  ret (mkItemStruct attrs vis ident (with_where generics wc) fields (semi_opt semi)).

(** [impl Parse for ItemEnum]. *)
Definition parse_item_enum : Parser ItemEnum :=
  attrs <- parse_outer ;;
  vis <- parse_visibility ;;
  _ <- kw "enum" ;;
  ident <- parse_ident ;;
  generics <- parse_generics ;;
  d <- data_enum ;;
  ret (mkItemEnum attrs vis ident (with_where generics (fst d)) (snd d)).

(** [impl Parse for ItemUnion]. *)
Definition parse_item_union : Parser ItemUnion :=
  attrs <- parse_outer ;;
  vis <- parse_visibility ;;
  _ <- kw "union" ;;
  ident <- parse_ident ;;
  generics <- parse_generics ;;
  d <- data_union ;;
  ret (mkItemUnion attrs vis ident (with_where generics (fst d)) (snd d)).

(** [impl Parse for TraitItemConst]. *)
Definition parse_trait_item_const : Parser TraitItemConst :=
  attrs <- parse_outer ;;
  _ <- kw "const" ;;
  ident <- parse_ident ;;
  _ <- punct ":" ;;
  ty <- parse_type ;;
  default <- (fun ts => if peek (PPunct "=") ts then (_ <- punct "=" ;; fmap Some parse_expr) ts
                        else Ok None ts) ;;
  _ <- punct ";" ;;
  ret (mkTraitItemConst attrs ident ty default).

(** [impl Parse for TraitItemMethod]. *)
Definition parse_trait_item_method : Parser TraitItemMethod :=
  outer_attrs <- parse_outer ;;
  constness <- opt_token (PKw "const") ;;
  asyncness <- opt_token (PKw "async") ;;
  unsafety <- opt_token (PKw "unsafe") ;;
  abi <- parse_opt_abi ;;
  _ <- kw "fn" ;;
  ident <- parse_ident ;;
  generics <- parse_generics ;;
  inputs <- parse_fn_inputs ;;
  output <- parse_return_type ;;
  where_clause <- parse_opt_where ;;
  body <- (fun input =>
    let la := lookahead1 input in
    let '(b, la) := la_peek (PGroup Brace) la in
    if b then fmap (fun b => (Some (mkBlock (snd b)), fst b, false)) parse_body input else
    let '(b, la) := la_peek (PPunct ";") la in
    if b then fmap (fun _ => (None, [], true)) (punct ";") input
    else Err (la_error la)) ;;
  let '(default, inner_attrs, semi) := body in
  ret (mkTraitItemMethod (private_attrs outer_attrs inner_attrs)
         (mkSignature constness asyncness unsafety abi ident
            (with_where generics where_clause) inputs None output)
         default semi).

(** [impl Parse for TraitItemType]. *)
Definition parse_trait_item_type : Parser TraitItemType :=
  attrs <- parse_outer ;;
  _ <- kw "type" ;;
  ident <- parse_ident ;;
  generics <- parse_generics ;;
  colon <- opt_token (PPunct ":") ;;
  bounds <- (if colon
             then plus_bounds (fun ts => peek (PKw "where") ts || peek (PPunct "=") ts
                                         || peek (PPunct ";") ts)
             else ret punctuated_new) ;;
  wc <- parse_opt_where ;;
  default <- (fun ts => if peek (PPunct "=") ts then (_ <- punct "=" ;; fmap Some parse_type) ts
                        else Ok None ts) ;;
  _ <- punct ";" ;;
  ret (mkTraitItemType attrs ident (with_where generics wc) colon bounds default).

Definition parse_trait_item_macro : Parser TraitItemMacro :=
  attrs <- parse_outer ;;
  ms <- parse_mac_semi ;;
  ret (mkTraitItemMacro attrs (fst ms) (snd ms)).

Definition trait_item_attrs (it : TraitItem) : list Attribute :=
  match it with
  | TraitItem_Const i => trait_const_attrs i
  | TraitItem_Method i => trait_method_attrs i
  | TraitItem_Type i => trait_type_attrs i
  | TraitItem_Macro i => trait_macro_attrs i
  | TraitItem_Verbatim _ => []
  end.

Definition trait_item_set_attrs (it : TraitItem) (a : list Attribute) : TraitItem :=
  match it with
  | TraitItem_Const i =>
      TraitItem_Const (mkTraitItemConst a (trait_const_ident i) (trait_const_ty i) (trait_const_default i))
  | TraitItem_Method i =>
      TraitItem_Method (mkTraitItemMethod a (trait_method_sig i) (trait_method_default i)
                          (trait_method_semi i))
  | TraitItem_Type i =>
      TraitItem_Type (mkTraitItemType a (trait_type_ident i) (trait_type_generics i)
                        (trait_type_colon i) (trait_type_bounds i) (trait_type_default i))
  | TraitItem_Macro i => TraitItem_Macro (mkTraitItemMacro a (trait_macro_mac i) (trait_macro_semi i))
  | TraitItem_Verbatim ts => TraitItem_Verbatim ts
  end.

Definition fn_start : list Peek := [PKw "async"; PKw "unsafe"; PKw "extern"; PKw "fn"].

(** [impl Parse for TraitItem]. *)
Definition parse_trait_item : Parser TraitItem :=
  fun input =>
    match parse_outer input with
    | Err e => Err e
    | Ok attrs input =>
      let ahead := input in
      let la := lookahead1 ahead in
      let item :=
        let '(b, la) := la_peek (PKw "const") la in
        if b then
          match kw "const" ahead with
          | Err e => Err e
          | Ok _ ahead =>
            let la := lookahead1 ahead in
            let '(b, la) := la_peek PIdent la in
            if b then fmap TraitItem_Const parse_trait_item_const input else
            let '(b, la) := la_peek_any fn_start la in
            if b then fmap TraitItem_Method parse_trait_item_method input
            else Err (la_error la)
          end
        else
        let '(b, la) := la_peek_any fn_start la in
        if b then fmap TraitItem_Method parse_trait_item_method input else
        let '(b, la) := la_peek (PKw "type") la in
        if b then fmap TraitItem_Type parse_trait_item_type input else
        let '(b, la) := la_peek_any macro_start la in
        if b then fmap TraitItem_Macro parse_trait_item_macro input
        else Err (la_error la) in
      match item with
      | Err e => Err e
      | Ok it r => Ok (trait_item_set_attrs it (attrs ++ trait_item_attrs it)) r
      end
    end.

(** The supertrait loop of [parse_rest_of_trait]: a first bound is always
    read; the loop ends before [where] or a brace. *)
Definition trait_body_stop (ts : TokenStream) : bool :=
  peek (PKw "where") ts || peek (PGroup Brace) ts.

Definition parse_supertraits : Parser (Punctuated TypeParamBound) :=
  fun ts =>
    match parse_bound ts with
    | Err e => Err e
    | Ok v r =>
      let acc := push_value punctuated_new v in
      if trait_body_stop r then Ok acc r else
      match punct "+" r with
      | Err e => Err e
      | Ok _ r' =>
          sep_loop_go (length r') trait_body_stop (fun x => negb (trait_body_stop x))
            parse_bound (punct "+") (push_punct acc) r'
      end
    end.

(** [parse_rest_of_trait]. *)
Definition parse_rest_of_trait (attrs : list Attribute) (vis : Visibility) (unsafety auto : bool)
    (ident : string) (generics : Generics) : Parser ItemTrait :=
  colon <- opt_token (PPunct ":") ;;
  supertraits <- (if colon then parse_supertraits else ret punctuated_new) ;;
  wc <- parse_opt_where ;;
  items <- in_group Brace (many_while (fun ts => negb (is_empty ts)) parse_trait_item) ;;
  ret (mkItemTrait attrs vis unsafety auto ident (with_where generics wc) colon supertraits items).

(** [impl Parse for ItemTrait]. *)
Definition parse_item_trait : Parser ItemTrait :=
  attrs <- parse_outer ;;
  vis <- parse_visibility ;;
  unsafety <- opt_token (PKw "unsafe") ;;
  auto <- opt_token (PKw "auto") ;;
  _ <- kw "trait" ;;
  ident <- parse_ident ;;
  generics <- parse_generics ;;
  parse_rest_of_trait attrs vis unsafety auto ident generics.

(** [parse_start_of_trait_alias]. *)
Definition parse_start_of_trait_alias
    : Parser (list Attribute * Visibility * string * Generics) :=
  attrs <- parse_outer ;;
  vis <- parse_visibility ;;
  _ <- kw "trait" ;;
  ident <- parse_ident ;;
  generics <- parse_generics ;;
  ret (attrs, vis, ident, generics).

(** [parse_rest_of_trait_alias]. *)
Definition parse_rest_of_trait_alias (attrs : list Attribute) (vis : Visibility)
    (ident : string) (generics : Generics) : Parser ItemTraitAlias :=
  _ <- punct "=" ;;
  bounds <- sep_loop (fun ts => peek (PKw "where") ts || peek (PPunct ";") ts)
              (fun ts => negb (peek (PKw "where") ts || peek (PPunct ";") ts))
              parse_bound (punct "+") ;;
  wc <- parse_opt_where ;;
  _ <- punct ";" ;;
  ret (mkItemTraitAlias attrs vis ident (with_where generics wc) bounds).

(** [parse_trait_or_trait_alias]. *)
Definition parse_trait_or_trait_alias : Parser Item :=
  start <- parse_start_of_trait_alias ;;
  let '(attrs, vis, ident, generics) := start in
  fun input =>
    let la := lookahead1 input in
    let '(b, la) := la_peek_any [PGroup Brace; PPunct ":"; PKw "where"] la in
    if b then fmap Item_Trait (parse_rest_of_trait attrs vis false false ident generics) input else
    let '(b, la) := la_peek (PPunct "=") la in
    if b then fmap Item_TraitAlias (parse_rest_of_trait_alias attrs vis ident generics) input
    else Err (la_error la).

(** [impl Parse for ImplItemConst]. *)
Definition parse_impl_item_const : Parser ImplItemConst :=
  attrs <- parse_outer ;;
  vis <- parse_visibility ;;
  defaultness <- opt_token (PKw "default") ;;
  _ <- kw "const" ;;
  ident <- parse_ident ;;
  _ <- punct ":" ;;
  ty <- parse_type ;;
  _ <- punct "=" ;;
  expr <- parse_expr ;;
  _ <- punct ";" ;;
  ret (mkImplItemConst attrs vis defaultness ident ty expr).

(** [impl Parse for ImplItemMethod]. *)
Definition parse_impl_item_method : Parser ImplItemMethod :=
  outer_attrs <- parse_outer ;;
  vis <- parse_visibility ;;
  defaultness <- opt_token (PKw "default") ;;
  constness <- opt_token (PKw "const") ;;
  asyncness <- opt_token (PKw "async") ;;
  unsafety <- opt_token (PKw "unsafe") ;;
  abi <- parse_opt_abi ;;
  _ <- kw "fn" ;;
  ident <- parse_ident ;;
  generics <- parse_generics ;;
  inputs <- parse_fn_inputs ;;
  output <- parse_return_type ;;
  where_clause <- parse_opt_where ;;
  body <- parse_body ;;
  ret (mkImplItemMethod (private_attrs outer_attrs (fst body)) vis defaultness
         (mkSignature constness asyncness unsafety abi ident
            (with_where generics where_clause) inputs None output)
         (mkBlock (snd body))).

(** [impl Parse for ImplItemType]. *)
Definition parse_impl_item_type : Parser ImplItemType :=
  attrs <- parse_outer ;;
  vis <- parse_visibility ;;
  defaultness <- opt_token (PKw "default") ;;
  _ <- kw "type" ;;
  ident <- parse_ident ;;
  generics <- parse_generics ;;
  wc <- parse_opt_where ;;
  _ <- punct "=" ;;
  ty <- parse_type ;;
  _ <- punct ";" ;;
  ret (mkImplItemType attrs vis defaultness ident (with_where generics wc) ty).

Definition parse_impl_item_macro : Parser ImplItemMacro :=
  attrs <- parse_outer ;;
  ms <- parse_mac_semi ;;
  ret (mkImplItemMacro attrs (fst ms) (snd ms)).

Definition impl_item_set_attrs (it : ImplItem) (a : list Attribute) : ImplItem :=
  match it with
  | ImplItem_Const i =>
      ImplItem_Const (mkImplItemConst (a ++ impl_const_attrs i) (impl_const_vis i)
        (impl_const_defaultness i) (impl_const_ident i) (impl_const_ty i) (impl_const_expr i))
  | ImplItem_Method i =>
      ImplItem_Method (mkImplItemMethod (a ++ impl_method_attrs i) (impl_method_vis i)
        (impl_method_defaultness i) (impl_method_sig i) (impl_method_block i))
  | ImplItem_Type i =>
      ImplItem_Type (mkImplItemType (a ++ impl_type_attrs i) (impl_type_vis i)
        (impl_type_defaultness i) (impl_type_ident i) (impl_type_generics i) (impl_type_ty i))
  | ImplItem_Macro i =>
      ImplItem_Macro (mkImplItemMacro (a ++ impl_macro_attrs i) (impl_macro_mac i)
        (impl_macro_semi i))
  | ImplItem_Verbatim ts => ImplItem_Verbatim ts
  end.

(** [impl Parse for ImplItem]; the [Verbatim] case returns before the
    attributes are reattached. *)
Definition parse_impl_item : Parser ImplItem :=
  fun input =>
    match parse_outer input with
    | Err e => Err e
    | Ok attrs input =>
      match parse_visibility input with
      | Err e => Err e
      | Ok vis ahead =>
        let la := lookahead1 ahead in
        let '(bd, la) := la_peek (PKw "default") la in
        let defaultness := bd && negb (peek2 (PPunct "!") ahead) in
        let '(ahead, la) := if defaultness then (tl ahead, lookahead1 (tl ahead)) else (ahead, la) in
        let item :=
          let '(b, la) := la_peek (PKw "const") la in
          if b then
            match kw "const" ahead with
            | Err e => Err e
            | Ok _ ahead =>
              let la := lookahead1 ahead in
              let '(b, la) := la_peek PIdent la in
              if b then fmap ImplItem_Const parse_impl_item_const input else
              let '(b, la) := la_peek_any [PKw "unsafe"; PKw "async"; PKw "extern"; PKw "fn"] la in
              if b then fmap ImplItem_Method parse_impl_item_method input
              else Err (la_error la)
            end
          else
          let '(b, la) := la_peek_any [PKw "unsafe"; PKw "async"; PKw "extern"; PKw "fn"] la in
          if b then fmap ImplItem_Method parse_impl_item_method input else
          let '(b, la) := la_peek (PKw "type") la in
          if b then fmap ImplItem_Type parse_impl_item_type input else
          let '(b, la) := if is_inherited vis && negb defaultness
                          then la_peek (PKw "existential") la else (false, la) in
          if b then fmap ImplItem_Verbatim item_existential input else
          let '(b, la) := if is_inherited vis && negb defaultness
                          then la_peek_any macro_start la else (false, la) in
          if b then fmap ImplItem_Macro parse_impl_item_macro input
          else Err (la_error la) in
        match item with
        | Err e => Err e
        | Ok (ImplItem_Verbatim ts) r => Ok (ImplItem_Verbatim ts) r
        | Ok it r => Ok (impl_item_set_attrs it attrs) r
        end
      end
    end.

(** [has_generics] in [impl Parse for ItemImpl]. *)
Definition has_generics (ts : TokenStream) : bool :=
  peek (PPunct "<") ts
  && (peek2 (PPunct ">") ts || peek2 (PPunct "#") ts
      || (peek2 PIdent ts || peek2 PLifetime ts)
         && (peek3 (PPunct ":") ts || peek3 (PPunct ",") ts || peek3 (PPunct ">") ts)).

Definition parse_trait_ref : Parser (bool * Path) :=
  polarity <- opt_token (PPunct "!") ;;
  path <- parse_path ;;
  _ <- kw "for" ;;
  ret (polarity, path).

Definition is_ok {A} (r : PResult A) : bool :=
  match r with Ok _ _ => true | Err _ => false end.

(** [impl Parse for ItemImpl]. *)
Definition parse_item_impl : Parser ItemImpl :=
  outer_attrs <- parse_outer ;;
  defaultness <- opt_token (PKw "default") ;;
  unsafety <- opt_token (PKw "unsafe") ;;
  _ <- kw "impl" ;;
  generics <- (fun ts => if has_generics ts then parse_generics ts else Ok generics_default ts) ;;
  trait_ <- (fun ts => if is_ok (parse_trait_ref ts) then fmap Some parse_trait_ref ts
                       else Ok None ts) ;;
  self_ty <- parse_type ;;
  where_clause <- parse_opt_where ;;
  body <- in_group Brace
            (inner_attrs <- parse_inner ;;
             items <- many_while (fun ts => negb (is_empty ts)) parse_impl_item ;;
             ret (inner_attrs, items)) ;;
  ret (mkItemImpl (private_attrs outer_attrs (fst body)) defaultness unsafety
         (with_where generics where_clause) trait_ self_ty (snd body)).

(** [impl Parse for ItemMacro]. *)
Definition parse_item_macro : Parser ItemMacro :=
  attrs <- parse_outer ;;
  path <- parse_mod_style ;;
  _ <- punct "!" ;;
  ident <- opt_ident ;;
  dt <- parse_delimiter ;;
  semi <- (fun ts => if negb (is_brace (fst dt)) then fmap (fun _ => true) (punct ";") ts
                     else Ok false ts) ;;
  ret (mkItemMacro attrs ident (mkMacro path (fst dt) (snd dt)) semi).

(** [impl Parse for ItemMacro2]. *)
Definition parse_item_macro2 : Parser ItemMacro2 :=
  attrs <- parse_outer ;;
  vis <- parse_visibility ;;
  _ <- kw "macro" ;;
  ident <- parse_ident ;;
  fun input =>
    let la := lookahead1 input in
    let '(bp, la) := la_peek (PGroup Parenthesis) la in
    match (if bp then fmap (fun a => [TGroup Parenthesis a]) (in_group Parenthesis parse_rest_tokens) input
           else Ok [] input) with
    | Err e => Err e
    | Ok rules r =>
      let la := if bp then lookahead1 r else la in
      let '(bb, la) := la_peek (PGroup Brace) la in
      if bb then
        fmap (fun body => mkItemMacro2 attrs vis ident (rules ++ [TGroup Brace body]))
          (in_group Brace parse_rest_tokens) r
      else Err (la_error la)
    end.

(** [attrs.extend(item_attrs.drain(..)); *item_attrs = attrs] in
    [impl Parse for Item]: the attributes read before the dispatch come
    first.  [Verbatim] returns before this step. *)
Definition item_prepend_attrs (a : list Attribute) (it : Item) : Item :=
  match it with
  | Item_Const i => Item_Const (mkItemConst (a ++ const_attrs i) (const_vis i) (const_ident i)
                                  (const_ty i) (const_expr i))
  | Item_Enum i => Item_Enum (mkItemEnum (a ++ enum_attrs i) (enum_vis i) (enum_ident i)
                                (enum_generics i) (variants i))
  | Item_ExternCrate i =>
      Item_ExternCrate (mkItemExternCrate (a ++ extern_crate_attrs i) (extern_crate_vis i)
                          (extern_crate_ident i) (rename i))
  | Item_Fn i => Item_Fn (mkItemFn (a ++ fn_attrs i) (fn_vis i) (sig i) (block i))
  | Item_ForeignMod i =>
      Item_ForeignMod (mkItemForeignMod (a ++ foreign_mod_attrs i) (foreign_mod_abi i)
                         (foreign_mod_items i))
  | Item_Impl i => Item_Impl (mkItemImpl (a ++ impl_attrs i) (defaultness i) (impl_unsafety i)
                                (impl_generics i) (trait_ i) (self_ty i) (impl_items i))
  | Item_Macro i => Item_Macro (mkItemMacro (a ++ macro_attrs i) (macro_ident i) (mac i) (macro_semi i))
  | Item_Macro2 i => Item_Macro2 (mkItemMacro2 (a ++ macro2_attrs i) (macro2_vis i)
                                    (macro2_ident i) (rules i))
  | Item_Mod (mkItemMod ats v id c s) => Item_Mod (mkItemMod (a ++ ats) v id c s)
  | Item_Static i => Item_Static (mkItemStatic (a ++ static_attrs i) (static_vis i)
                                    (static_mutability i) (static_ident i) (static_ty i)
                                    (static_expr i))
  | Item_Struct i => Item_Struct (mkItemStruct (a ++ struct_attrs i) (struct_vis i)
                                    (struct_ident i) (struct_generics i) (struct_fields i)
                                    (struct_semi_token i))
  | Item_Trait i => Item_Trait (mkItemTrait (a ++ trait_attrs i) (trait_vis i) (trait_unsafety i)
                                  (auto_token i) (trait_ident i) (trait_generics i)
                                  (trait_colon i) (supertraits i) (trait_items i))
  | Item_TraitAlias i =>
      Item_TraitAlias (mkItemTraitAlias (a ++ trait_alias_attrs i) (trait_alias_vis i)
                         (trait_alias_ident i) (trait_alias_generics i) (trait_alias_bounds i))
  | Item_Type i => Item_Type (mkItemType (a ++ type_attrs i) (type_vis i) (type_ident i)
                                (type_generics i) (type_ty i))
  | Item_Union i => Item_Union (mkItemUnion (a ++ union_attrs i) (union_vis i) (union_ident i)
                                  (union_generics i) (union_fields i))
  | Item_Use i => Item_Use (mkItemUse (a ++ use_attrs i) (use_vis i) (use_leading_colon i)
                              (use_tree i))
  | Item_Verbatim ts => Item_Verbatim ts
  end.

(** The [attrs] field of each variant (none for [Item::Verbatim]). *)
Definition item_attrs (it : Item) : list Attribute :=
  match it with
  | Item_Const i => const_attrs i
  | Item_Enum i => enum_attrs i
  | Item_ExternCrate i => extern_crate_attrs i
  | Item_Fn i => fn_attrs i
  | Item_ForeignMod i => foreign_mod_attrs i
  | Item_Impl i => impl_attrs i
  | Item_Macro i => macro_attrs i
  | Item_Macro2 i => macro2_attrs i
  | Item_Mod (mkItemMod ats _ _ _ _) => ats
  | Item_Static i => static_attrs i
  | Item_Struct i => struct_attrs i
  | Item_Trait i => trait_attrs i
  | Item_TraitAlias i => trait_alias_attrs i
  | Item_Type i => type_attrs i
  | Item_Union i => union_attrs i
  | Item_Use i => use_attrs i
  | Item_Verbatim _ => []
  end.

(** The variants whose syntax has a braced body read with
    [Attribute::parse_inner]. *)
Definition has_inner_body (it : Item) : bool :=
  match it with
  | Item_Fn _ | Item_ForeignMod _ | Item_Impl _ => true
  | Item_Mod (mkItemMod _ _ _ (Some _) _) => true
  | _ => false
  end.

(** The dispatch of [impl Parse for Item], after the outer attributes:
    [input] is the stream after them, [ahead] a fork past the visibility.
    [parse_item] parses items nested in a module body. *)
Definition item_dispatch (parse_item : Parser Item) (vis : Visibility) (input ahead : TokenStream)
    : PResult Item :=
  let la := lookahead1 ahead in
  let '(b, la) := la_peek (PKw "extern") la in
  if b then
    match kw "extern" ahead with
    | Err e => Err e
    | Ok _ ahead =>
      let la := lookahead1 ahead in
      let '(b, la) := la_peek (PKw "crate") la in
      if b then fmap Item_ExternCrate parse_item_extern_crate input else
      let '(b, la) := la_peek (PKw "fn") la in
      if b then fmap Item_Fn parse_item_fn input else
      let '(b, la) := la_peek (PGroup Brace) la in
      if b then fmap Item_ForeignMod parse_item_foreign_mod input else
      let '(b, la) := la_peek PLitStr la in
      if b then
        match parse_lit_str ahead with
        | Err e => Err e
        | Ok _ ahead =>
          let la := lookahead1 ahead in
          let '(b, la) := la_peek (PGroup Brace) la in
          if b then fmap Item_ForeignMod parse_item_foreign_mod input else
          let '(b, la) := la_peek (PKw "fn") la in
          if b then fmap Item_Fn parse_item_fn input
          else Err (la_error la)
        end
      else Err (la_error la)
    end
  else
  let '(b, la) := la_peek (PKw "use") la in
  if b then fmap Item_Use parse_item_use input else
  let '(b, la) := la_peek (PKw "static") la in
  if b then fmap Item_Static parse_item_static input else
  let '(b, la) := la_peek (PKw "const") la in
  if b then
    match kw "const" ahead with
    | Err e => Err e
    | Ok _ ahead =>
      let la := lookahead1 ahead in
      let '(b, la) := la_peek_any [PIdent; PKw "_"] la in
      if b then fmap Item_Const parse_item_const input else
      let '(b, la) := la_peek_any [PKw "unsafe"; PKw "async"; PKw "extern"; PKw "fn"] la in
      if b then fmap Item_Fn parse_item_fn input
      else Err (la_error la)
    end
  else
  let '(b, la) := la_peek (PKw "unsafe") la in
  if b then
    match kw "unsafe" ahead with
    | Err e => Err e
    | Ok _ ahead =>
      let la := lookahead1 ahead in
      let '(b1, la) := la_peek (PKw "trait") la in
      let '(b, la) := if b1 then (true, la)
                      else let '(b2, la) := la_peek (PKw "auto") la in
                           (b2 && peek2 (PKw "trait") ahead, la) in
      if b then fmap Item_Trait parse_item_trait input else
      let '(b, la) := la_peek (PKw "impl") la in
      if b then fmap Item_Impl parse_item_impl input else
      let '(b, la) := la_peek_any [PKw "async"; PKw "extern"; PKw "fn"] la in
      if b then fmap Item_Fn parse_item_fn input
      else Err (la_error la)
    end
  else
  let '(b, la) := la_peek_any [PKw "async"; PKw "fn"] la in
  if b then fmap Item_Fn parse_item_fn input else
  let '(b, la) := la_peek (PKw "mod") la in
  if b then fmap Item_Mod (parse_item_mod parse_item) input else
  let '(b, la) := la_peek (PKw "type") la in
  if b then fmap Item_Type parse_item_type input else
  let '(b, la) := la_peek (PKw "existential") la in
  if b then fmap Item_Verbatim item_existential input else
  let '(b, la) := la_peek (PKw "struct") la in
  if b then fmap Item_Struct parse_item_struct input else
  let '(b, la) := la_peek (PKw "enum") la in
  if b then fmap Item_Enum parse_item_enum input else
  let '(b, la) := la_peek (PKw "union") la in
  if b && peek2 PIdent ahead then fmap Item_Union parse_item_union input else
  let '(b, la) := la_peek (PKw "trait") la in
  if b then parse_trait_or_trait_alias input else
  let '(b, la) := la_peek (PKw "auto") la in
  if b && peek2 (PKw "trait") ahead then fmap Item_Trait parse_item_trait input else
  let '(b1, la) := la_peek (PKw "impl") la in
  let '(b, la) := if b1 then (true, la)
                  else let '(b2, la) := la_peek (PKw "default") la in
                       (b2 && negb (peek2 (PPunct "!") ahead), la) in
  if b then fmap Item_Impl parse_item_impl input else
  let '(b, la) := la_peek (PKw "macro") la in
  if b then fmap Item_Macro2 parse_item_macro2 input else
  let '(b, la) := if is_inherited vis then la_peek_any macro_start la else (false, la) in
  if b then fmap Item_Macro parse_item_macro input
  else Err (la_error la).

(** The keywords that [Item::parse] tries, in order, on the token after
    the visibility; each failed [lookahead.peek] records its display. *)
Definition item_keywords : list Peek :=
  [PKw "extern"; PKw "use"; PKw "static"; PKw "const"; PKw "unsafe"; PKw "async"; PKw "fn";
   PKw "mod"; PKw "type"; PKw "existential"; PKw "struct"; PKw "enum"; PKw "union";
   PKw "trait"; PKw "auto"; PKw "impl"; PKw "default"; PKw "macro"].

(** [impl Parse for Item]. *)
Definition parse_item_with (parse_item : Parser Item) : Parser Item :=
  fun input =>
    match parse_outer input with
    | Err e => Err e
    | Ok attrs input =>
      match parse_visibility input with
      | Err e => Err e
      | Ok vis ahead =>
        match item_dispatch parse_item vis input ahead with
        | Err e => Err e
        | Ok (Item_Verbatim ts) r => Ok (Item_Verbatim ts) r
        | Ok it r => Ok (item_prepend_attrs attrs it) r
        end
      end
    end.

(** Items nest through module bodies; each level is inside a brace group,
    so the size of the input bounds the depth. *)
Fixpoint parse_item_f (n : nat) : Parser Item :=
  match n with
  | O => fail (Msg "recursion limit")
  | S n' => parse_item_with (parse_item_f n')
  end.

Definition parse_item : Parser Item := fun ts => parse_item_f (S (ts_size ts)) ts.

(* ------------------------------------------------------------------ *)
(** ** Printing (the [printing] modules: [ToTokens] impls) *)

Definition print_opt_unit (o : option unit) (t : TokenStream) : TokenStream :=
  match o with Some _ => t | None => [] end.

(** [impl ToTokens for PartialBorrow] and [PartialBorrows]. *)
Definition print_partial_borrow (b : PartialBorrow) : TokenStream :=
  print_flag (pb_mutability b) [TIdent "mut"] ++ [TIdent (pb_ident b)].

Definition print_partial_borrows (p : PartialBorrows) : TokenStream :=
  [TGroup Brace (print_punctuated print_partial_borrow [TPunct ","] (borrows p))].

(** [impl ToTokens for Receiver]. *)
Definition print_receiver (r : Receiver) : TokenStream :=
  print_attrs (attrs_outer (receiver_attrs r))
  ++ match reference r with
     | Reference_None m => print_opt_unit m [TIdent "mut"] ++ [TIdent "self"]
     | Reference_Partial pbs => [TIdent "self"; TPunct "."] ++ print_partial_borrows pbs
     | Reference_Full lt m =>
         [TPunct "&"] ++ print_opt_lifetime lt ++ print_opt_unit m [TIdent "mut"] ++ [TIdent "self"]
     end.

(** [impl ToTokens for PatType]. *)
Definition print_pat_type (p : PatType) : TokenStream :=
  print_attrs (attrs_outer (pat_type_attrs p)) ++ print_pat (pat p) ++ [TPunct ":"]
  ++ print_ty (pat_ty p).

Definition print_fn_arg (a : FnArg) : TokenStream :=
  match a with
  | FnArg_Receiver r => print_receiver r
  | FnArg_Typed p => print_pat_type p
  end.

(** [impl ToTokens for Variadic]. *)
Definition print_variadic (v : Variadic) : TokenStream :=
  print_attrs (attrs_outer (variadic_attrs v)) ++ dot3_tokens.

(** [tokens.to_string() == "..."]. *)
Definition is_dot3 (ts : TokenStream) : bool :=
  match ts with [TPunct "."; TPunct "."; TPunct "."] => true | _ => false end.

(** [has_variadic]: the last argument's type is the verbatim [...]. *)
Definition has_variadic (inputs : Punctuated FnArg) : bool :=
  match punctuated_last inputs with
  | Some (FnArg_Typed p) =>
      match pat_ty p with TyVerbatim ts => is_dot3 ts | _ => false end
  | _ => false
  end.

(** [impl ToTokens for Signature]. *)
Definition print_signature (s : Signature) : TokenStream :=
  print_flag (constness s) [TIdent "const"] ++ print_flag (asyncness s) [TIdent "async"]
  ++ print_flag (unsafety s) [TIdent "unsafe"] ++ print_opt_abi (abi s)
  ++ [TIdent "fn"; TIdent (sig_ident s)] ++ print_generics (sig_generics s)
  ++ [TGroup Parenthesis
        (print_punctuated print_fn_arg [TPunct ","] (inputs s)
         ++ match variadic s with
            | Some v =>
                if negb (has_variadic (inputs s)) then
                  (if negb (empty_or_trailing (inputs s)) then [TPunct ","] else [])
                  ++ print_variadic v
                else []
            | None => []
            end)]
  ++ print_return_type (output s) ++ print_where (where_clause (sig_generics s)).

(** A brace-delimited body: the inner attributes, then the content. *)
Definition print_body (attrs : list Attribute) (content : TokenStream) : TokenStream :=
  [TGroup Brace (print_attrs (attrs_inner attrs) ++ content)].

Definition print_item_extern_crate (i : ItemExternCrate) : TokenStream :=
  print_attrs (attrs_outer (extern_crate_attrs i)) ++ print_visibility (extern_crate_vis i)
  ++ [TIdent "extern"; TIdent "crate"; TIdent (extern_crate_ident i)]
  ++ match rename i with Some r => [TIdent "as"; TIdent r] | None => [] end
  ++ [TPunct ";"].

Fixpoint print_use_tree (t : UseTree) : TokenStream :=
  match t with
  | UseTree_Path i t => [TIdent i; TPunct ":"; TPunct ":"] ++ print_use_tree t
  | UseTree_Name i => [TIdent i]
  | UseTree_Rename i r => [TIdent i; TIdent "as"; TIdent r]
  | UseTree_Glob => [TPunct "*"]
  | UseTree_Group items => [TGroup Brace (print_punctuated print_use_tree [TPunct ","] items)]
  end.

Definition print_item_use (i : ItemUse) : TokenStream :=
  print_attrs (attrs_outer (use_attrs i)) ++ print_visibility (use_vis i) ++ [TIdent "use"]
  ++ print_flag (use_leading_colon i) [TPunct ":"; TPunct ":"] ++ print_use_tree (use_tree i)
  ++ [TPunct ";"].

Definition print_item_static (i : ItemStatic) : TokenStream :=
  print_attrs (attrs_outer (static_attrs i)) ++ print_visibility (static_vis i)
  ++ [TIdent "static"] ++ print_flag (static_mutability i) [TIdent "mut"]
  ++ [TIdent (static_ident i); TPunct ":"] ++ print_ty (static_ty i) ++ [TPunct "="]
  ++ print_expr (static_expr i) ++ [TPunct ";"].

Definition print_item_const (i : ItemConst) : TokenStream :=
  print_attrs (attrs_outer (const_attrs i)) ++ print_visibility (const_vis i)
  ++ [TIdent "const"; TIdent (const_ident i); TPunct ":"] ++ print_ty (const_ty i)
  ++ [TPunct "="] ++ print_expr (const_expr i) ++ [TPunct ";"].

Definition print_item_fn (i : ItemFn) : TokenStream :=
  print_attrs (attrs_outer (fn_attrs i)) ++ print_visibility (fn_vis i)
  ++ print_signature (sig i) ++ print_body (fn_attrs i) (stmts (block i)).

Definition print_foreign_item (it : ForeignItem) : TokenStream :=
  match it with
  | ForeignItem_Fn i =>
      print_attrs (attrs_outer (foreign_fn_attrs i)) ++ print_visibility (foreign_fn_vis i)
      ++ print_signature (foreign_fn_sig i) ++ [TPunct ";"]
  | ForeignItem_Static i =>
      print_attrs (attrs_outer (foreign_static_attrs i)) ++ print_visibility (foreign_static_vis i)
      ++ [TIdent "static"] ++ print_flag (foreign_static_mutability i) [TIdent "mut"]
      ++ [TIdent (foreign_static_ident i); TPunct ":"] ++ print_ty (foreign_static_ty i)
      ++ [TPunct ";"]
  | ForeignItem_Type i =>
      print_attrs (attrs_outer (foreign_type_attrs i)) ++ print_visibility (foreign_type_vis i)
      ++ [TIdent "type"; TIdent (foreign_type_ident i); TPunct ";"]
  | ForeignItem_Macro i =>
      print_attrs (attrs_outer (foreign_macro_attrs i)) ++ print_macro (foreign_macro_mac i)
      ++ print_flag (foreign_macro_semi i) [TPunct ";"]
  | ForeignItem_Verbatim ts => ts
  end.

Definition print_item_foreign_mod (i : ItemForeignMod) : TokenStream :=
  print_attrs (attrs_outer (foreign_mod_attrs i)) ++ print_abi (foreign_mod_abi i)
  ++ print_body (foreign_mod_attrs i) (flat_map print_foreign_item (foreign_mod_items i)).

Definition print_item_type (i : ItemType) : TokenStream :=
  print_attrs (attrs_outer (type_attrs i)) ++ print_visibility (type_vis i)
  ++ [TIdent "type"; TIdent (type_ident i)] ++ print_generics (type_generics i)
  ++ print_where (where_clause (type_generics i)) ++ [TPunct "="] ++ print_ty (type_ty i)
  ++ [TPunct ";"].

Definition print_item_enum (i : ItemEnum) : TokenStream :=
  print_attrs (attrs_outer (enum_attrs i)) ++ print_visibility (enum_vis i)
  ++ [TIdent "enum"; TIdent (enum_ident i)] ++ print_generics (enum_generics i)
  ++ print_where (where_clause (enum_generics i))
  ++ [TGroup Brace (print_punctuated print_variant [TPunct ","] (variants i))].

(** [impl ToTokens for ItemStruct]; [TokensOrDefault] prints [;] whether
    or not the token was parsed. *)
Definition print_item_struct (i : ItemStruct) : TokenStream :=
  print_attrs (attrs_outer (struct_attrs i)) ++ print_visibility (struct_vis i)
  ++ [TIdent "struct"; TIdent (struct_ident i)] ++ print_generics (struct_generics i)
  ++ match struct_fields i with
     | FieldsNamedV f => print_where (where_clause (struct_generics i)) ++ print_fields_named f
     | FieldsUnnamedV f =>
         print_fields_unnamed f ++ print_where (where_clause (struct_generics i)) ++ [TPunct ";"]
     | FieldsUnit => print_where (where_clause (struct_generics i)) ++ [TPunct ";"]
     end.

Definition print_item_union (i : ItemUnion) : TokenStream :=
  print_attrs (attrs_outer (union_attrs i)) ++ print_visibility (union_vis i)
  ++ [TIdent "union"; TIdent (union_ident i)] ++ print_generics (union_generics i)
  ++ print_where (where_clause (union_generics i)) ++ print_fields_named (union_fields i).

Definition print_trait_item (it : TraitItem) : TokenStream :=
  match it with
  | TraitItem_Const i =>
      print_attrs (attrs_outer (trait_const_attrs i))
      ++ [TIdent "const"; TIdent (trait_const_ident i); TPunct ":"] ++ print_ty (trait_const_ty i)
      ++ match trait_const_default i with Some e => [TPunct "="] ++ print_expr e | None => [] end
      ++ [TPunct ";"]
  | TraitItem_Method i =>
      print_attrs (attrs_outer (trait_method_attrs i)) ++ print_signature (trait_method_sig i)
      ++ match trait_method_default i with
         | Some b => print_body (trait_method_attrs i) (stmts b)
         | None => [TPunct ";"]
         end
  | TraitItem_Type i =>
      print_attrs (attrs_outer (trait_type_attrs i))
      ++ [TIdent "type"; TIdent (trait_type_ident i)] ++ print_generics (trait_type_generics i)
      ++ (if negb (punctuated_is_empty (trait_type_bounds i))
          then [TPunct ":"] ++ print_bounds (trait_type_bounds i) else [])
      ++ print_where (where_clause (trait_type_generics i))
      ++ match trait_type_default i with Some t => [TPunct "="] ++ print_ty t | None => [] end
      ++ [TPunct ";"]
  | TraitItem_Macro i =>
      print_attrs (attrs_outer (trait_macro_attrs i)) ++ print_macro (trait_macro_mac i)
      ++ print_flag (trait_macro_semi i) [TPunct ";"]
  | TraitItem_Verbatim ts => ts
  end.

Definition print_item_trait (i : ItemTrait) : TokenStream :=
  print_attrs (attrs_outer (trait_attrs i)) ++ print_visibility (trait_vis i)
  ++ print_flag (trait_unsafety i) [TIdent "unsafe"] ++ print_flag (auto_token i) [TIdent "auto"]
  ++ [TIdent "trait"; TIdent (trait_ident i)] ++ print_generics (trait_generics i)
  ++ (if negb (punctuated_is_empty (supertraits i))
      then [TPunct ":"] ++ print_bounds (supertraits i) else [])
  ++ print_where (where_clause (trait_generics i))
  ++ [TGroup Brace (flat_map print_trait_item (trait_items i))].

Definition print_item_trait_alias (i : ItemTraitAlias) : TokenStream :=
  print_attrs (attrs_outer (trait_alias_attrs i)) ++ print_visibility (trait_alias_vis i)
  ++ [TIdent "trait"; TIdent (trait_alias_ident i)] ++ print_generics (trait_alias_generics i)
  ++ [TPunct "="] ++ print_bounds (trait_alias_bounds i)
  ++ print_where (where_clause (trait_alias_generics i)) ++ [TPunct ";"].

Definition print_impl_item (it : ImplItem) : TokenStream :=
  match it with
  | ImplItem_Const i =>
      print_attrs (attrs_outer (impl_const_attrs i)) ++ print_visibility (impl_const_vis i)
      ++ print_flag (impl_const_defaultness i) [TIdent "default"]
      ++ [TIdent "const"; TIdent (impl_const_ident i); TPunct ":"] ++ print_ty (impl_const_ty i)
      ++ [TPunct "="] ++ print_expr (impl_const_expr i) ++ [TPunct ";"]
  | ImplItem_Method i =>
      print_attrs (attrs_outer (impl_method_attrs i)) ++ print_visibility (impl_method_vis i)
      ++ print_flag (impl_method_defaultness i) [TIdent "default"]
      ++ print_signature (impl_method_sig i)
      ++ print_body (impl_method_attrs i) (stmts (impl_method_block i))
  | ImplItem_Type i =>
      print_attrs (attrs_outer (impl_type_attrs i)) ++ print_visibility (impl_type_vis i)
      ++ print_flag (impl_type_defaultness i) [TIdent "default"]
      ++ [TIdent "type"; TIdent (impl_type_ident i)] ++ print_generics (impl_type_generics i)
      ++ print_where (where_clause (impl_type_generics i)) ++ [TPunct "="]
      ++ print_ty (impl_type_ty i) ++ [TPunct ";"]
  | ImplItem_Macro i =>
      print_attrs (attrs_outer (impl_macro_attrs i)) ++ print_macro (impl_macro_mac i)
      ++ print_flag (impl_macro_semi i) [TPunct ";"]
  | ImplItem_Verbatim ts => ts
  end.

Definition print_item_impl (i : ItemImpl) : TokenStream :=
  print_attrs (attrs_outer (impl_attrs i)) ++ print_flag (defaultness i) [TIdent "default"]
  ++ print_flag (impl_unsafety i) [TIdent "unsafe"] ++ [TIdent "impl"]
  ++ print_generics (impl_generics i)
  ++ match trait_ i with
     | Some (pol, p) => print_flag pol [TPunct "!"] ++ print_path p ++ [TIdent "for"]
     | None => []
     end
  ++ print_ty (self_ty i) ++ print_where (where_clause (impl_generics i))
  ++ print_body (impl_attrs i) (flat_map print_impl_item (impl_items i)).

(** [impl ToTokens for ItemMacro]: path, [!], the optional name, then the
    delimited tokens. *)
Definition print_item_macro (i : ItemMacro) : TokenStream :=
  print_attrs (attrs_outer (macro_attrs i)) ++ print_path (mac_path (mac i)) ++ [TPunct "!"]
  ++ match macro_ident i with Some n => [TIdent n] | None => [] end
  ++ [TGroup (delimiter_of (mac_delimiter (mac i))) (mac_tokens (mac i))]
  ++ print_flag (macro_semi i) [TPunct ";"].

Definition print_item_macro2 (i : ItemMacro2) : TokenStream :=
  print_attrs (attrs_outer (macro2_attrs i)) ++ print_visibility (macro2_vis i)
  ++ [TIdent "macro"; TIdent (macro2_ident i)] ++ rules i.

(** [impl ToTokens for Item] (generated for the enum) and
    [impl ToTokens for ItemMod]. *)
Fixpoint print_item (it : Item) : TokenStream :=
  match it with
  | Item_Const i => print_item_const i
  | Item_Enum i => print_item_enum i
  | Item_ExternCrate i => print_item_extern_crate i
  | Item_Fn i => print_item_fn i
  | Item_ForeignMod i => print_item_foreign_mod i
  | Item_Impl i => print_item_impl i
  | Item_Macro i => print_item_macro i
  | Item_Macro2 i => print_item_macro2 i
  | Item_Mod m => print_item_mod m
  | Item_Static i => print_item_static i
  | Item_Struct i => print_item_struct i
  | Item_Trait i => print_item_trait i
  | Item_TraitAlias i => print_item_trait_alias i
  | Item_Type i => print_item_type i
  | Item_Union i => print_item_union i
  | Item_Use i => print_item_use i
  | Item_Verbatim ts => ts
  end
with print_item_mod (m : ItemMod) : TokenStream :=
  match m with
  | mkItemMod attrs vis ident content _ =>
      print_attrs (attrs_outer attrs) ++ print_visibility vis ++ [TIdent "mod"; TIdent ident]
      ++ match content with
         | Some items => print_body attrs (flat_map print_item items)
         | None => [TPunct ";"]
         end
  end.

(* ------------------------------------------------------------------ *)
(** ** Conversions between [DeriveInput] and [Item] *)

(** Modelled from the spec: [DeriveInput] and [Data] (derive.rs), with the
    fields that item.rs reads and writes; span-only tokens are dropped as
    in the rest of the tree. *)
Record DataStruct := mkDataStruct { data_struct_fields : Fields; data_semi_token : option unit }.
Record DataEnum := mkDataEnum { data_variants : Punctuated Variant }.
Record DataUnion := mkDataUnion { data_union_fields : FieldsNamed }.

Inductive Data :=
| Data_Struct (d : DataStruct)
| Data_Enum (d : DataEnum)
| Data_Union (d : DataUnion).

Record DeriveInput := mkDeriveInput {
  di_attrs : list Attribute; di_vis : Visibility; di_ident : string;
  di_generics : Generics; data : Data }.

(** [impl From<DeriveInput> for Item]. *)
Definition item_from_derive_input (input : DeriveInput) : Item :=
  match data input with
  | Data_Struct d =>
      Item_Struct (mkItemStruct (di_attrs input) (di_vis input) (di_ident input)
                     (di_generics input) (data_struct_fields d) (data_semi_token d))
  | Data_Enum d =>
      Item_Enum (mkItemEnum (di_attrs input) (di_vis input) (di_ident input)
                   (di_generics input) (data_variants d))
  | Data_Union d =>
      Item_Union (mkItemUnion (di_attrs input) (di_vis input) (di_ident input)
                    (di_generics input) (data_union_fields d))
  end.

(** [impl From<ItemStruct> for DeriveInput], and likewise for enums and
    unions. *)
Definition derive_input_from_struct (input : ItemStruct) : DeriveInput :=
  mkDeriveInput (struct_attrs input) (struct_vis input) (struct_ident input)
    (struct_generics input)
    (Data_Struct (mkDataStruct (struct_fields input) (struct_semi_token input))).

Definition derive_input_from_enum (input : ItemEnum) : DeriveInput :=
  mkDeriveInput (enum_attrs input) (enum_vis input) (enum_ident input) (enum_generics input)
    (Data_Enum (mkDataEnum (variants input))).

Definition derive_input_from_union (input : ItemUnion) : DeriveInput :=
  mkDeriveInput (union_attrs input) (union_vis input) (union_ident input)
    (union_generics input) (Data_Union (mkDataUnion (union_fields input))).

(* ------------------------------------------------------------------ *)
(** ** Printed forms used to state the round trip *)

(** The punctuation characters of a [Token![..]] as separate tokens. *)
Fixpoint punct_tokens (s : string) : TokenStream :=
  match s with
  | EmptyString => []
  | String c s' => TPunct c :: punct_tokens s'
  end.

(** The values of a punctuated sequence, in order. *)
Definition punctuated_items {A} (p : Punctuated A) : list A :=
  p_inner p ++ match p_last p with Some a => [a] | None => [] end.

(* ------------------------------------------------------------------ *)
(** ** [Signature::receiver] *)

(** [Punctuated::first]: the first value, separated or last. *)
Definition punctuated_first {A} (p : Punctuated A) : option A :=
  match p_inner p with
  | a :: _ => Some a
  | [] => p_last p
  end.

(** [Signature::receiver]: the first argument when it is a receiver or a
    typed argument whose pattern is the identifier [self]. *)
Definition receiver (s : Signature) : option FnArg :=
  match punctuated_first (inputs s) with
  | None => None
  | Some arg =>
      match arg with
      | FnArg_Receiver _ => Some arg
      | FnArg_Typed (mkPatType _ (PatIdent _ _ ident) _) =>
          if String.eqb ident "self" then Some arg else None
      | FnArg_Typed _ => None
      end
  end.

(* ------------------------------------------------------------------ *)
(** ** Sample inputs *)

Definition tok_const_fn_foo : TokenStream :=
  [TIdent "const"; TIdent "fn"; TIdent "foo"; TGroup Parenthesis []; TGroup Brace []].

Definition tok_const_async_fn : TokenStream :=
  [TIdent "const"; TIdent "async"; TIdent "fn"; TIdent "f"; TGroup Parenthesis []; TGroup Brace []].

Definition tok_union_foo : TokenStream :=
  [TIdent "union"; TIdent "Foo"; TGroup Brace [TIdent "a"; TPunct ":"; TIdent "i32"]].

Definition tok_union_bang : TokenStream :=
  [TIdent "union"; TPunct "!"; TGroup Parenthesis []].

Definition tok_union_bang_semi : TokenStream :=
  [TIdent "union"; TPunct "!"; TGroup Parenthesis []; TPunct ";"].

Definition tok_ref_mut_self : TokenStream := [TPunct "&"; TIdent "mut"; TIdent "self"].

Definition tok_self_box : TokenStream :=
  [TIdent "self"; TPunct ":"; TIdent "Box"; TPunct "<"; TIdent "Self"; TPunct ">"].

Definition tok_self_dot_x : TokenStream := [TIdent "self"; TPunct "."; TIdent "x"].

Definition tok_self_partial : TokenStream :=
  [TIdent "self"; TPunct "."; TGroup Brace [TIdent "mut"; TIdent "a"; TPunct ","; TIdent "b"]].

Definition tok_impure_fn : TokenStream := [TIdent "impure"; TIdent "fn"].

Definition tok_pub_impure_fn : TokenStream := [TIdent "pub"; TIdent "impure"; TIdent "fn"].

Definition tok_attr_pub_existential : TokenStream :=
  [TPunct "#"; TGroup Bracket [TIdent "a"]; TIdent "pub"; TIdent "existential"; TIdent "type";
   TIdent "X"; TPunct ":"; TIdent "T"; TPunct ";"].

(** [trait T { fn f(Vec<u8>); }]: a method with an anonymous parameter
    (Rust 2015). *)
Definition tok_trait_anon_param : TokenStream :=
  [TIdent "trait"; TIdent "T";
   TGroup Brace [TIdent "fn"; TIdent "f";
                 TGroup Parenthesis [TIdent "Vec"; TPunct "<"; TIdent "u8"; TPunct ">"];
                 TPunct ";"]].

(** [#[A1] #[A2] fn f() { #![A3] #![A4] }]. *)
Definition tok_fn_four_attrs : TokenStream :=
  [TPunct "#"; TGroup Bracket [TIdent "A1"]; TPunct "#"; TGroup Bracket [TIdent "A2"];
   TIdent "fn"; TIdent "f"; TGroup Parenthesis [];
   TGroup Brace [TPunct "#"; TPunct "!"; TGroup Bracket [TIdent "A3"];
                 TPunct "#"; TPunct "!"; TGroup Bracket [TIdent "A4"]]].

(** [mod m { #![doc] use a::{b, c as d}; pub trait T: A + B { fn f(&self, x: u8) -> u8;
    type X: C; } impl<U> Tr for S<U> where U: C { pub fn f(&mut self) {} }
    extern "C" { fn g(a: i32, ...); static mut V: u8; } struct P(u8); }]. *)
Definition tok_mod_sample : TokenStream :=
  [TIdent "mod"; TIdent "m";
   TGroup Brace
     [TPunct "#"; TPunct "!"; TGroup Bracket [TIdent "doc"];
      TIdent "use"; TIdent "a"; TPunct ":"; TPunct ":";
        TGroup Brace [TIdent "b"; TPunct ","; TIdent "c"; TIdent "as"; TIdent "d"]; TPunct ";";
      TIdent "pub"; TIdent "trait"; TIdent "T"; TPunct ":"; TIdent "A"; TPunct "+"; TIdent "B";
        TGroup Brace
          [TIdent "fn"; TIdent "f";
             TGroup Parenthesis [TPunct "&"; TIdent "self"; TPunct ","; TIdent "x"; TPunct ":"; TIdent "u8"];
             TPunct "-"; TPunct ">"; TIdent "u8"; TPunct ";";
           TIdent "type"; TIdent "X"; TPunct ":"; TIdent "C"; TPunct ";"];
      TIdent "impl"; TPunct "<"; TIdent "U"; TPunct ">"; TIdent "Tr"; TIdent "for"; TIdent "S";
        TPunct "<"; TIdent "U"; TPunct ">"; TIdent "where"; TIdent "U"; TPunct ":"; TIdent "C";
        TGroup Brace
          [TIdent "pub"; TIdent "fn"; TIdent "f";
             TGroup Parenthesis [TPunct "&"; TIdent "mut"; TIdent "self"]; TGroup Brace []];
      TIdent "extern"; TLit LitStrKind "C";
        TGroup Brace
          [TIdent "fn"; TIdent "g";
             TGroup Parenthesis [TIdent "a"; TPunct ":"; TIdent "i32"; TPunct ",";
                                 TPunct "."; TPunct "."; TPunct "."]; TPunct ";";
           TIdent "static"; TIdent "mut"; TIdent "V"; TPunct ":"; TIdent "u8"; TPunct ";"];
      TIdent "struct"; TIdent "P"; TGroup Parenthesis [TIdent "u8"]; TPunct ";"]].

(** [trait T { type X: ; }]: a [:] with no bound. *)
Definition tok_trait_type_colon : TokenStream :=
  [TIdent "trait"; TIdent "T"; TGroup Brace [TIdent "type"; TIdent "X"; TPunct ":"; TPunct ";"]].

(** Inputs of the further properties: [m! {}], [mod m;], [#[a] fn f();],
    [macro m(x) {x}], [fn g(a: i32, b: ...) {}], [fn g(a: i32, ...);],
    [{mut a, b}], [trait T {}] and [existential type X: T;]. *)
Definition tok_macro_brace : TokenStream := [TIdent "m"; TPunct "!"; TGroup Brace []].
Definition tok_mod_semi : TokenStream := [TIdent "mod"; TIdent "m"; TPunct ";"].
Definition tok_trait_fn_semi : TokenStream :=
  [TPunct "#"; TGroup Bracket [TIdent "a"]; TIdent "fn"; TIdent "f"; TGroup Parenthesis []; TPunct ";"].
Definition tok_macro2_args : TokenStream :=
  [TIdent "macro"; TIdent "m"; TGroup Parenthesis [TIdent "x"]; TGroup Brace [TIdent "x"]].
Definition tok_fn_variadic : TokenStream :=
  [TIdent "fn"; TIdent "g";
   TGroup Parenthesis [TIdent "a"; TPunct ":"; TIdent "i32"; TPunct ",";
                       TIdent "b"; TPunct ":"; TPunct "."; TPunct "."; TPunct "."]; TGroup Brace []].
Definition tok_foreign_fn_variadic : TokenStream :=
  [TIdent "fn"; TIdent "g";
   TGroup Parenthesis [TIdent "a"; TPunct ":"; TIdent "i32"; TPunct ",";
                       TPunct "."; TPunct "."; TPunct "."]; TPunct ";"].
Definition tok_borrows : TokenStream :=
  [TGroup Brace [TIdent "mut"; TIdent "a"; TPunct ","; TIdent "b"]].
Definition tok_trait_plain : TokenStream :=
  [TIdent "trait"; TIdent "T"; TGroup Brace []].
Definition tok_existential : TokenStream :=
  [TIdent "existential"; TIdent "type"; TIdent "X"; TPunct ":"; TIdent "T"; TPunct ";"].

(** [fn f(_: u8) {}]: a typed parameter with the pattern [_]. *)
Definition tok_fn_wild_param : TokenStream :=
  [TIdent "fn"; TIdent "f"; TGroup Parenthesis [TIdent "_"; TPunct ":"; TIdent "u8"];
   TGroup Brace []].

(** ** Predicates used to state the properties *)

(** [p] is sound for the printer [pr] on the results satisfying [f]: a
    successful parse consumed exactly the printed form of its result. *)
Definition sound_on {A} (f : A -> bool) (p : Parser A) (pr : A -> TokenStream) : Prop :=
  forall ts a r, p ts = Ok a r -> f a = true -> ts = pr a ++ r.

(** Every attribute of the list is an inner one ([#![...]]). *)
Definition all_inner (l : list Attribute) : bool := forallb (fun a => negb (is_outer a)) l.

(** An attribute written [#[s]] (outer) or [#![s]] (inner). *)
Definition attr_a (s : string) (st : AttrStyle) : Attribute := mkAttribute st [TIdent s].

(** The receiver forms other than [self.{...}]; a bare [self] is one only
    when no [.] follows it. *)
Definition simple_receiver_ok (rf : Reference) (rest : TokenStream) : bool :=
  match rf with
  | Reference_Partial _ => false
  | Reference_None None => negb (peek (PPunct ".") rest)
  | _ => true
  end.

(** A typed parameter that is not [_ : Ident<...>]: the pre-2018 anonymous
    parameter [Ident<...>] gets a [_] pattern and a [:] that the input does
    not have, so such a tree may come from either form. *)
Definition pat_ok (p : Pat) (t : Ty) : bool :=
  match p, print_ty t with
  | PatWild, TIdent _ :: TPunct "<" :: _ => false
  | _, _ => true
  end.

(** A parameter that prints as it was read. *)
Definition fn_arg_ok (a : FnArg) : bool :=
  match a with FnArg_Typed p => pat_ok (pat p) (pat_ty p) | FnArg_Receiver _ => true end.

(** Every parameter of the list prints as it was read. *)
Definition inputs_ok (ps : Punctuated FnArg) : bool := forallb fn_arg_ok (punctuated_items ps).

(** A bound list without a last value is empty: the lists that
    [plus_bounds_go] builds. *)
Definition bounds_inv (b : Punctuated TypeParamBound) : Prop := p_last b = None -> p_inner b = [].

(** The trait items that print as they were read: no parameter
    [_ : Ident<...>], no associated type with a [:] and no bound
    ([TraitItem::parse] never returns [Verbatim]). *)
Definition trait_item_lossless (it : TraitItem) : bool :=
  match it with
  | TraitItem_Method i => inputs_ok (inputs (trait_method_sig i))
  | TraitItem_Type i => negb (trait_type_colon i && punctuated_is_empty (trait_type_bounds i))
  | TraitItem_Verbatim _ => false
  | _ => true
  end.

(** The impl items that print as they were read: no parameter
    [_ : Ident<...>]. *)
Definition impl_item_lossless (it : ImplItem) : bool :=
  match it with
  | ImplItem_Method i => inputs_ok (inputs (impl_method_sig i))
  | _ => true
  end.

(** The tokens [print_signature] emits for the variadic part. *)
Definition variadic_tokens (ins : Punctuated FnArg) (v : option Variadic) : TokenStream :=
  match v with
  | Some v => if negb (has_variadic ins) then
                (if negb (empty_or_trailing ins) then [TPunct ","] else []) ++ print_variadic v
              else []
  | None => []
  end.

(** The [...] of a variadic signature is printed: the last argument's
    type is not itself the verbatim [...]. *)
Definition variadic_ok (ins : Punctuated FnArg) (v : option Variadic) : bool :=
  match v with Some _ => negb (has_variadic ins) | None => true end.

(** The foreign items that print as they were read
    ([ForeignItem::parse] never returns [Verbatim]). *)
Definition foreign_item_lossless (it : ForeignItem) : bool :=
  match it with
  | ForeignItem_Fn i =>
      inputs_ok (inputs (foreign_fn_sig i))
      && variadic_ok (inputs (foreign_fn_sig i)) (variadic (foreign_fn_sig i))
  | ForeignItem_Verbatim _ => false
  | _ => true
  end.

(** The items that print as they were read, as far as the tree tells: no
    function, trait, impl, foreign or module item nested in them that does
    not.  ([Verbatim] items depend on their input: see [existential_ok].) *)
Fixpoint item_lossless (it : Item) : bool :=
  match it with
  | Item_Fn i => inputs_ok (inputs (sig i))
  | Item_ForeignMod i => forallb foreign_item_lossless (foreign_mod_items i)
  | Item_Trait i => forallb trait_item_lossless (trait_items i)
  | Item_Impl i => forallb impl_item_lossless (impl_items i)
  | Item_Mod (mkItemMod _ _ _ (Some items) _) =>
      (fix go (l : list Item) : bool :=
         match l with [] => true | x :: l' => item_lossless x && go l' end) items
  | _ => true
  end.

(** The head of an [existential type] item up to its [:], read with the
    sub-parsers that [item_existential] uses. *)
Definition existential_head : Parser unit :=
  _ <- kw "existential" ;;
  _ <- kw "type" ;;
  _ <- parse_ident ;;
  _ <- parse_generics ;;
  _ <- parse_opt_where ;;
  punct ":".

(** An [existential type] item starts here (after outer attributes and a
    visibility) that does not print as it was read: outer attributes are
    written before it, or no bound follows its [:]. *)
Definition existential_lossy (ts : TokenStream) : bool :=
  match parse_outer ts with
  | Err _ => false
  | Ok attrs input =>
      match parse_visibility input with
      | Err _ => false
      | Ok _ ahead =>
          match existential_head ahead with
          | Err _ => false
          | Ok _ r => match attrs with [] => peek (PPunct ";") r | _ :: _ => true end
          end
      end
  end.

(** No position of the list [l] starts an [existential type] item that
    [existential_lossy] rejects, and [f] holds for each of its trees. *)
Fixpoint existential_ok_with (f : TokenTree -> bool) (l : TokenStream) : bool :=
  negb (existential_lossy l) &&
  match l with
  | [] => true
  | t :: r => f t && existential_ok_with f r
  end.

Fixpoint tt_existential_ok (t : TokenTree) : bool :=
  match t with
  | TGroup _ c => existential_ok_with tt_existential_ok c
  | _ => true
  end.

(** No position of the stream, inside groups included, starts an
    [existential type] item that [existential_lossy] rejects. *)
Definition existential_ok (ts : TokenStream) : bool := existential_ok_with tt_existential_ok ts.

(** [sound_on] for the parsers of items that may be [existential type]
    items: on inputs satisfying [existential_ok]. *)
Definition sound_in {A} (f : A -> bool) (p : Parser A) (pr : A -> TokenStream) : Prop :=
  forall ts a r, p ts = Ok a r -> existential_ok ts = true -> f a = true -> ts = pr a ++ r.

(** The argument is a typed argument, not a receiver. *)
Definition is_typed (a : FnArg) : bool :=
  match a with FnArg_Typed _ => true | FnArg_Receiver _ => false end.

(** Every borrowed field name is an identifier, not a keyword. *)
Definition borrows_ok (p : PartialBorrows) : bool :=
  forallb (fun b => accept_as_ident (pb_ident b)) (punctuated_items (borrows p)).

(** The receiver forms that parse back from their printed form. *)
Definition receiver_ok (rf : Reference) (rest : TokenStream) : bool :=
  match rf with
  | Reference_Partial pbs => borrows_ok pbs
  | Reference_None None => negb (peek (PPunct ".") rest)
  | _ => true
  end.

(* ================================================================== *)
(** * Properties *)

(** C5: parsing the parameter [self.{mut a, b}] gives a receiver whose
    reference is [Partial] with the borrows [(mut, a)] then [(no mut, b)],
    and printing that receiver gives back exactly the same tokens. *)
Theorem self_partial_roundtrip :
  parse_fn_arg tok_self_partial
  = Ok (FnArg_Receiver
          (mkReceiver []
             (Reference_Partial
                (mkPartialBorrows
                   (mkPunctuated [mkPartialBorrow true "a"] (Some (mkPartialBorrow false "b")))))))
       []
  /\ print_fn_arg
       (FnArg_Receiver
          (mkReceiver []
             (Reference_Partial
                (mkPartialBorrows
                   (mkPunctuated [mkPartialBorrow true "a"] (Some (mkPartialBorrow false "b")))))))
     = tok_self_partial.
Proof. split; vm_compute; reflexivity. Qed.

(** C8: printing an [ItemStruct] is a total function that, for tuple and
    unit structs, always ends with a [;] (synthesized when [semi_token] is
    [None]) after the fields and the where clause, and for structs with
    named fields ends with the braced fields and no [;], whatever
    [semi_token] holds. *)
Theorem print_item_struct_terminator : forall i : ItemStruct,
  let head := print_attrs (attrs_outer (struct_attrs i)) ++ print_visibility (struct_vis i)
              ++ [TIdent "struct"; TIdent (struct_ident i)] ++ print_generics (struct_generics i) in
  let wc := print_where (where_clause (struct_generics i)) in
  match struct_fields i with
  | FieldsNamedV f => print_item_struct i = head ++ wc ++ print_fields_named f
  | FieldsUnnamedV f => print_item_struct i = head ++ print_fields_unnamed f ++ wc ++ [TPunct ";"]
  | FieldsUnit => print_item_struct i = head ++ wc ++ [TPunct ";"]
  end.
Proof.
  intros [attrs vis ident generics fields semi] head wc; subst head wc.
  unfold print_item_struct; simpl.
  destruct fields; repeat rewrite <- app_assoc; reflexivity.
Qed.

(** C9: converting an [ItemStruct], [ItemEnum] or [ItemUnion] into a
    [DeriveInput] and back into an [Item] gives the same item, and
    converting any [DeriveInput] into an [Item] and back gives the same
    [DeriveInput]; the conversion from [DeriveInput] covers each [Data]
    variant. *)
Theorem derive_input_conversions_lossless :
  (forall s, item_from_derive_input (derive_input_from_struct s) = Item_Struct s)
  /\ (forall e, item_from_derive_input (derive_input_from_enum e) = Item_Enum e)
  /\ (forall u, item_from_derive_input (derive_input_from_union u) = Item_Union u)
  /\ (forall d : DeriveInput,
        match item_from_derive_input d with
        | Item_Struct s => derive_input_from_struct s = d
        | Item_Enum e => derive_input_from_enum e = d
        | Item_Union u => derive_input_from_union u = d
        | _ => False
        end).
Proof.
  split; [|split; [|split]].
  - intros []; reflexivity.
  - intros []; reflexivity.
  - intros []; reflexivity.
  - intros [attrs vis ident generics [[f s]|[v]|[f]]]; reflexivity.
Qed.

(* ------------------------------------------------------------------ *)
(** ** The dispatch of [Item::parse] *)

Arguments peek k ts : simpl nomatch.
Arguments peek_punct_chars s ts : simpl nomatch.
Arguments skip ts : simpl nomatch.
Arguments peek2 k ts : simpl nomatch.

Lemma parse_item_eq input :
  parse_item input = parse_item_with (parse_item_f (ts_size input)) input.
Proof. reflexivity. Qed.

Lemma fmap_match {A B} (f : A -> B) p ts :
  fmap f p ts = match p ts with Ok a r => Ok (f a) r | Err e => Err e end.
Proof. unfold fmap, bind, ret. destruct (p ts); reflexivity. Qed.

Lemma fmap_inv {A B} (f : A -> B) p ts y r :
  fmap f p ts = Ok y r -> exists x, p ts = Ok x r /\ y = f x.
Proof. unfold fmap, bind, ret. destruct (p ts); intros H; inversion H; eauto. Qed.

Lemma peek_ident_kw ts k :
  peek PIdent ts = true -> peek (PKw k) ts = true -> accept_as_ident k = true.
Proof.
  destruct ts as [|[s| | |] r]; simpl; try discriminate.
  intros H1 H2. apply String.eqb_eq in H2. subst. exact H1.
Qed.

Lemma peek_kw_kw ts a b : peek (PKw a) ts = true -> peek (PKw b) ts = true -> a = b.
Proof.
  destruct ts as [|[s| | |] r]; simpl; try discriminate.
  intros H1 H2. apply String.eqb_eq in H1, H2. congruence.
Qed.

Lemma peek_kw_inv k ts : peek (PKw k) ts = true -> exists rest, ts = TIdent k :: rest.
Proof.
  destruct ts as [|[s| | |] r]; simpl; try discriminate.
  intros H. apply String.eqb_eq in H. subst. eauto.
Qed.

Lemma many_go_stop {A} fuel cond (p : Parser A) acc ts l r :
  many_go fuel cond p acc ts = Ok l r -> cond r = false.
Proof.
  revert acc ts. induction fuel as [|fuel IH]; intros acc ts; simpl.
  - destruct (cond ts) eqn:E; intros H; inversion H; subst; auto.
  - destruct (cond ts) eqn:E; [|intros H; inversion H; subst; auto].
    destruct (p ts); [apply IH | discriminate].
Qed.

Lemma parse_outer_stop input attrs r :
  parse_outer input = Ok attrs r -> parse_outer r = Ok [] r.
Proof.
  unfold parse_outer, many_while. intros H. apply many_go_stop in H.
  destruct (length r); unfold many_go; rewrite H; reflexivity.
Qed.

Lemma trait_or_alias_inv ts it r :
  parse_trait_or_trait_alias ts = Ok it r ->
  (exists t, it = Item_Trait t) \/ (exists t, it = Item_TraitAlias t).
Proof.
  unfold parse_trait_or_trait_alias, bind at 1.
  destruct (parse_start_of_trait_alias ts) as [[[[a v] i] g] r1|e]; [|discriminate].
  unfold la_peek_any, la_peek, lookahead1; simpl; unfold la_peek; simpl.
  repeat match goal with |- context [if ?b then _ else _] => destruct b end;
  intros H; try discriminate;
  apply fmap_inv in H; destruct H as [x [_ ->]]; eauto.
Qed.

(** Two peeks of distinct keywords, or of an identifier and a reserved
    keyword, cannot both succeed. *)
Ltac peek_contra :=
  match goal with
  | H1 : peek PIdent ?ts = true, H2 : peek (PKw ?k) ?ts = true |- _ =>
      pose proof (peek_ident_kw ts k H1 H2) as Hc; vm_compute in Hc; discriminate Hc
  | H1 : peek (PKw ?a) ?ts = true, H2 : peek (PKw ?b) ?ts = true |- _ =>
      pose proof (peek_kw_kw ts a b H1 H2) as Hc; discriminate Hc
  end.

Ltac destruct_peeks :=
  repeat match goal with
  | |- context [peek ?k ?ts] =>
      is_var ts; let E := fresh "E" in destruct (peek k ts) eqn:E; simpl in *
  | H : context [peek ?k ?ts] |- _ =>
      is_var ts;
      lazymatch type of H with
      | peek _ _ = _ => fail
      | _ => let E := fresh "E" in destruct (peek k ts) eqn:E; simpl in *
      end
  end.

(** Case analysis on the innermost conditionals of a hypothesis. *)
Ltac split_ifs :=
  repeat match goal with
  | H : context [if ?b then _ else _] |- _ =>
      lazymatch b with
      | context [if _ then _ else _] => fail
      | _ => let E := fresh "E" in destruct b eqn:E; simpl in *
      end
  | H : context [match ?t with Ok _ _ => _ | Err _ => _ end] |- _ =>
      lazymatch t with
      | context [match _ with Ok _ _ => _ | Err _ => _ end] => fail
      | _ => let E := fresh "E" in destruct t eqn:E; simpl in *
      end
  end.

Ltac dispatch_leaf :=
  match goal with
  | H : fmap _ _ _ = Ok _ _ |- _ =>
      let x := fresh "x" in let Hp := fresh "Hp" in let Hy := fresh "Hy" in
      apply fmap_inv in H; destruct H as [x [Hp Hy]]; try discriminate Hy
  | H : parse_trait_or_trait_alias _ = Ok _ _ |- _ =>
      apply trait_or_alias_inv in H; destruct H as [[? ?]|[? ?]]; discriminate
  | H : Err _ = Ok _ _ |- _ => discriminate H
  end.

Ltac split_orb_false :=
  repeat match goal with H : (_ || _) = false |- _ => apply orb_false_iff in H as [? ?] end.

Lemma item_dispatch_union pi vis input ahead u r :
  item_dispatch pi vis input ahead = Ok (Item_Union u) r ->
  peek (PKw "union") ahead = true /\ peek2 PIdent ahead = true
  /\ parse_item_union input = Ok u r.
Proof.
  unfold item_dispatch, la_peek, lookahead1, kw, token; simpl; unfold la_peek; simpl.
  intros H.
  split_ifs; try dispatch_leaf.
  injection Hy as <-. auto.
Qed.

Lemma item_dispatch_verbatim pi vis input ahead v r :
  item_dispatch pi vis input ahead = Ok (Item_Verbatim v) r ->
  peek (PKw "existential") ahead = true /\ item_existential input = Ok v r.
Proof.
  unfold item_dispatch, la_peek, lookahead1, kw, token; simpl; unfold la_peek; simpl.
  intros H.
  split_ifs; try dispatch_leaf.
  injection Hy as <-. auto.
Qed.

(** C2: when the token after the visibility is [const], the next token
    decides the branch: an identifier or [_] sends the item to
    [ItemConst::parse]; otherwise [unsafe], [async], [extern] or [fn] sends
    it to [ItemFn::parse].  [const fn foo() {}] parses to a function whose
    signature has [constness] set.  Since [async] is accepted as an
    identifier, [const async] takes the first branch: the [async] test of
    the second is never reached. *)
Theorem const_dispatch :
  (forall input attrs input1 vis rest,
     parse_outer input = Ok attrs input1 ->
     parse_visibility input1 = Ok vis (TIdent "const" :: rest) ->
     ((peek PIdent rest || peek (PKw "_") rest) = true ->
        parse_item input = match parse_item_const input1 with
          | Ok c r => Ok (item_prepend_attrs attrs (Item_Const c)) r
          | Err e => Err e end)
     /\ ((peek PIdent rest || peek (PKw "_") rest) = false ->
         existsb (fun k => peek k rest) [PKw "unsafe"; PKw "async"; PKw "extern"; PKw "fn"] = true ->
        parse_item input = match parse_item_fn input1 with
          | Ok f r => Ok (item_prepend_attrs attrs (Item_Fn f)) r
          | Err e => Err e end))
  /\ (exists f, parse_item tok_const_fn_foo = Ok (Item_Fn f) [] /\ constness (sig f) = true)
  /\ (forall rest, peek PIdent (TIdent "async" :: rest) = true).
Proof.
  split; [|split; [eexists; split; vm_compute; reflexivity | reflexivity]].
  intros input attrs input1 vis rest Ho Hv.
  rewrite parse_item_eq; unfold parse_item_with; rewrite Ho, Hv.
  unfold item_dispatch, la_peek, lookahead1; simpl; unfold la_peek; simpl.
  split; intros H.
  - destruct (peek PIdent rest) eqn:E1; simpl in H |- *.
    + rewrite fmap_match. destruct (parse_item_const input1); reflexivity.
    + destruct (peek (PKw "_") rest) eqn:E2; [|discriminate].
      simpl. rewrite fmap_match. destruct (parse_item_const input1); reflexivity.
  - intros H'. apply orb_false_iff in H as [E1 E2]. rewrite E1. simpl. rewrite E2. simpl.
    simpl in H'. destruct_peeks;
      try (rewrite fmap_match; destruct (parse_item_fn input1); reflexivity);
      try discriminate; peek_contra.
Qed.

Lemma const_dispatch_witness :
  parse_item tok_const_fn_foo
  = match parse_item_fn tok_const_fn_foo with
    | Ok f r => Ok (item_prepend_attrs [] (Item_Fn f)) r
    | Err e => Err e end.
Proof.
  refine (proj2 (proj1 const_dispatch tok_const_fn_foo [] tok_const_fn_foo VisInherited
                   [TIdent "fn"; TIdent "foo"; TGroup Parenthesis []; TGroup Brace []] _ _) _ _);
  vm_compute; reflexivity.
Defined.

(** C2 (failing input): [const async fn f() {}] is sent to
    [ItemConst::parse], which fails at [fn] where it expects a [:]. *)
Lemma const_async_counterexample :
  parse_item tok_const_async_fn
  = Err (mkError [TIdent "fn"; TIdent "f"; TGroup Parenthesis []; TGroup Brace []] (Expected ["`:`"]))
  /\ parse_item tok_const_async_fn
     = match parse_item_const tok_const_async_fn with
       | Ok c r => Ok (item_prepend_attrs [] (Item_Const c)) r
       | Err e => Err e end.
Proof. split; vm_compute; reflexivity. Qed.

(** C3 (counterexample): [union!()] with no [;] is not an item: the macro
    branch requires a [;] after a parenthesized macro body. *)
Lemma union_bang_counterexample :
  parse_item tok_union_bang = Err (mkError [] (Expected ["`;`"])).
Proof. vm_compute. reflexivity. Qed.

(** C3: [Item::parse] returns an [Item::Union] only when the token after
    the visibility is [union] and the token after that is an identifier;
    [union Foo { a: i32 }] parses to a union, and [union!();] parses to an
    [Item::Macro] whose path is the single identifier [union]. *)
Theorem item_union_lookahead :
  (forall input u r,
     parse_item input = Ok (Item_Union u) r ->
     exists attrs input1 vis rest,
       parse_outer input = Ok attrs input1 /\
       parse_visibility input1 = Ok vis (TIdent "union" :: rest) /\
       peek PIdent rest = true) /\
  (exists u, parse_item tok_union_foo = Ok (Item_Union u) []) /\
  (exists m, parse_item tok_union_bang_semi = Ok (Item_Macro m) [] /\
     mac_path (mac m) = mkPath false (mkPunctuated [] (Some (mkPathSegment "union" None)))).
Proof.
  split; [|split; eexists; [vm_compute; reflexivity | split; vm_compute; reflexivity]].
  intros input u r H.
  rewrite parse_item_eq in H; unfold parse_item_with in H.
  destruct (parse_outer input) as [attrs input1|e] eqn:Ho; [|discriminate].
  destruct (parse_visibility input1) as [vis ahead|e] eqn:Hv; [|discriminate].
  destruct (item_dispatch _ vis input1 ahead) as [it r1|e] eqn:Ed; [|discriminate].
  destruct it; simpl in H; try discriminate; try (destruct i; discriminate).
  injection H as _ ->.
  apply item_dispatch_union in Ed as [Ek [Ep _]].
  apply peek_kw_inv in Ek as [rest ->].
  exists attrs, input1, vis, rest. auto.
Qed.

Lemma item_union_lookahead_witness :
  exists attrs input1 vis rest,
    parse_outer tok_union_foo = Ok attrs input1 /\
    parse_visibility input1 = Ok vis (TIdent "union" :: rest) /\
    peek PIdent rest = true.
Proof.
  refine (proj1 item_union_lookahead tok_union_foo
            (mkItemUnion [] VisInherited "Foo" (mkGenerics false punctuated_new None)
               (mkPunctuated [] (Some (mkField [] VisInherited (Some "a")
                  (TyPath (mkPath false (mkPunctuated [] (Some (mkPathSegment "i32" None))))))))) [] _).
  vm_compute. reflexivity.
Defined.

(** C7 (counterexample): [impure fn] does match a branch, the macro one,
    since [impure] is an identifier and the visibility is inherited; the
    error is the one of [ItemMacro::parse] alone, expecting [!].  The same
    holds for [try fn]: [try] is accepted as an identifier. *)
Lemma impure_fn_counterexample :
  parse_item tok_impure_fn = Err (mkError [TIdent "fn"] (Expected ["`!`"]))
  /\ parse_item [TIdent "try"; TIdent "fn"] = Err (mkError [TIdent "fn"] (Expected ["`!`"])).
Proof. split; vm_compute; reflexivity. Qed.

(** C7: when the token after the visibility is none of the item keywords
    and, for an inherited visibility, cannot start a macro path either, no
    branch of [Item::parse] matches and it fails with one error at that
    token that lists every alternative tried there, in order: all the item
    keywords, then (inherited visibility only) the starts of a macro path. *)
Theorem item_no_branch_error input attrs input1 vis ahead :
  parse_outer input = Ok attrs input1 ->
  parse_visibility input1 = Ok vis ahead ->
  existsb (fun k => peek k ahead) item_keywords = false ->
  (is_inherited vis = true -> existsb (fun k => peek k ahead) macro_start = false) ->
  parse_item input =
    Err (mkError ahead (Expected (map display item_keywords
           ++ (if is_inherited vis then map display macro_start else [])))).
Proof.
  intros Ho Hv Hk Hm.
  rewrite parse_item_eq; unfold parse_item_with; rewrite Ho, Hv.
  simpl in Hk. split_orb_false.
  unfold item_dispatch, la_peek, lookahead1; simpl; unfold la_peek; simpl.
  repeat match goal with
         | H : peek ?k ?t = false |- context [peek ?k ?t] => rewrite H; simpl
         end.
  destruct vis; simpl; try reflexivity.
  specialize (Hm eq_refl). simpl in Hm. split_orb_false.
  repeat match goal with
         | H : peek ?k ?t = false |- context [peek ?k ?t] => rewrite H; simpl
         | H : peek_punct_chars ?k ?t = false |- context [peek_punct_chars ?k ?t] => rewrite H; simpl
         end.
  reflexivity.
Qed.

Lemma item_no_branch_error_witness :
  parse_item tok_pub_impure_fn =
    Err (mkError [TIdent "impure"; TIdent "fn"] (Expected (map display item_keywords))).
Proof.
  refine (item_no_branch_error tok_pub_impure_fn [] tok_pub_impure_fn VisPublic
            [TIdent "impure"; TIdent "fn"] _ _ _ _).
  - vm_compute. reflexivity.
  - vm_compute. reflexivity.
  - vm_compute. reflexivity.
  - simpl. discriminate.
Defined.

(** C10 (counterexample): with a visibility, the [Verbatim] tokens start
    with that visibility, not with [existential]. *)
Lemma attr_pub_existential_counterexample :
  parse_item tok_attr_pub_existential
  = Ok (Item_Verbatim [TIdent "pub"; TIdent "existential"; TIdent "type"; TIdent "X";
                       TPunct ":"; TIdent "T"; TPunct ";"]) [].
Proof. vm_compute. reflexivity. Qed.

(** ** Soundness of the sub-parsers: a parse consumes its printed form *)


Lemma peek_punct_chars_app s ts :
  peek_punct_chars s ts = true -> ts = punct_tokens s ++ skipn (String.length s) ts.
Proof.
  revert ts. induction s as [|c s IH]; intros ts H; [reflexivity|].
  destruct ts as [|[| c' | |] ts]; simpl in H; try discriminate.
  apply andb_true_iff in H as [H1 H2]. apply Ascii.eqb_eq in H1. subst c'.
  simpl. f_equal. apply IH, H2.
Qed.

Lemma kw_sound w ts u r : kw w ts = Ok u r -> ts = [TIdent w] ++ r.
Proof.
  unfold kw, token. destruct (peek (PKw w) ts) eqn:E; [|discriminate].
  intros H; injection H as _ <-.
  destruct ts as [|[s| | |] ts]; simpl in E; try discriminate.
  apply String.eqb_eq in E; subst; reflexivity.
Qed.

Lemma punct_sound s ts u r : punct s ts = Ok u r -> ts = punct_tokens s ++ r.
Proof.
  unfold punct, token. destruct (peek (PPunct s) ts) eqn:E; [|discriminate].
  intros H; injection H as _ <-. apply peek_punct_chars_app, E.
Qed.

Lemma opt_kw_sound w ts b r : opt_token (PKw w) ts = Ok b r -> ts = print_flag b [TIdent w] ++ r.
Proof.
  unfold opt_token, fmap, bind, ret. destruct (peek (PKw w) ts) eqn:E.
  - destruct (token (PKw w) ts) eqn:T; [|discriminate].
    intros H; injection H as <- <-. apply (kw_sound w ts a rest T).
  - intros H; injection H as <- <-. reflexivity.
Qed.

Lemma opt_punct_sound s ts b r :
  opt_token (PPunct s) ts = Ok b r -> ts = print_flag b (punct_tokens s) ++ r.
Proof.
  unfold opt_token, fmap, bind, ret. destruct (peek (PPunct s) ts) eqn:E.
  - destruct (token (PPunct s) ts) eqn:T; [|discriminate].
    intros H; injection H as <- <-. apply (punct_sound s ts a rest T).
  - intros H; injection H as <- <-. reflexivity.
Qed.

Lemma parse_ident_sound ts s r : parse_ident ts = Ok s r -> ts = [TIdent s] ++ r.
Proof.
  unfold parse_ident. destruct ts as [|[x| | |] ts]; try discriminate.
  destruct (accept_as_ident x); [|discriminate]. intros H; injection H as <- <-; reflexivity.
Qed.

Lemma parse_ident_any_sound ts s r : parse_ident_any ts = Ok s r -> ts = [TIdent s] ++ r.
Proof.
  unfold parse_ident_any. destruct ts as [|[x| | |] ts]; try discriminate.
  intros H; injection H as <- <-; reflexivity.
Qed.

Lemma opt_ident_sound ts o r :
  opt_ident ts = Ok o r -> ts = match o with Some n => [TIdent n] | None => [] end ++ r.
Proof.
  unfold opt_ident, fmap, bind, ret. destruct (peek PIdent ts).
  - destruct (parse_ident ts) eqn:P; [|discriminate].
    intros H; injection H as <- <-. apply (parse_ident_sound _ _ _ P).
  - intros H; injection H as <- <-. reflexivity.
Qed.

Lemma parse_lifetime_sound ts l r : parse_lifetime ts = Ok l r -> ts = print_lifetime l ++ r.
Proof.
  unfold parse_lifetime.
  destruct ts as [|[x|c| |] ts]; try discriminate.
  destruct (Ascii.eqb c "'"%char) eqn:Ec.
  - apply Ascii.eqb_eq in Ec; subst c.
    destruct ts as [|[y| | |] ts]; try discriminate.
    intros H; injection H as <- <-; reflexivity.
  - intros H. exfalso.
    destruct c as [[] [] [] [] [] [] [] []]; try discriminate; vm_compute in Ec; discriminate.
Qed.

Lemma opt_lifetime_sound ts l r : opt_lifetime ts = Ok l r -> ts = print_opt_lifetime l ++ r.
Proof.
  unfold opt_lifetime, fmap, bind, ret. destruct (peek PLifetime ts).
  - destruct (parse_lifetime ts) eqn:P; [|discriminate].
    intros H; injection H as <- <-. apply (parse_lifetime_sound _ _ _ P).
  - intros H; injection H as <- <-. reflexivity.
Qed.

Lemma parse_lit_str_sound ts s r : parse_lit_str ts = Ok s r -> ts = [TLit LitStrKind s] ++ r.
Proof.
  unfold parse_lit_str. destruct ts as [|[| |[] x|] ts]; try discriminate.
  intros H; injection H as <- <-; reflexivity.
Qed.

Lemma parse_rest_tokens_sound ts c r : parse_rest_tokens ts = Ok c r -> ts = c ++ r.
Proof. unfold parse_rest_tokens. intros H; injection H as <- <-. rewrite app_nil_r. reflexivity. Qed.

Lemma delimiter_eqb_eq a b : delimiter_eqb a b = true -> a = b.
Proof. destruct a, b; simpl; congruence. Qed.

Lemma in_group_sound {A} f (p : Parser A) pr d :
  sound_on f p pr -> sound_on f (in_group d p) (fun a => [TGroup d (pr a)]).
Proof.
  intros Hp ts a r H Hf. unfold in_group in H.
  destruct ts as [|[| | |d' c] ts]; try discriminate.
  destruct (delimiter_eqb d d') eqn:Ed; [|discriminate]. apply delimiter_eqb_eq in Ed; subst d'.
  destruct (p c) as [a' [|t rs]|e] eqn:Ep; try discriminate.
  injection H as <- <-. rewrite (Hp _ _ _ Ep Hf), app_nil_r. reflexivity.
Qed.

Lemma forallb_true {A} (l : list A) : forallb (fun _ => true) l = true.
Proof. induction l; auto. Qed.

Lemma punctuated_items_push_punct {A} (acc : Punctuated A) v :
  p_last acc = None ->
  punctuated_items (push_punct (push_value acc v)) = punctuated_items acc ++ [v].
Proof.
  destruct acc as [inner last]; simpl; intros ->. unfold punctuated_items; simpl.
  rewrite !app_nil_r. reflexivity.
Qed.

Lemma punctuated_items_push_value {A} (acc : Punctuated A) v :
  p_last acc = None -> punctuated_items (push_value acc v) = punctuated_items acc ++ [v].
Proof.
  destruct acc as [inner last]; simpl; intros ->. unfold punctuated_items; simpl.
  rewrite app_nil_r. reflexivity.
Qed.

Lemma print_punctuated_push_value {A} pr st (acc : Punctuated A) v :
  p_last acc = None ->
  print_punctuated pr st (push_value acc v) = print_punctuated pr st acc ++ pr v.
Proof.
  destruct acc as [inner last]; simpl; intros ->. unfold print_punctuated; simpl.
  rewrite app_nil_r. reflexivity.
Qed.

Lemma print_punctuated_push_punct {A} pr st (acc : Punctuated A) v :
  p_last acc = None ->
  print_punctuated pr st (push_punct (push_value acc v)) = print_punctuated pr st acc ++ pr v ++ st.
Proof.
  destruct acc as [inner last]; simpl; intros ->. unfold print_punctuated; simpl.
  rewrite flat_map_app. simpl. rewrite !app_nil_r. reflexivity.
Qed.

Lemma forallb_app_inv {A} f (l1 l2 : list A) :
  forallb f (l1 ++ l2) = true -> forallb f l1 = true /\ forallb f l2 = true.
Proof. rewrite forallb_app. apply andb_true_iff. Qed.

(** [parse_terminated]: the printed values and separators, in order, are
    the tokens read. *)
Lemma terminated_go_sound {A} f (p : Parser A) pr (sep : Parser unit) st :
  sound_on f p pr ->
  (forall ts u r, sep ts = Ok u r -> ts = st ++ r) ->
  forall fuel acc ts res r,
    p_last acc = None ->
    terminated_go fuel p sep acc ts = Ok res r ->
    r = [] /\ (exists l, punctuated_items res = punctuated_items acc ++ l) /\
    (forallb f (punctuated_items res) = true ->
     print_punctuated pr st acc ++ ts = print_punctuated pr st res).
Proof.
  intros Hp Hs fuel. induction fuel as [|fuel IH]; intros acc ts res r Hl H; simpl in H.
  - destruct ts; [|discriminate]. injection H as <- <-.
    split; [reflexivity|split; [exists []; rewrite app_nil_r; reflexivity|]].
    intros _; rewrite app_nil_r; reflexivity.
  - destruct ts as [|t ts0].
    { injection H as <- <-.
      split; [reflexivity|split; [exists []; rewrite app_nil_r; reflexivity|]].
      intros _; rewrite app_nil_r; reflexivity. }
    destruct (p (t :: ts0)) as [v rv|e] eqn:Ep; [|discriminate].
    destruct rv as [|t' rv'].
    + injection H as <- <-.
      split; [reflexivity|split].
      * exists [v]. apply punctuated_items_push_value, Hl.
      * intros Hf. rewrite punctuated_items_push_value in Hf by exact Hl.
        apply forallb_app_inv in Hf as [_ Hf]. simpl in Hf. rewrite andb_true_r in Hf.
        rewrite (Hp _ _ _ Ep Hf), print_punctuated_push_value by exact Hl.
        rewrite app_nil_r. reflexivity.
    + destruct (sep (t' :: rv')) as [u r'|e] eqn:Es; [|discriminate].
      assert (Hl' : p_last (push_punct (push_value acc v)) = None)
        by (destruct acc; reflexivity).
      destruct (IH _ _ _ _ Hl' H) as [Hr [[l Hpre] Hprint]].
      rewrite punctuated_items_push_punct in Hpre by exact Hl.
      split; [exact Hr|split; [exists (v :: l); rewrite Hpre, <- app_assoc; reflexivity|]].
      intros Hf. rewrite <- (Hprint Hf), print_punctuated_push_punct by exact Hl.
      rewrite Hpre in Hf. apply forallb_app_inv in Hf as [Hf _].
      apply forallb_app_inv in Hf as [_ Hf]. simpl in Hf. rewrite andb_true_r in Hf.
      rewrite (Hp _ _ _ Ep Hf), (Hs _ _ _ Es). rewrite !app_assoc. reflexivity.
Qed.

Lemma parse_terminated_sound {A} f (p : Parser A) pr (sep : Parser unit) st :
  sound_on f p pr ->
  (forall ts u r, sep ts = Ok u r -> ts = st ++ r) ->
  sound_on (fun ps => forallb f (punctuated_items ps)) (parse_terminated p sep)
    (print_punctuated pr st).
Proof.
  intros Hp Hs ts res r H Hf. unfold parse_terminated in H.
  destruct (terminated_go_sound f p pr sep st Hp Hs _ punctuated_new _ _ _ eq_refl H) as [-> [_ Hprint]].
  rewrite app_nil_r. exact (Hprint Hf).
Qed.

Lemma sep_loop_go_sound {A} f (p : Parser A) pr (sep : Parser unit) st stop more :
  sound_on f p pr ->
  (forall ts u r, sep ts = Ok u r -> ts = st ++ r) ->
  forall fuel acc ts res r,
    p_last acc = None ->
    sep_loop_go fuel stop more p sep acc ts = Ok res r ->
    (exists l, punctuated_items res = punctuated_items acc ++ l) /\
    (forallb f (punctuated_items res) = true ->
     print_punctuated pr st acc ++ ts = print_punctuated pr st res ++ r).
Proof.
  intros Hp Hs fuel. induction fuel as [|fuel IH]; intros acc ts res r Hl H; simpl in H.
  - destruct (stop ts); [|discriminate]. injection H as <- <-.
    split; [exists []; rewrite app_nil_r; reflexivity|reflexivity].
  - destruct (stop ts).
    { injection H as <- <-. split; [exists []; rewrite app_nil_r; reflexivity|reflexivity]. }
    destruct (p ts) as [v rv|e] eqn:Ep; [|discriminate].
    destruct (more rv).
    + destruct (sep rv) as [u r'|e] eqn:Es; [|discriminate].
      assert (Hl' : p_last (push_punct (push_value acc v)) = None)
        by (destruct acc; reflexivity).
      destruct (IH _ _ _ _ Hl' H) as [[l Hpre] Hprint].
      rewrite punctuated_items_push_punct in Hpre by exact Hl.
      split; [exists (v :: l); rewrite Hpre, <- app_assoc; reflexivity|].
      intros Hf. rewrite <- (Hprint Hf), print_punctuated_push_punct by exact Hl.
      rewrite Hpre in Hf. apply forallb_app_inv in Hf as [Hf _].
      apply forallb_app_inv in Hf as [_ Hf]. simpl in Hf. rewrite andb_true_r in Hf.
      rewrite (Hp _ _ _ Ep Hf), (Hs _ _ _ Es). rewrite !app_assoc. reflexivity.
    + injection H as <- <-. split.
      * exists [v]. apply punctuated_items_push_value, Hl.
      * intros Hf. rewrite punctuated_items_push_value in Hf by exact Hl.
        apply forallb_app_inv in Hf as [_ Hf]. simpl in Hf. rewrite andb_true_r in Hf.
        rewrite (Hp _ _ _ Ep Hf), print_punctuated_push_value by exact Hl.
        rewrite app_assoc. reflexivity.
Qed.

Lemma sep_loop_sound {A} f (p : Parser A) pr (sep : Parser unit) st stop more :
  sound_on f p pr ->
  (forall ts u r, sep ts = Ok u r -> ts = st ++ r) ->
  sound_on (fun ps => forallb f (punctuated_items ps)) (sep_loop stop more p sep)
    (print_punctuated pr st).
Proof.
  intros Hp Hs ts res r H Hf. unfold sep_loop in H.
  destruct (sep_loop_go_sound f p pr sep st stop more Hp Hs _ punctuated_new _ _ _ eq_refl H)
    as [_ Hprint].
  exact (Hprint Hf).
Qed.

Lemma many_go_sound {A} f (p : Parser A) pr cond :
  sound_on f p pr ->
  forall fuel acc ts res r,
    many_go fuel cond p acc ts = Ok res r ->
    (exists l, res = acc ++ l) /\
    (forallb f res = true -> flat_map pr acc ++ ts = flat_map pr res ++ r).
Proof.
  intros Hp fuel. induction fuel as [|fuel IH]; intros acc ts res r H; simpl in H.
  - destruct (cond ts); [discriminate|]. injection H as <- <-.
    split; [exists []; rewrite app_nil_r; reflexivity|reflexivity].
  - destruct (cond ts).
    2:{ injection H as <- <-. split; [exists []; rewrite app_nil_r; reflexivity|reflexivity]. }
    destruct (p ts) as [v rv|e] eqn:Ep; [|discriminate].
    destruct (IH _ _ _ _ H) as [[l Hpre] Hprint].
    split; [exists (v :: l); rewrite Hpre, <- app_assoc; reflexivity|].
    intros Hf. rewrite <- (Hprint Hf), flat_map_app. simpl.
    rewrite Hpre in Hf. apply forallb_app_inv in Hf as [Hf _].
    apply forallb_app_inv in Hf as [_ Hf]. simpl in Hf. rewrite andb_true_r in Hf.
    rewrite (Hp _ _ _ Ep Hf), app_nil_r, !app_assoc. reflexivity.
Qed.

Lemma many_while_sound {A} f (p : Parser A) pr cond :
  sound_on f p pr -> sound_on (forallb f) (many_while cond p) (flat_map pr).
Proof.
  intros Hp ts res r H Hf. unfold many_while in H.
  destruct (many_go_sound f p pr cond Hp _ [] _ _ _ H) as [_ Hprint].
  exact (Hprint Hf).
Qed.

Lemma sound_on_true {A} (p : Parser A) pr :
  (forall ts a r, p ts = Ok a r -> ts = pr a ++ r) -> sound_on (fun _ => true) p pr.
Proof. intros H ts a r E _. exact (H ts a r E). Qed.

Lemma forallb_punct_true {A} (ps : Punctuated A) :
  forallb (fun _ : A => true) (punctuated_items ps) = true.
Proof. apply forallb_true. Qed.

Lemma in_group_plain_sound {A} d (p : Parser A) pr ts a r :
  (forall ts a r, p ts = Ok a r -> ts = pr a ++ r) ->
  in_group d p ts = Ok a r -> ts = [TGroup d (pr a)] ++ r.
Proof.
  intros Hp H. exact (in_group_sound _ _ _ d (sound_on_true p pr Hp) ts a r H eq_refl).
Qed.

Lemma in_group_rest_sound d ts c r :
  in_group d parse_rest_tokens ts = Ok c r -> ts = [TGroup d c] ++ r.
Proof. apply (in_group_plain_sound d parse_rest_tokens (fun c => c)), parse_rest_tokens_sound. Qed.

Create HintDb sound.
#[export] Hint Resolve parse_rest_tokens_sound parse_ident_sound parse_ident_any_sound : sound.

Lemma in_group_terminated_sound {A} d (p : Parser A) pr s ts a r :
  (forall ts a r, p ts = Ok a r -> ts = pr a ++ r) ->
  in_group d (parse_terminated p (punct s)) ts = Ok a r ->
  ts = [TGroup d (print_punctuated pr (punct_tokens s) a)] ++ r.
Proof.
  intros Hp H.
  refine (in_group_sound _ _ _ d (parse_terminated_sound (fun _ => true) p pr (punct s) _
            (sound_on_true p pr Hp) (punct_sound s)) ts a r H _).
  apply forallb_punct_true.
Qed.

Lemma sep_loop_punct_sound {A} stop more (p : Parser A) pr s ts a r :
  (forall ts a r, p ts = Ok a r -> ts = pr a ++ r) ->
  sep_loop stop more p (punct s) ts = Ok a r ->
  ts = print_punctuated pr (punct_tokens s) a ++ r.
Proof.
  intros Hp H.
  exact (sep_loop_sound (fun _ => true) p pr (punct s) _ stop more
           (sound_on_true p pr Hp) (punct_sound s) ts a r H (forallb_punct_true a)).
Qed.

Ltac learn_base E :=
  first [ apply kw_sound in E | apply punct_sound in E | apply opt_kw_sound in E
        | apply opt_punct_sound in E | apply parse_ident_sound in E
        | apply parse_ident_any_sound in E | apply opt_ident_sound in E
        | apply parse_lifetime_sound in E | apply opt_lifetime_sound in E
        | apply parse_lit_str_sound in E | apply parse_rest_tokens_sound in E
        | eapply in_group_terminated_sound in E; [|solve [eauto]]
        | eapply sep_loop_punct_sound in E; [|solve [eauto with sound]]
        | apply in_group_rest_sound in E
        | eapply in_group_plain_sound in E; [|solve [eauto with sound]] ].

(** Forward evaluation of a parser run that succeeded: each step that
    succeeded is recorded, the sub-parsers' round trips are applied. *)
Ltac run L :=
  repeat match goal with
  | H : Ok _ _ = Ok _ _ |- _ => injection H; clear H; intros; subst
  | H : Err _ = Ok _ _ |- _ => discriminate H
  | H : context [if ?b then _ else _] |- _ =>
      let E := fresh "C" in destruct b eqn:E; cbv beta iota zeta in H
  | H : context [match ?x with None => _ | Some _ => _ end] |- _ =>
      is_var x; destruct x; cbv beta iota zeta in H
  | H : context [match ?x with (_, _) => _ end] |- _ =>
      destruct x; cbv beta iota zeta in H
  | H : context [match ?t with Ok _ _ => _ | Err _ => _ end] |- _ =>
      let E := fresh "E" in
      destruct t eqn:E; cbv beta iota zeta in E, H; try (L E; subst)
  end.

Ltac start H := unfold fmap in H; unfold bind, ret in H; cbv beta iota zeta in H.

Lemma ty_sound n :
  (forall ts t r, parse_ty_f n ts = Ok t r -> ts = print_ty t ++ r) /\
  (forall ts p r, parse_path_f n ts = Ok p r -> ts = print_path p ++ r) /\
  (forall ts s r, parse_segment_f n ts = Ok s r -> ts = print_segment s ++ r).
Proof.
  induction n as [|n [IHt [IHp IHs]]]; [repeat split; discriminate|].
  repeat split.
  - intros ts t r H. simpl in H. start H.
    run ltac:(fun E => first [learn_base E | apply IHt in E | apply IHp in E]).
    all: try (simpl; repeat rewrite <- app_assoc; reflexivity).
  - intros ts p r H. simpl in H. start H.
    run ltac:(fun E => first [learn_base E | apply IHt in E | apply IHp in E]).
    all: try (simpl; repeat rewrite <- app_assoc; reflexivity).
  - intros ts p r H. simpl in H. start H.
    run ltac:(fun E => first [learn_base E | apply IHt in E | apply IHp in E]).
    all: try (simpl; repeat rewrite <- app_assoc; reflexivity).
Qed.

Lemma many_go_post {A} (g : A -> bool) (p : Parser A) cond :
  (forall ts a r, p ts = Ok a r -> g a = true) ->
  forall fuel acc ts res r,
    many_go fuel cond p acc ts = Ok res r -> forallb g acc = true -> forallb g res = true.
Proof.
  intros Hp fuel. induction fuel as [|fuel IH]; intros acc ts res r H Ha; simpl in H.
  - destruct (cond ts); [discriminate|]. injection H as <- <-. exact Ha.
  - destruct (cond ts).
    2:{ injection H as <- <-. exact Ha. }
    destruct (p ts) as [v rv|e] eqn:Ep; [|discriminate].
    apply (IH _ _ _ _ H). rewrite forallb_app, Ha. simpl. rewrite (Hp _ _ _ Ep). reflexivity.
Qed.

Lemma attrs_outer_app a b : attrs_outer (a ++ b) = attrs_outer a ++ attrs_outer b.
Proof. apply filter_app. Qed.

Lemma attrs_inner_app a b : attrs_inner (a ++ b) = attrs_inner a ++ attrs_inner b.
Proof. apply filter_app. Qed.

Lemma attrs_all_outer a : forallb is_outer a = true -> attrs_outer a = a /\ attrs_inner a = [].
Proof.
  induction a as [|x a IH]; [auto|]. simpl. intros H. apply andb_true_iff in H as [Hx Ha].
  unfold attrs_outer, attrs_inner in *. simpl. rewrite Hx. simpl.
  destruct (IH Ha) as [-> ->]. auto.
Qed.

Lemma attrs_all_inner a :
  forallb (fun x => negb (is_outer x)) a = true -> attrs_outer a = [] /\ attrs_inner a = a.
Proof.
  induction a as [|x a IH]; [auto|]. simpl. intros H. apply andb_true_iff in H as [Hx Ha].
  unfold attrs_outer, attrs_inner in *. simpl. destruct (is_outer x); [discriminate|]. simpl.
  destruct (IH Ha) as [-> ->]. auto.
Qed.

Lemma single_parse_outer_sound ts a r :
  single_parse_outer ts = Ok a r -> ts = print_attr a ++ r /\ is_outer a = true.
Proof.
  intros H. unfold single_parse_outer in H. start H.
  run learn_base.
  split; reflexivity.
Qed.

Lemma single_parse_inner_sound ts a r :
  single_parse_inner ts = Ok a r -> ts = print_attr a ++ r /\ is_outer a = false.
Proof.
  intros H. unfold single_parse_inner in H. start H.
  run learn_base.
  split; reflexivity.
Qed.

Lemma parse_outer_sound ts a r :
  parse_outer ts = Ok a r ->
  ts = print_attrs a ++ r /\ attrs_outer a = a /\ attrs_inner a = [].
Proof.
  intros H. split; [|apply attrs_all_outer].
  - exact (many_while_sound (fun _ => true) single_parse_outer print_attr _
             (sound_on_true _ _ (fun ts a r H => proj1 (single_parse_outer_sound ts a r H)))
             ts a r H (forallb_true _)).
  - exact (many_go_post is_outer _ _ (fun ts a r H => proj2 (single_parse_outer_sound ts a r H)) _ _ _ _ _ H eq_refl).
Qed.

Lemma parse_inner_sound ts a r :
  parse_inner ts = Ok a r ->
  ts = print_attrs a ++ r /\ attrs_outer a = [] /\ attrs_inner a = a.
Proof.
  intros H. split; [|apply attrs_all_inner].
  - exact (many_while_sound (fun _ => true) single_parse_inner print_attr _
             (sound_on_true _ _ (fun ts a r H => proj1 (single_parse_inner_sound ts a r H)))
             ts a r H (forallb_true _)).
  - refine (many_go_post (fun x => negb (is_outer x)) _ _ _ _ _ _ _ _ H eq_refl).
    intros ts' x r' Hx. rewrite (proj2 (single_parse_inner_sound ts' x r' Hx)). reflexivity.
Qed.

Lemma in_group_inv {A} d (p : Parser A) ts a r :
  in_group d p ts = Ok a r -> exists c, ts = TGroup d c :: r /\ p c = Ok a [].
Proof.
  unfold in_group. destruct ts as [|t ts]; [discriminate|].
  destruct t as [| | |d0 c]; try discriminate.
  destruct (delimiter_eqb d d0) eqn:Ed; [|discriminate]. apply delimiter_eqb_eq in Ed; subst.
  destruct (p c) as [a' [|t rs]|e] eqn:Ep; try discriminate.
  intros H; injection H as <- <-. eauto.
Qed.


Lemma parse_inner_all ts a r : parse_inner ts = Ok a r -> all_inner a = true.
Proof.
  intros H. refine (many_go_post (fun x => negb (is_outer x)) _ _ _ _ _ _ _ _ H eq_refl).
  intros ts' x r' Hx. rewrite (proj2 (single_parse_inner_sound ts' x r' Hx)). reflexivity.
Qed.

Lemma opt_mut_sound ts m r : opt_mut ts = Ok m r -> ts = print_opt_unit m [TIdent "mut"] ++ r.
Proof.
  unfold opt_mut. intros H. start H. run learn_base; reflexivity.
Qed.

Lemma parse_partial_borrow_sound ts b r :
  parse_partial_borrow ts = Ok b r -> ts = print_partial_borrow b ++ r.
Proof.
  unfold parse_partial_borrow, la_peek, lookahead1. intros H. start H.
  run learn_base. all: simpl; repeat rewrite <- app_assoc; reflexivity.
Qed.
#[export] Hint Resolve parse_partial_borrow_sound : sound.

Lemma parse_partial_borrows_sound ts b r :
  parse_partial_borrows ts = Ok b r -> ts = print_partial_borrows b ++ r.
Proof.
  unfold parse_partial_borrows. intros H. start H.
  run ltac:(fun E => first [learn_base E | eapply in_group_terminated_sound in E; [|exact parse_partial_borrow_sound]]).
  reflexivity.
Qed.

Ltac learn_recv E :=
  first [ learn_base E | apply opt_mut_sound in E | apply parse_partial_borrows_sound in E ].

Lemma parse_receiver_sound ts rc r :
  parse_receiver ts = Ok rc r -> receiver_attrs rc = [] /\ ts = print_receiver rc ++ r.
Proof.
  unfold parse_receiver, la_peek, lookahead1. intros H. start H.
  run learn_recv. all: split; [reflexivity|].
  all: unfold print_receiver; simpl; repeat rewrite <- app_assoc; reflexivity.
Qed.

Lemma parse_outer_nohash ts : peek (PPunct "#") ts = false -> parse_outer ts = Ok [] ts.
Proof. intros H. unfold parse_outer, many_while. destruct (length ts); unfold many_go; rewrite H; reflexivity. Qed.


Lemma parse_receiver_complete rf rest :
  simple_receiver_ok rf rest = true ->
  parse_receiver (print_receiver (mkReceiver [] rf) ++ rest) = Ok (mkReceiver [] rf) rest.
Proof.
  intros H. destruct rf as [[[]|]| |[l|] [[]|]]; simpl in H; try discriminate;
    unfold parse_receiver, print_receiver; simpl;
    unfold bind, ret, opt_mut, opt_lifetime, fmap, bind, ret, kw, punct, token; simpl;
    try reflexivity.
  apply negb_true_iff in H. rewrite H. reflexivity.
Qed.

Lemma fn_arg_receiver_sound ts rc rest :
  parse_fn_arg ts = Ok (FnArg_Receiver rc) rest ->
  ts = print_receiver rc ++ rest /\ peek (PPunct ":") rest = false /\
  exists input1, parse_outer ts = Ok (receiver_attrs rc) input1 /\
                 input1 = print_receiver (mkReceiver [] (reference rc)) ++ rest.
Proof.
  unfold parse_fn_arg. intros H.
  destruct (parse_outer ts) as [attrs input1|e] eqn:Ho; [|discriminate].
  destruct (parse_outer_sound _ _ _ Ho) as (Hts & Hout & _).
  destruct (parse_receiver input1) as [rc0 ahead|e] eqn:Hr.
  - destruct (negb (peek (PPunct ":") ahead)) eqn:Hc.
    + injection H as <- <-. apply negb_true_iff in Hc.
      destruct (parse_receiver_sound _ _ _ Hr) as [Ha Hi].
      destruct rc0 as [a0 rf]. simpl in Ha |- *. subst a0.
      unfold print_receiver in *. simpl in *. rewrite Hout. subst.
      split; [rewrite <- app_assoc; reflexivity|]. split; [exact Hc|]. eauto.
    + destruct (fn_arg_typed input1) as [[]|]; discriminate.
  - destruct (fn_arg_typed input1) as [[]|]; discriminate.
Qed.

Lemma fn_arg_receiver_complete rf rest :
  simple_receiver_ok rf rest = true -> peek (PPunct ":") rest = false ->
  parse_fn_arg (print_receiver (mkReceiver [] rf) ++ rest) = Ok (FnArg_Receiver (mkReceiver [] rf)) rest.
Proof.
  intros H Hc. unfold parse_fn_arg.
  rewrite parse_outer_nohash by (destruct rf as [[[]|]| |[l|] [[]|]]; reflexivity).
  rewrite (parse_receiver_complete _ _ H), Hc. reflexivity.
Qed.

(** ** Soundness of the item parsers

    Each parser consumed exactly the printed form of what it returned,
    for the results that print as they were read. *)

Lemma parse_type_sound ts t r : parse_type ts = Ok t r -> ts = print_ty t ++ r.
Proof. apply ty_sound. Qed.

Lemma parse_path_sound ts p r : parse_path ts = Ok p r -> ts = print_path p ++ r.
Proof. apply ty_sound. Qed.

Lemma parse_mod_style_sound ts p r : parse_mod_style ts = Ok p r -> ts = print_path p ++ r.
Proof.
  unfold parse_mod_style. intros H. start H.
  run ltac:(fun E => first [learn_base E | eapply (sep_loop_punct_sound _ _ _ print_segment) in E;
                              [|intros t a' r' Hs; cbv beta in Hs;
                                destruct (parse_ident_any t) eqn:Ei; [|discriminate];
                                injection Hs as <- <-; apply parse_ident_any_sound in Ei; exact Ei]]).
  simpl. rewrite <- app_assoc. reflexivity.
Qed.

Lemma parse_visibility_sound ts v r : parse_visibility ts = Ok v r -> ts = print_visibility v ++ r.
Proof.
  unfold parse_visibility. intros H.
  destruct (peek (PKw "pub") ts) eqn:Hp.
  - apply peek_kw_inv in Hp as (rest & ->). simpl in H.
    destruct rest as [|[| | |d c] rest]; try (injection H as <- <-; reflexivity).
    destruct d; try (injection H as <- <-; reflexivity).
    destruct (restricted_content c); injection H as <- <-; reflexivity.
  - destruct (peek (PKw "crate") ts && negb (peek2 (PPunct "::") ts)) eqn:Hc.
    + apply andb_true_iff in Hc as [Hc _]. apply peek_kw_inv in Hc as (rest & ->).
      injection H as <- <-. reflexivity.
    + injection H as <- <-. reflexivity.
Qed.

Ltac learn1 E :=
  first [ learn_base E | apply parse_type_sound in E | apply parse_path_sound in E
        | apply parse_mod_style_sound in E | apply parse_visibility_sound in E ].

Ltac contra := exfalso; match goal with C : _ = _ |- _ => simpl in C; discriminate C end.

Ltac finish := simpl; repeat rewrite <- app_assoc; first [reflexivity | assumption].

Lemma parse_bound_sound ts b r : parse_bound ts = Ok b r -> ts = print_bound b ++ r.
Proof. unfold parse_bound. intros H. start H. run learn1. all: finish. Qed.
#[export] Hint Resolve parse_bound_sound : sound.

Lemma parse_generic_param_sound ts g r :
  parse_generic_param ts = Ok g r -> ts = print_generic_param g ++ r.
Proof.
  unfold parse_generic_param, la_peek, lookahead1. intros H. start H.
  run ltac:(fun E => first [learn1 E | eapply sep_loop_punct_sound in E; [|exact parse_bound_sound]]).
  all: unfold print_bounds; finish.
Qed.

Lemma parse_generics_sound ts g r : parse_generics ts = Ok g r -> ts = print_generics g ++ r.
Proof.
  unfold parse_generics. intros H. start H.
  run ltac:(fun E => first [learn1 E | eapply sep_loop_punct_sound in E; [|exact parse_generic_param_sound]]).
  all: unfold print_generics; finish.
Qed.

Lemma parse_where_predicate_sound ts w r :
  parse_where_predicate ts = Ok w r -> ts = print_where_predicate w ++ r.
Proof.
  unfold parse_where_predicate. intros H. start H.
  run ltac:(fun E => first [learn1 E | eapply sep_loop_punct_sound in E; [|exact parse_bound_sound]]).
  unfold print_where_predicate, print_bounds; finish.
Qed.

Lemma parse_where_clause_sound ts w r :
  parse_where_clause ts = Ok w r -> ts = print_where (Some w) ++ r.
Proof.
  unfold parse_where_clause. intros H. start H.
  run learn1.
  eapply sep_loop_punct_sound in H; [|exact parse_where_predicate_sound]. subst. finish.
Qed.

Lemma parse_opt_where_sound ts w r : parse_opt_where ts = Ok w r -> ts = print_where w ++ r.
Proof.
  unfold parse_opt_where. intros H. start H.
  run ltac:(fun E => first [learn1 E | apply parse_where_clause_sound in E]). all: finish.
Qed.

Lemma parse_return_type_sound ts t r : parse_return_type ts = Ok t r -> ts = print_return_type t ++ r.
Proof. unfold parse_return_type. intros H. start H. run learn1. all: finish. Qed.

Lemma parse_abi_sound ts a r : parse_abi ts = Ok a r -> ts = print_abi a ++ r.
Proof. unfold parse_abi. intros H. start H. run learn1. all: finish. Qed.

Lemma parse_opt_abi_sound ts a r : parse_opt_abi ts = Ok a r -> ts = print_opt_abi a ++ r.
Proof.
  unfold parse_opt_abi. intros H. start H.
  run ltac:(fun E => first [learn1 E | apply parse_abi_sound in E]). all: finish.
Qed.

Lemma parse_pat_f_sound n ts p r : parse_pat_f n ts = Ok p r -> ts = print_pat p ++ r.
Proof.
  revert ts p r. induction n as [|n IH]; intros ts p r H; [discriminate|].
  cbn [parse_pat_f] in H. unfold la_peek_any, la_peek, lookahead1 in H. start H.
  run ltac:(fun E => first [learn1 E | apply IH in E]). all: finish.
Qed.

Lemma parse_pat_sound ts p r : parse_pat ts = Ok p r -> ts = print_pat p ++ r.
Proof. apply parse_pat_f_sound. Qed.

Lemma parse_expr_sound ts e r : parse_expr ts = Ok e r -> ts = print_expr e ++ r.
Proof.
  unfold parse_expr. intros H.
  destruct ts as [|[s|c|k s|d c] ts]; try (injection H as <- <-; reflexivity);
    start H; run learn1; finish.
Qed.

Lemma parse_delimiter_sound ts dt r :
  parse_delimiter ts = Ok dt r -> ts = [TGroup (delimiter_of (fst dt)) (snd dt)] ++ r.
Proof.
  unfold parse_delimiter. intros H.
  destruct ts as [|[| | |[] c] ts]; try discriminate; injection H as <- <-; reflexivity.
Qed.

Lemma parse_macro_sound ts m r : parse_macro ts = Ok m r -> ts = print_macro m ++ r.
Proof.
  unfold parse_macro. intros H. start H.
  run ltac:(fun E => first [learn1 E | apply parse_delimiter_sound in E]).
  unfold print_macro; finish.
Qed.

Lemma parse_mac_semi_sound ts ms r :
  parse_mac_semi ts = Ok ms r -> ts = print_macro (fst ms) ++ print_flag (snd ms) [TPunct ";"] ++ r.
Proof.
  unfold parse_mac_semi. intros H. start H.
  run ltac:(fun E => first [learn1 E | apply parse_macro_sound in E]). all: finish.
Qed.

Lemma print_attrs_app a b : print_attrs (a ++ b) = print_attrs a ++ print_attrs b.
Proof. apply flat_map_app. Qed.

Ltac learn_attrs E :=
  first [ let H := fresh "Ha" in pose proof (parse_outer_sound _ _ _ E) as H;
          destruct H as (? & ? & ?); clear E
        | let H := fresh "Ha" in pose proof (parse_inner_sound _ _ _ E) as H;
          destruct H as (? & ? & ?); clear E ].

Ltac learn2 E := first [ learn1 E | learn_attrs E | apply parse_bound_sound in E
  | apply parse_generics_sound in E | apply parse_where_clause_sound in E
  | apply parse_opt_where_sound in E | apply parse_return_type_sound in E
  | apply parse_abi_sound in E | apply parse_opt_abi_sound in E | apply parse_pat_sound in E
  | apply parse_expr_sound in E | apply parse_delimiter_sound in E | apply parse_macro_sound in E
  | apply parse_mac_semi_sound in E ].

Ltac finish_attrs :=
  simpl; unfold private_attrs; rewrite ?attrs_outer_app, ?attrs_inner_app;
  repeat match goal with
         | H : attrs_outer _ = _ |- _ => rewrite H
         | H : attrs_inner _ = _ |- _ => rewrite H
         end;
  simpl; rewrite ?app_nil_r, ?print_attrs_app;
  repeat (rewrite <- app_assoc || rewrite <- app_comm_cons);
  first [reflexivity | assumption].

Lemma parse_field_named_sound ts f r : parse_field_named ts = Ok f r -> ts = print_field f ++ r.
Proof. unfold parse_field_named. intros H. start H. run learn2. unfold print_field. finish_attrs. Qed.

Lemma parse_field_unnamed_sound ts f r : parse_field_unnamed ts = Ok f r -> ts = print_field f ++ r.
Proof. unfold parse_field_unnamed. intros H. start H. run learn2. unfold print_field. finish_attrs. Qed.

Lemma parse_fields_named_sound ts f r : parse_fields_named ts = Ok f r -> ts = print_fields_named f ++ r.
Proof. unfold parse_fields_named. intros H. eapply in_group_terminated_sound in H; [exact H | exact parse_field_named_sound]. Qed.

Lemma parse_fields_unnamed_sound ts f r :
  parse_fields_unnamed ts = Ok f r -> ts = print_fields_unnamed f ++ r.
Proof. unfold parse_fields_unnamed. intros H. eapply in_group_terminated_sound in H; [exact H | exact parse_field_unnamed_sound]. Qed.

Ltac learn3 E := first [ learn2 E | apply parse_fields_named_sound in E | apply parse_fields_unnamed_sound in E ].

Lemma parse_variant_sound ts v r : parse_variant ts = Ok v r -> ts = print_variant v ++ r.
Proof. unfold parse_variant. intros H. start H. run learn3. all: unfold print_variant; finish_attrs. Qed.

Lemma data_struct_sound ts d r :
  data_struct ts = Ok d r ->
  ts = match d with
       | (wc, FieldsNamedV f, _) => print_where wc ++ print_fields_named f
       | (wc, FieldsUnnamedV f, _) => print_fields_unnamed f ++ print_where wc ++ [TPunct ";"]
       | (wc, FieldsUnit, _) => print_where wc ++ [TPunct ";"]
       end ++ r.
Proof.
  unfold data_struct, la_peek, lookahead1. intros H. start H.
  run learn3.
  all: try (exfalso; match goal with C : _ = _ |- _ => simpl in C; discriminate C end).
  all: unfold print_fields_named, print_fields_unnamed; finish.
Qed.

Lemma data_enum_sound ts d r :
  data_enum ts = Ok d r ->
  ts = print_where (fst d) ++ [TGroup Brace (print_punctuated print_variant [TPunct ","] (snd d))] ++ r.
Proof.
  unfold data_enum. intros H. start H.
  run ltac:(fun E => first [learn3 E | eapply in_group_terminated_sound in E; [|exact parse_variant_sound]]).
  finish.
Qed.

Lemma data_union_sound ts d r :
  data_union ts = Ok d r -> ts = print_where (fst d) ++ print_fields_named (snd d) ++ r.
Proof. unfold data_union. intros H. start H. run learn3. finish. Qed.

Lemma sep_loop_go_prefix {A} fuel stop more (p : Parser A) sep acc ts res r :
  sep_loop_go fuel stop more p sep acc ts = Ok res r ->
  exists l, p_inner res = (p_inner acc ++ l)%list /\ (l = [] -> p_last res = None -> p_last acc = None).
Proof.
  revert acc ts. induction fuel as [|fuel IH]; intros acc ts H; cbn [sep_loop_go] in H.
  - destruct (stop ts); [injection H as <- <-; exists []; rewrite app_nil_r; auto|discriminate].
  - destruct (stop ts); [injection H as <- <-; exists []; rewrite app_nil_r; auto|].
    destruct (p ts) as [v r1|]; [|discriminate].
    destruct (more r1); [|injection H as <- <-; exists []; rewrite app_nil_r; simpl; split; [reflexivity|discriminate]].
    destruct (sep r1) as [u r2|]; [|discriminate].
    apply IH in H as (l & H1 & H2). simpl in H1.
    exists (v :: l). rewrite H1, <- app_assoc. split; [reflexivity|discriminate].
Qed.

Lemma sep_loop_go_first {A} fuel stop more (p : Parser A) sep ts res r :
  sep_loop_go (S fuel) stop more p sep punctuated_new ts = Ok res r -> stop ts = false ->
  exists v r1, p ts = Ok v r1 /\ punctuated_first res = Some v.
Proof.
  intros H Hs. cbn [sep_loop_go] in H. rewrite Hs in H.
  destruct (p ts) as [v r1|]; [|discriminate]. exists v, r1. split; [reflexivity|].
  destruct (more r1).
  - destruct (sep r1) as [u r2|]; [|discriminate].
    apply sep_loop_go_prefix in H as (l & H1 & _). unfold punctuated_first. rewrite H1. reflexivity.
  - injection H as <- <-. reflexivity.
Qed.

Lemma parse_type_anon x rest t r :
  accept_as_ident x = true ->
  parse_type (TIdent x :: TPunct "<" :: rest) = Ok t r ->
  exists l, print_ty t = TIdent x :: TPunct "<" :: l.
Proof.
  intros Hi H. unfold parse_type in H.
  replace (3 * S (ts_size (TIdent x :: TPunct "<" :: rest)))
    with (S (S (S (3 * ts_size (TIdent x :: TPunct "<" :: rest))))) in H by lia.
  cbn [parse_ty_f parse_path_f] in H.
  unfold la_peek_any, la_peek, lookahead1, path_start in H.
  cbn [la_cursor la_comparisons app peek peek_punct_chars] in H. rewrite Hi in H.
  cbn [orb] in H.
  unfold fmap, bind, ret, opt_token in H. cbn [peek peek_punct_chars] in H.
  match type of H with context [sep_loop ?st ?mo ?p ?se ?ts] =>
    destruct (sep_loop st mo p se ts) as [segs r1|] eqn:Es; [|discriminate] end.
  injection H as <- <-.
  unfold sep_loop in Es. cbn [length] in Es.
  apply sep_loop_go_first in Es as (v & r2 & Hv & Hf); [|reflexivity].
  cbn [parse_segment_f] in Hv. unfold bind, ret, peek_path_ident, path_start in Hv.
  cbn [existsb peek] in Hv. rewrite Hi in Hv. cbn [orb parse_ident_any peek peek_punct_chars] in Hv.
  rewrite Ascii.eqb_refl in Hv. cbn [andb] in Hv.
  destruct (punct "<" _) as [u1 r3|]; [|discriminate].
  destruct (sep_loop _ _ _ _ r3) as [a r4|]; [|discriminate].
  destruct (punct ">" r4) as [u2 r5|]; [|discriminate].
  injection Hv as <- _.
  unfold punctuated_first in Hf. destruct segs as [[|s0 l0] last]; cbn in Hf |- *.
  - subst last. simpl. eauto.
  - injection Hf as ->. simpl. eauto.
Qed.

Lemma fn_arg_typed_sound ts p r :
  fn_arg_typed ts = Ok p r -> pat_ok (pat p) (pat_ty p) = true ->
  pat_type_attrs p = [] /\ ts = print_pat (pat p) ++ [TPunct ":"] ++ print_ty (pat_ty p) ++ r.
Proof.
  unfold fn_arg_typed. intros H Hp. revert H.
  destruct (peek PIdent ts && peek2 (PPunct "<") ts) eqn:Eh; intros H.
  - destruct ts as [|[x| | |] [|[|c| |] rest]]; try discriminate Eh.
    all: cbn [peek peek2 skip peek_punct_chars] in Eh; rewrite ?andb_false_r, ?andb_false_l in Eh; try discriminate Eh.
    apply andb_true_iff in Eh as [E1 E2]. rewrite andb_true_r in E2.
    apply Ascii.eqb_eq in E2. subst c.
    destruct (parse_ident _) as [? ?|]; [|discriminate].
    unfold fmap, bind, ret in H.
    destruct (parse_type _) as [t r0|] eqn:Et; [|discriminate].
    injection H as <- <-. apply parse_type_anon in Et as [l El]; [|exact E1].
    simpl in Hp. rewrite El in Hp. discriminate.
  - start H. run learn3.
    all: split; [reflexivity|]. all: finish.
Qed.

Lemma parse_fn_arg_sound : sound_on fn_arg_ok parse_fn_arg print_fn_arg.
Proof.
  intros ts a r H Hok. destruct a as [rc|p].
  - apply fn_arg_receiver_sound in H. apply H.
  - unfold parse_fn_arg in H.
    destruct (parse_outer ts) as [attrs input1|e] eqn:Ho; [|discriminate].
    destruct (parse_outer_sound _ _ _ Ho) as (-> & Hout & _).
    assert (Ht : fn_arg_typed input1 = Ok (mkPatType [] (pat p) (pat_ty p)) r /\ pat_type_attrs p = attrs).
    { destruct (fn_arg_typed input1) as [[a0 p0 t0] r0|e] eqn:Et;
        destruct (parse_receiver input1) as [rc0 ah|e'];
        try destruct (negb (peek (PPunct ":") ah)); try discriminate;
        injection H as <- <-; simpl;
        pose proof (fn_arg_typed_sound _ _ _ Et Hok) as [Ha _]; simpl in Ha; subst; auto. }
    destruct Ht as [Ht Ha].
    destruct (fn_arg_typed_sound _ _ _ Ht Hok) as [_ ->].
    unfold print_fn_arg, print_pat_type. rewrite Ha, Hout. simpl. repeat rewrite <- app_assoc. reflexivity.
Qed.

Lemma in_group_terminated_sound_on {A} d f (p : Parser A) pr s ts a r :
  sound_on f p pr ->
  in_group d (parse_terminated p (punct s)) ts = Ok a r -> forallb f (punctuated_items a) = true ->
  ts = [TGroup d (print_punctuated pr (punct_tokens s) a)] ++ r.
Proof.
  intros Hp H Hf.
  exact (in_group_sound _ _ _ d (parse_terminated_sound f p pr (punct s) _ Hp (punct_sound s)) ts a r H Hf).
Qed.

Lemma parse_fn_inputs_sound ts ps r :
  parse_fn_inputs ts = Ok ps r -> inputs_ok ps = true ->
  ts = [TGroup Parenthesis (print_punctuated print_fn_arg [TPunct ","] ps)] ++ r.
Proof. intros H Hok. exact (in_group_terminated_sound_on _ _ _ _ "," _ _ _ parse_fn_arg_sound H Hok). Qed.

Lemma parse_body_sound ts b r :
  parse_body ts = Ok b r ->
  ts = [TGroup Brace (print_attrs (fst b) ++ snd b)] ++ r /\
  attrs_outer (fst b) = [] /\ attrs_inner (fst b) = fst b.
Proof.
  unfold parse_body. intros H. apply in_group_inv in H as (c & -> & H). start H.
  destruct (parse_inner c) as [ia r1|] eqn:E1; [|discriminate].
  destruct (parse_within r1) as [s r2|] eqn:E2; [|discriminate].
  injection H as <- <-. unfold parse_within, parse_rest_tokens in E2.
  injection E2 as <- <-.
  apply parse_inner_sound in E1 as (-> & ? & ?). simpl. auto.
Qed.

Lemma get_variadic_print inputs :
  match (match punctuated_last inputs with Some a => get_variadic a | None => None end) with
  | Some v => if negb (has_variadic inputs) then
                (if negb (empty_or_trailing inputs) then [TPunct ","] else []) ++ print_variadic v
              else []
  | None => []
  end = [].
Proof.
  unfold has_variadic. destruct (punctuated_last inputs) as [[rc|[pa p t]]|]; simpl; try reflexivity.
  destruct t; simpl; try reflexivity.
  destruct (punct "..." ts) as [u [|x rs]|e] eqn:Hd; try reflexivity.
  apply punct_sound in Hd. rewrite app_nil_r in Hd. subst. reflexivity.
Qed.

Ltac learn4 E :=
  first [ learn3 E
        | let H := fresh "Hb" in pose proof (parse_body_sound _ _ _ E) as H;
          destruct H as (? & ? & ?); clear E
        | apply parse_fn_inputs_sound in E ].

Lemma print_generics_with_where g w : print_generics (with_where g w) = print_generics g.
Proof. reflexivity. Qed.

Lemma parse_item_fn_sound ts f r :
  parse_item_fn ts = Ok f r -> inputs_ok (inputs (sig f)) = true -> ts = print_item_fn f ++ r.
Proof.
  unfold parse_item_fn. intros H Hok. start H. run learn4.
  2: exact Hok.
  unfold print_item_fn, print_signature, print_body. simpl.
  rewrite get_variadic_print, print_generics_with_where. finish_attrs.
Qed.

Lemma parse_item_const_sound ts i r : parse_item_const ts = Ok i r -> ts = print_item_const i ++ r.
Proof. unfold parse_item_const, la_peek_any, la_peek, lookahead1. intros H. start H. run learn4. all: unfold print_item_const; finish_attrs. Qed.

Lemma parse_item_static_sound ts i r : parse_item_static ts = Ok i r -> ts = print_item_static i ++ r.
Proof. unfold parse_item_static. intros H. start H. run learn4. unfold print_item_static; finish_attrs. Qed.

Lemma parse_item_extern_crate_sound ts i r :
  parse_item_extern_crate ts = Ok i r -> ts = print_item_extern_crate i ++ r.
Proof. unfold parse_item_extern_crate. intros H. start H. run learn4. all: unfold print_item_extern_crate; finish_attrs. Qed.

Lemma parse_item_type_sound ts i r : parse_item_type ts = Ok i r -> ts = print_item_type i ++ r.
Proof. unfold parse_item_type. intros H. start H. run learn4. unfold print_item_type; finish_attrs. Qed.

Lemma parse_item_struct_sound ts i r : parse_item_struct ts = Ok i r -> ts = print_item_struct i ++ r.
Proof.
  unfold parse_item_struct. intros H. start H.
  run ltac:(fun E => first [learn4 E | apply data_struct_sound in E]).
  all: unfold print_item_struct; finish_attrs.
Qed.

Lemma parse_item_enum_sound ts i r : parse_item_enum ts = Ok i r -> ts = print_item_enum i ++ r.
Proof.
  unfold parse_item_enum. intros H. start H.
  run ltac:(fun E => first [learn4 E | apply data_enum_sound in E]).
  all: unfold print_item_enum; finish_attrs.
Qed.

Lemma parse_item_union_sound ts i r : parse_item_union ts = Ok i r -> ts = print_item_union i ++ r.
Proof.
  unfold parse_item_union. intros H. start H.
  run ltac:(fun E => first [learn4 E | apply data_union_sound in E]).
  all: unfold print_item_union; finish_attrs.
Qed.

Lemma parse_item_macro_sound ts i r : parse_item_macro ts = Ok i r -> ts = print_item_macro i ++ r.
Proof.
  unfold parse_item_macro. intros H. start H.
  run ltac:(fun E => first [learn4 E | apply parse_delimiter_sound in E]).
  all: unfold print_item_macro; finish_attrs.
Qed.

Lemma parse_item_macro2_sound ts i r : parse_item_macro2 ts = Ok i r -> ts = print_item_macro2 i ++ r.
Proof.
  unfold parse_item_macro2, la_peek, lookahead1. intros H. start H. run learn4.
  all: unfold print_item_macro2; finish_attrs.
Qed.

Lemma parse_use_tree_f_sound n ts t r : parse_use_tree_f n ts = Ok t r -> ts = print_use_tree t ++ r.
Proof.
  revert ts t r. induction n as [|n IH]; [discriminate|].
  intros ts t r H. simpl in H. unfold la_peek_any, la_peek, lookahead1 in H. start H.
  run ltac:(fun E => first [learn4 E | apply IH in E
    | eapply in_group_terminated_sound in E; [|exact IH]]).
  all: simpl; finish.
Qed.

Lemma parse_use_tree_sound ts t r : parse_use_tree ts = Ok t r -> ts = print_use_tree t ++ r.
Proof. apply parse_use_tree_f_sound. Qed.

Lemma parse_item_use_sound ts i r : parse_item_use ts = Ok i r -> ts = print_item_use i ++ r.
Proof.
  unfold parse_item_use. intros H. start H.
  run ltac:(fun E => first [learn4 E | apply parse_use_tree_sound in E]).
  all: unfold print_item_use; finish_attrs.
Qed.

Lemma print_punctuated_push_punct_some {A} pr st (acc : Punctuated A) v :
  p_last acc = Some v -> print_punctuated pr st (push_punct acc) = print_punctuated pr st acc ++ st.
Proof.
  destruct acc as [inner last]; simpl; intros ->. unfold push_punct, print_punctuated; simpl.
  rewrite flat_map_app. simpl. rewrite !app_nil_r, <- app_assoc. reflexivity.
Qed.

Lemma plus_bounds_go_sound stop fuel acc ts res r :
  plus_bounds_go fuel stop acc ts = Ok res r -> bounds_inv acc ->
  print_bounds acc ++ ts = print_bounds res ++ r /\ bounds_inv res.
Proof.
  revert acc ts. induction fuel as [|fuel IH]; intros acc ts H Hinv; simpl in H.
  - destruct (stop ts); [injection H as <- <-; auto | discriminate].
  - destruct (stop ts); [injection H as <- <-; auto|].
    destruct (negb (punctuated_is_empty acc)) eqn:Ne.
    + unfold fmap, bind, ret in H.
      destruct (punct "+" ts) as [u r1|] eqn:P; [|discriminate].
      destruct (parse_bound r1) as [b r2|] eqn:B; [|discriminate].
      apply punct_sound in P. apply parse_bound_sound in B. subst.
      destruct (p_last acc) as [v|] eqn:L.
      * apply IH in H as [H1 H2]; [| unfold bounds_inv; destruct acc; simpl in *; subst; discriminate].
        split; [|exact H2]. rewrite <- H1. unfold print_bounds.
        rewrite print_punctuated_push_value by (destruct acc; simpl in *; subst; reflexivity).
        rewrite (print_punctuated_push_punct_some _ _ acc v L).
        simpl. repeat (rewrite <- app_assoc || rewrite <- app_comm_cons). reflexivity.
      * exfalso. specialize (Hinv L). unfold punctuated_is_empty in Ne.
        rewrite Hinv, L in Ne. discriminate.
    + destruct (parse_bound ts) as [b r2|] eqn:B; [|discriminate].
      apply parse_bound_sound in B. subst.
      unfold punctuated_is_empty in Ne.
      destruct acc as [[|x xs] [v|]]; simpl in Ne; try discriminate.
      apply IH in H as [H1 H2]; [| unfold bounds_inv; simpl; discriminate].
      split; [|exact H2]. rewrite <- H1. reflexivity.
Qed.

Lemma plus_bounds_sound stop ts res r :
  plus_bounds stop ts = Ok res r -> ts = print_bounds res ++ r /\ bounds_inv res.
Proof.
  unfold plus_bounds. intros H. apply plus_bounds_go_sound in H as [H1 H2]; [|unfold bounds_inv; reflexivity].
  auto.
Qed.

Lemma punctuated_items_nonempty {A} (p : Punctuated A) x l :
  punctuated_items p = x :: l -> punctuated_is_empty p = false.
Proof. destruct p as [[|y ys] [v|]]; unfold punctuated_items; simpl; try reflexivity; discriminate. Qed.

Lemma parse_supertraits_sound ts res r :
  parse_supertraits ts = Ok res r -> ts = print_bounds res ++ r /\ punctuated_is_empty res = false.
Proof.
  unfold parse_supertraits. intros H.
  destruct (parse_bound ts) as [v r0|] eqn:B; [|discriminate].
  apply parse_bound_sound in B. subst ts.
  destruct (trait_body_stop r0).
  - injection H as <- <-. split; reflexivity.
  - destruct (punct "+" r0) as [u r1|] eqn:P; [|discriminate].
    apply punct_sound in P. subst r0.
    destruct (sep_loop_go_sound (fun _ => true) parse_bound print_bound (punct "+") [TPunct "+"]
                _ _ (sound_on_true _ _ parse_bound_sound) (punct_sound "+") _ (push_punct (push_value punctuated_new v)) _ _ _ eq_refl H)
      as [[l Hl] Hp].
    split; [|simpl in Hl; exact (punctuated_items_nonempty _ _ _ Hl)].
    unfold print_bounds. rewrite <- (Hp (forallb_true _)).
    unfold print_punctuated. simpl. rewrite !app_nil_r, <- app_assoc. reflexivity.
Qed.

Lemma parse_trait_item_const_sound ts i r :
  parse_trait_item_const ts = Ok i r -> ts = print_trait_item (TraitItem_Const i) ++ r.
Proof. unfold parse_trait_item_const. intros H. start H. run learn4. all: finish_attrs. Qed.

Lemma parse_trait_item_method_sound ts i r :
  parse_trait_item_method ts = Ok i r -> inputs_ok (inputs (trait_method_sig i)) = true ->
  ts = print_trait_item (TraitItem_Method i) ++ r.
Proof.
  unfold parse_trait_item_method, la_peek, lookahead1. intros H Hok. start H. run learn4.
  all: try exact Hok.
  all: simpl; unfold print_signature, print_body; simpl; rewrite ?print_generics_with_where; finish_attrs.
Qed.

Lemma parse_trait_item_type_sound ts i r :
  parse_trait_item_type ts = Ok i r -> trait_item_lossless (TraitItem_Type i) = true ->
  ts = print_trait_item (TraitItem_Type i) ++ r.
Proof.
  unfold parse_trait_item_type. intros H Hok. start H.
  run ltac:(fun E => first [learn4 E | apply plus_bounds_sound in E as [? _]]).
  all: simpl in Hok |- *; rewrite ?Hok; finish_attrs.
Qed.

Lemma parse_trait_item_macro_sound ts i r :
  parse_trait_item_macro ts = Ok i r -> ts = print_trait_item (TraitItem_Macro i) ++ r.
Proof.
  unfold parse_trait_item_macro. intros H. start H.
  run ltac:(fun E => first [learn4 E | apply parse_mac_semi_sound in E]). all: finish_attrs.
Qed.

Lemma print_trait_item_set_attrs it OA :
  attrs_outer OA = OA -> attrs_inner OA = [] -> trait_item_lossless it = true ->
  print_trait_item (trait_item_set_attrs it (OA ++ trait_item_attrs it)) =
  print_attrs OA ++ print_trait_item it.
Proof.
  intros Ho Hi Hl. destruct it as [i|i|i|i|v]; try discriminate; simpl;
  rewrite attrs_outer_app, Ho, print_attrs_app, <- app_assoc; try reflexivity.
  destruct (trait_method_default i); [|reflexivity].
  unfold print_body. rewrite attrs_inner_app, Hi. reflexivity.
Qed.

Lemma parse_trait_item_sound : sound_on trait_item_lossless parse_trait_item print_trait_item.
Proof.
  intros ts it r H Hok. unfold parse_trait_item in H.
  destruct (parse_outer ts) as [OA r0|] eqn:E1; [|discriminate].
  apply parse_outer_sound in E1 as (-> & Ho & Hi). cbv zeta in H.
  lazymatch type of H with (match ?X with _ => _ end) = _ => destruct X as [it0 r1|] eqn:EI end;
    [|discriminate].
  injection H as <- <-.
  assert (Hl : trait_item_lossless it0 = true) by (destruct it0; exact Hok).
  rewrite print_trait_item_set_attrs by assumption. rewrite <- app_assoc. f_equal.
  unfold la_peek_any, la_peek, lookahead1 in EI. start EI.
  run ltac:(fun E => first [apply parse_trait_item_const_sound in E
    | apply parse_trait_item_method_sound in E | apply parse_trait_item_type_sound in E
    | apply parse_trait_item_macro_sound in E]).
  all: first [exact Hl | reflexivity].
Qed.

Lemma trait_items_sound ts items r :
  in_group Brace (many_while (fun ts => negb (is_empty ts)) parse_trait_item) ts = Ok items r ->
  forallb trait_item_lossless items = true ->
  ts = [TGroup Brace (flat_map print_trait_item items)] ++ r.
Proof.
  intros H Hf. exact (in_group_sound _ _ _ Brace (many_while_sound _ _ _ _ parse_trait_item_sound) ts items r H Hf).
Qed.

Lemma parse_item_trait_sound ts i r :
  parse_item_trait ts = Ok i r -> forallb trait_item_lossless (trait_items i) = true ->
  ts = print_item_trait i ++ r.
Proof.
  unfold parse_item_trait, parse_rest_of_trait. intros H Hok. start H.
  run ltac:(fun E => first [learn4 E | apply parse_supertraits_sound in E as [? ?]
    | apply trait_items_sound in E]).
  all: simpl in *; try exact Hok.
  all: unfold print_item_trait; simpl.
  all: repeat match goal with Hn : punctuated_is_empty _ = false |- _ => rewrite Hn end.
  all: rewrite ?print_generics_with_where; finish_attrs.
Qed.

Lemma parse_trait_or_trait_alias_sound ts it r :
  parse_trait_or_trait_alias ts = Ok it r ->
  match it with Item_Trait i => forallb trait_item_lossless (trait_items i) | _ => true end = true ->
  ts = print_item it ++ r.
Proof.
  unfold parse_trait_or_trait_alias, parse_start_of_trait_alias, parse_rest_of_trait,
    parse_rest_of_trait_alias, la_peek_any, la_peek, lookahead1.
  intros H Hok. start H.
  run ltac:(fun E => first [learn4 E | apply parse_supertraits_sound in E as [? ?]
    | apply trait_items_sound in E]).
  all: simpl in *; try exact Hok.
  all: unfold print_item_trait, print_item_trait_alias; simpl.
  all: repeat match goal with Hn : punctuated_is_empty _ = false |- _ => rewrite Hn end.
  all: rewrite ?print_generics_with_where; finish_attrs.
Qed.

Lemma parse_impl_item_const_sound ts i r :
  parse_impl_item_const ts = Ok i r -> ts = print_impl_item (ImplItem_Const i) ++ r.
Proof. unfold parse_impl_item_const. intros H. start H. run learn4. all: finish_attrs. Qed.

Lemma parse_impl_item_method_sound ts i r :
  parse_impl_item_method ts = Ok i r -> inputs_ok (inputs (impl_method_sig i)) = true ->
  ts = print_impl_item (ImplItem_Method i) ++ r.
Proof.
  unfold parse_impl_item_method. intros H Hok. start H. run learn4.
  all: try exact Hok.
  all: simpl; unfold print_signature, print_body; simpl; rewrite ?print_generics_with_where; finish_attrs.
Qed.

Lemma parse_impl_item_type_sound ts i r :
  parse_impl_item_type ts = Ok i r -> ts = print_impl_item (ImplItem_Type i) ++ r.
Proof. unfold parse_impl_item_type. intros H. start H. run learn4. all: finish_attrs. Qed.

Lemma parse_impl_item_macro_sound ts i r :
  parse_impl_item_macro ts = Ok i r -> ts = print_impl_item (ImplItem_Macro i) ++ r.
Proof.
  unfold parse_impl_item_macro. intros H. start H.
  run ltac:(fun E => first [learn4 E | apply parse_mac_semi_sound in E]). all: finish_attrs.
Qed.

Lemma existential_ok_app l r : existential_ok (l ++ r) = true -> existential_ok r = true.
Proof.
  induction l as [|t l IH]; [auto|]. intros H. apply IH.
  unfold existential_ok in *. simpl in H. rewrite !andb_true_iff in H. tauto.
Qed.

Lemma existential_ok_group d c r : existential_ok (TGroup d c :: r) = true -> existential_ok c = true.
Proof.
  unfold existential_ok. simpl. intros H. rewrite !andb_true_iff in H. tauto.
Qed.

Lemma existential_ok_lossy ts : existential_ok ts = true -> existential_lossy ts = false.
Proof.
  unfold existential_ok. intros H.
  assert (E : existential_ok_with tt_existential_ok ts
              = negb (existential_lossy ts)
                && match ts with
                   | [] => true
                   | t :: r => tt_existential_ok t && existential_ok_with tt_existential_ok r
                   end) by (destruct ts; reflexivity).
  rewrite E in H. apply andb_true_iff in H as [H _]. apply negb_true_iff in H. exact H.
Qed.

Lemma plus_bounds_go_nonempty stop fuel acc ts res r :
  plus_bounds_go fuel stop acc ts = Ok res r ->
  (punctuated_is_empty acc = false \/ stop ts = false) -> punctuated_is_empty res = false.
Proof.
  revert acc ts. induction fuel as [|fuel IH]; intros acc ts H Hn; simpl in H.
  - destruct (stop ts) eqn:Es; [|discriminate].
    injection H as <- <-. destruct Hn as [Hn|Hn]; [exact Hn|discriminate].
  - destruct (stop ts) eqn:Es.
    { injection H as <- <-. destruct Hn as [Hn|Hn]; [exact Hn|discriminate]. }
    destruct (if negb _ then _ else _) as [b r1|]; [|discriminate].
    destruct (parse_bound r1) as [x r2|]; [|discriminate].
    apply IH in H; [exact H|]. left. destruct b as [[|] ?]; reflexivity.
Qed.

Lemma item_existential_sound ts v r :
  item_existential ts = Ok v r -> existential_lossy ts = false -> ts = v ++ r.
Proof.
  unfold item_existential, existential_lossy, existential_head. intros H Hl. revert Hl.
  unfold bind, ret in *. cbv beta in *.
  run ltac:(fun E => first [learn_attrs E | learn1 E | apply parse_generics_sound in E
                           | apply parse_opt_where_sound in E]).
  all: intros; try discriminate.
  all: match goal with
       | E : plus_bounds _ _ = Ok _ _, Hp : peek (PPunct ";") _ = false |- _ =>
           pose proof (plus_bounds_go_nonempty _ _ _ _ _ _ E (or_intror Hp)) as Hne;
           apply plus_bounds_sound in E as [E _]
       end.
  all: rewrite ?Hne in *; simpl in *; try discriminate.
  all: subst; repeat (rewrite <- app_assoc || rewrite <- app_comm_cons); reflexivity.
Qed.

Lemma existential_ok_tl t r : existential_ok (t :: r) = true -> existential_ok r = true.
Proof. intros H. exact (existential_ok_app [t] r H). Qed.

Ltac ex_suffix :=
  match goal with
  | Hex : existential_ok _ = true |- existential_ok _ = true =>
      let H := fresh "Hs" in pose proof Hex as H;
      repeat (first [exact H | apply existential_ok_app in H | apply existential_ok_tl in H])
  end.

Lemma item_existential_head ts v r :
  item_existential ts = Ok v r ->
  exists attrs input vis ahead u r', parse_outer ts = Ok attrs input /\
    parse_visibility input = Ok vis ahead /\ existential_head ahead = Ok u r'.
Proof.
  unfold item_existential, existential_head. intros H. unfold bind, ret in *. cbv beta in *.
  run ltac:(fun _ => idtac).
  all: do 6 eexists; split; [reflexivity|split; [eassumption|]].
  all: repeat match goal with E : ?x = Ok _ _ |- context [?x] => rewrite E end; reflexivity.
Qed.

Lemma existential_branch_sound ts OA r0 v r :
  parse_outer ts = Ok OA r0 -> item_existential r0 = Ok v r -> existential_ok ts = true ->
  ts = v ++ r.
Proof.
  intros E1 Ev Hex.
  destruct (item_existential_head _ _ _ Ev) as (a & i & vis & ah & u & r' & Ea & Ev' & Eh).
  rewrite (parse_outer_stop _ _ _ E1) in Ea. injection Ea as <- <-.
  pose proof (existential_ok_lossy _ Hex) as Hl. unfold existential_lossy in Hl.
  rewrite E1, Ev', Eh in Hl.
  destruct OA as [|a0 OA]; [|discriminate].
  apply parse_outer_sound in E1 as (-> & _). simpl.
  apply item_existential_sound; [exact Ev|]. apply existential_ok_lossy. exact Hex.
Qed.

Lemma parse_impl_item_sound : sound_in impl_item_lossless parse_impl_item print_impl_item.
Proof.
  intros ts it r H Hex Hok. unfold parse_impl_item in H.
  destruct (parse_outer ts) as [OA r0|] eqn:E1; [|discriminate].
  pose proof (fun v r => existential_branch_sound _ _ _ v r E1) as Hb.
  apply parse_outer_sound in E1 as (-> & Ho & Hi).
  unfold la_peek_any, la_peek, lookahead1 in H. start H.
  run ltac:(fun E => first [apply parse_impl_item_const_sound in E
    | apply parse_impl_item_method_sound in E | apply parse_impl_item_type_sound in E
    | apply parse_impl_item_macro_sound in E | apply Hb in E; [|exact Hex]]).
  all: try (simpl in Hok; exact Hok).
  all: try (simpl; assumption).
  all: try (simpl; unfold print_body; finish_attrs).
  all: exact (Hb _ _ eq_refl Hex).
Qed.

Lemma braced_items_sound {A} f (p : Parser A) pr ts b r :
  sound_on f p pr ->
  in_group Brace (inner_attrs <- parse_inner ;;
                  items <- many_while (fun ts => negb (is_empty ts)) p ;;
                  ret (inner_attrs, items)) ts = Ok b r ->
  forallb f (snd b) = true ->
  ts = [TGroup Brace (print_attrs (fst b) ++ flat_map pr (snd b))] ++ r /\ attrs_outer (fst b) = [] /\ attrs_inner (fst b) = fst b.
Proof.
  intros Hp H Hf. apply in_group_inv in H as (c & -> & H). start H.
  destruct (parse_inner c) as [ia r1|] eqn:E1; [|discriminate].
  destruct (many_while _ p r1) as [items r2|] eqn:E2; [|discriminate].
  injection H as <- ->. simpl in Hf |- *.
  apply (many_while_sound f p pr _ Hp) in E2. specialize (E2 Hf). rewrite app_nil_r in E2. subst r1.
  apply parse_inner_sound in E1 as (-> & ? & ?). auto.
Qed.

Lemma many_go_sound_in {A} f (p : Parser A) pr cond :
  sound_in f p pr ->
  forall fuel acc ts res r,
    many_go fuel cond p acc ts = Ok res r ->
    (exists l, res = acc ++ l) /\
    (existential_ok ts = true -> forallb f res = true -> flat_map pr acc ++ ts = flat_map pr res ++ r).
Proof.
  intros Hp fuel. induction fuel as [|fuel IH]; intros acc ts res r H; simpl in H.
  - destruct (cond ts); [discriminate|]. injection H as <- <-.
    split; [exists []; rewrite app_nil_r; reflexivity|reflexivity].
  - destruct (cond ts).
    2:{ injection H as <- <-. split; [exists []; rewrite app_nil_r; reflexivity|reflexivity]. }
    destruct (p ts) as [v rv|e] eqn:Ep; [|discriminate].
    destruct (IH _ _ _ _ H) as [[l Hpre] Hprint].
    split; [exists (v :: l); rewrite Hpre, <- app_assoc; reflexivity|].
    intros Hex Hf.
    assert (Hv : f v = true).
    { rewrite Hpre in Hf. apply forallb_app_inv in Hf as [Hf _]. apply forallb_app_inv in Hf as [_ Hf].
      simpl in Hf. rewrite andb_true_r in Hf. exact Hf. }
    pose proof (Hp _ _ _ Ep Hex Hv) as Hts.
    assert (Hex' : existential_ok rv = true) by (rewrite Hts in Hex; exact (existential_ok_app _ _ Hex)).
    rewrite <- (Hprint Hex' Hf), flat_map_app. simpl. rewrite Hts, app_nil_r, !app_assoc. reflexivity.
Qed.

Lemma many_while_sound_in {A} f (p : Parser A) pr cond :
  sound_in f p pr -> sound_in (forallb f) (many_while cond p) (flat_map pr).
Proof.
  intros Hp ts res r H Hex Hf. unfold many_while in H.
  destruct (many_go_sound_in f p pr cond Hp _ [] _ _ _ H) as [_ Hprint].
  exact (Hprint Hex Hf).
Qed.

Lemma braced_items_sound_in {A} f (p : Parser A) pr ts b r :
  sound_in f p pr ->
  in_group Brace (inner_attrs <- parse_inner ;;
                  items <- many_while (fun ts => negb (is_empty ts)) p ;;
                  ret (inner_attrs, items)) ts = Ok b r ->
  existential_ok ts = true ->
  forallb f (snd b) = true ->
  ts = [TGroup Brace (print_attrs (fst b) ++ flat_map pr (snd b))] ++ r /\ attrs_outer (fst b) = [] /\ attrs_inner (fst b) = fst b.
Proof.
  intros Hp H Hex Hf. apply in_group_inv in H as (c & -> & H).
  apply existential_ok_group in Hex. start H.
  destruct (parse_inner c) as [ia r1|] eqn:E1; [|discriminate].
  destruct (many_while _ p r1) as [items r2|] eqn:E2; [|discriminate].
  injection H as <- ->. simpl in Hf |- *.
  apply parse_inner_sound in E1 as (-> & ? & ?).
  pose proof (many_while_sound_in f p pr _ Hp _ _ _ E2 (existential_ok_app _ _ Hex) Hf) as E3.
  rewrite app_nil_r in E3. subst. auto.
Qed.

Lemma parse_trait_ref_sound ts tr r :
  parse_trait_ref ts = Ok tr r ->
  ts = print_flag (fst tr) [TPunct "!"] ++ print_path (snd tr) ++ [TIdent "for"] ++ r.
Proof. unfold parse_trait_ref. intros H. start H. run learn4. finish. Qed.

Lemma parse_item_impl_sound ts i r :
  parse_item_impl ts = Ok i r -> existential_ok ts = true ->
  forallb impl_item_lossless (impl_items i) = true ->
  ts = print_item_impl i ++ r.
Proof.
  unfold parse_item_impl. intros H Hex Hok. start H.
  run ltac:(fun E => first [learn4 E
    | eapply (braced_items_sound_in _ _ _ _ _ _ parse_impl_item_sound) in E as (? & ? & ?)
    | apply parse_trait_ref_sound in E]).
  all: repeat match goal with E : parse_trait_ref _ = Ok _ _ |- _ =>
                apply parse_trait_ref_sound in E; subst end.
  all: try ex_suffix.
  all: simpl in *; try exact Hok.
  all: repeat match goal with p : (bool * Path)%type |- _ => destruct p end.
  all: unfold print_item_impl, print_body; simpl; rewrite ?print_generics_with_where; finish_attrs.
Qed.

Lemma foreign_inputs_go_sound fuel acc c res r :
  foreign_inputs_go fuel acc c = Ok res r -> p_last acc = None ->
  (exists l, punctuated_items (fst res) = punctuated_items acc ++ l) /\
  (inputs_ok (fst res) = true -> variadic_ok (fst res) (snd res) = true ->
   print_punctuated print_fn_arg [TPunct ","] acc ++ c =
   print_punctuated print_fn_arg [TPunct ","] (fst res) ++ variadic_tokens (fst res) (snd res) ++ r).
Proof.
  revert acc c. induction fuel as [|fuel IH]; intros acc c H Hl; cbn [foreign_inputs_go] in H.
  - destruct (is_empty c); [|discriminate]. injection H as <- <-.
    split; [exists []; rewrite app_nil_r; reflexivity | reflexivity].
  - destruct (is_empty c).
    { injection H as <- <-. split; [exists []; rewrite app_nil_r; reflexivity | reflexivity]. }
    destruct (parse_outer c) as [attrs r0|] eqn:E0; [|discriminate].
    apply parse_outer_sound in E0 as (-> & Ho & Hi).
    destruct (peek (PPunct "...") r0).
    + unfold fmap, bind, ret in H.
      destruct (punct "..." r0) as [u r1|] eqn:P; [|discriminate]. apply punct_sound in P.
      injection H as <- <-. subst r0.
      split; [exists []; rewrite app_nil_r; reflexivity|]. simpl. intros _ Hv.
      unfold variadic_ok in Hv. rewrite Hv. unfold empty_or_trailing. rewrite Hl.
      unfold print_variadic. simpl. rewrite Ho, <- app_assoc. reflexivity.
    + destruct (fn_arg_typed r0) as [arg r1|] eqn:EA; [|discriminate].
      set (x := FnArg_Typed (mkPatType attrs (pat arg) (pat_ty arg))) in H.
      assert (Hx : fn_arg_ok x = true -> print_attrs attrs ++ r0 = print_fn_arg x ++ r1).
      { intros Hok. apply fn_arg_typed_sound in EA as [_ ->]; [|exact Hok].
        simpl. unfold print_pat_type. simpl. rewrite Ho. rewrite <- !app_assoc. reflexivity. }
      destruct (is_empty r1).
      * injection H as <- <-. cbn [fst snd].
        split; [exists [x]; apply punctuated_items_push_value, Hl|].
        intros Hok _. rewrite print_punctuated_push_value by exact Hl.
        unfold inputs_ok in Hok. rewrite punctuated_items_push_value in Hok by exact Hl.
        apply forallb_app_inv in Hok as [_ Hok]. simpl in Hok. rewrite andb_true_r in Hok.
        rewrite Hx by exact Hok. rewrite app_assoc. reflexivity.
      * destruct (punct "," r1) as [u r2|] eqn:P; [|discriminate]. apply punct_sound in P.
        assert (Hl' : p_last (push_punct (push_value acc x)) = None) by (destruct acc; reflexivity).
        destruct (IH _ _ H Hl') as [[l Hpre] Hprint].
        rewrite punctuated_items_push_punct in Hpre by exact Hl.
        split; [exists (x :: l); rewrite Hpre, <- app_assoc; reflexivity|].
        intros Hok Hv. rewrite <- (Hprint Hok Hv), print_punctuated_push_punct by exact Hl.
        unfold inputs_ok in Hok. rewrite Hpre in Hok. apply forallb_app_inv in Hok as [Hok _].
        apply forallb_app_inv in Hok as [_ Hok]. simpl in Hok. rewrite andb_true_r in Hok.
        rewrite Hx by exact Hok. subst r1. simpl. rewrite <- !app_assoc. reflexivity.
Qed.

Lemma foreign_inputs_sound ts iv r :
  in_group Parenthesis (fun c => foreign_inputs_go (length c) punctuated_new c) ts = Ok iv r ->
  inputs_ok (fst iv) = true -> variadic_ok (fst iv) (snd iv) = true ->
  ts = [TGroup Parenthesis (print_punctuated print_fn_arg [TPunct ","] (fst iv)
                            ++ variadic_tokens (fst iv) (snd iv))] ++ r.
Proof.
  intros H Hok Hv. apply in_group_inv in H as (c & -> & H).
  apply foreign_inputs_go_sound in H as [_ Hp]; [|reflexivity].
  specialize (Hp Hok Hv). simpl in Hp. rewrite app_nil_r in Hp. rewrite Hp. reflexivity.
Qed.

Lemma print_signature_eq s :
  print_signature s =
  print_flag (constness s) [TIdent "const"] ++ print_flag (asyncness s) [TIdent "async"]
  ++ print_flag (unsafety s) [TIdent "unsafe"] ++ print_opt_abi (abi s)
  ++ [TIdent "fn"; TIdent (sig_ident s)] ++ print_generics (sig_generics s)
  ++ [TGroup Parenthesis (print_punctuated print_fn_arg [TPunct ","] (inputs s)
                          ++ variadic_tokens (inputs s) (variadic s))]
  ++ print_return_type (output s) ++ print_where (where_clause (sig_generics s)).
Proof. reflexivity. Qed.

Lemma parse_foreign_item_fn_sound ts i r :
  parse_foreign_item_fn ts = Ok i r -> foreign_item_lossless (ForeignItem_Fn i) = true ->
  ts = print_foreign_item (ForeignItem_Fn i) ++ r.
Proof.
  unfold parse_foreign_item_fn. intros H Hok. start H.
  run ltac:(fun E => first [learn4 E | apply foreign_inputs_sound in E]).
  all: simpl in Hok; apply andb_true_iff in Hok as [Hok1 Hok2]; try assumption.
  unfold print_foreign_item. rewrite print_signature_eq. simpl. finish_attrs.
Qed.

Lemma parse_foreign_item_static_sound ts i r :
  parse_foreign_item_static ts = Ok i r -> ts = print_foreign_item (ForeignItem_Static i) ++ r.
Proof. unfold parse_foreign_item_static. intros H. start H. run learn4. all: finish_attrs. Qed.

Lemma parse_foreign_item_type_sound ts i r :
  parse_foreign_item_type ts = Ok i r -> ts = print_foreign_item (ForeignItem_Type i) ++ r.
Proof. unfold parse_foreign_item_type. intros H. start H. run learn4. all: finish_attrs. Qed.

Lemma parse_foreign_item_macro_sound ts i r :
  parse_foreign_item_macro ts = Ok i r -> ts = print_foreign_item (ForeignItem_Macro i) ++ r.
Proof.
  unfold parse_foreign_item_macro. intros H. start H.
  run ltac:(fun E => first [learn4 E | apply parse_mac_semi_sound in E]). all: finish_attrs.
Qed.

Lemma parse_foreign_item_sound : sound_on foreign_item_lossless parse_foreign_item print_foreign_item.
Proof.
  intros ts it r H Hok. unfold parse_foreign_item in H.
  destruct (parse_outer ts) as [OA r0|] eqn:E1; [|discriminate].
  apply parse_outer_sound in E1 as (-> & Ho & Hi).
  unfold la_peek_any, la_peek, lookahead1 in H. start H.
  run ltac:(fun E => first [apply parse_foreign_item_fn_sound in E
    | apply parse_foreign_item_static_sound in E | apply parse_foreign_item_type_sound in E
    | apply parse_foreign_item_macro_sound in E]).
  all: try (simpl in Hok; exact Hok).
  all: simpl; finish_attrs.
Qed.

Lemma parse_item_foreign_mod_sound ts i r :
  parse_item_foreign_mod ts = Ok i r -> forallb foreign_item_lossless (foreign_mod_items i) = true ->
  ts = print_item_foreign_mod i ++ r.
Proof.
  unfold parse_item_foreign_mod. intros H Hok. start H.
  run ltac:(fun E => first [learn4 E
    | eapply (braced_items_sound _ _ _ _ _ _ parse_foreign_item_sound) in E as (? & ? & ?)]).
  all: simpl in *; try exact Hok.
  all: unfold print_item_foreign_mod, print_body; simpl; finish_attrs.
Qed.

Lemma item_lossless_mod a v i items s :
  item_lossless (Item_Mod (mkItemMod a v i (Some items) s)) = forallb item_lossless items.
Proof. simpl. induction items as [|x l IH]; simpl; [reflexivity|]. rewrite IH. reflexivity. Qed.

Lemma parse_item_mod_sound pi ts m r :
  sound_in item_lossless pi print_item ->
  parse_item_mod pi ts = Ok m r -> existential_ok ts = true -> item_lossless (Item_Mod m) = true ->
  ts = print_item_mod m ++ r.
Proof.
  intros Hpi. unfold parse_item_mod, la_peek, lookahead1. intros H Hex Hok. start H.
  run ltac:(fun E => first [learn4 E
    | eapply (braced_items_sound_in _ _ _ _ _ _ Hpi) in E as (? & ? & ?); try ex_suffix]).
  all: try (rewrite item_lossless_mod in Hok; exact Hok).
  all: simpl; unfold print_body; finish_attrs.
Qed.

Lemma print_item_prepend OA it :
  attrs_outer OA = OA -> attrs_inner OA = [] -> item_lossless it = true ->
  (forall v, it <> Item_Verbatim v) ->
  print_item (item_prepend_attrs OA it) = print_attrs OA ++ print_item it.
Proof.
  intros Ho Hi Hl Hv. destruct it; try discriminate; try (exfalso; exact (Hv _ eq_refl)); try match goal with m : ItemMod |- _ => destruct m as [a v id [c|] s] end; simpl;
  unfold print_item_const, print_item_enum, print_item_extern_crate, print_item_fn,
    print_item_foreign_mod, print_item_impl, print_item_macro, print_item_macro2,
    print_item_static, print_item_struct, print_item_trait, print_item_trait_alias,
    print_item_type, print_item_union, print_item_use, print_body; simpl;
  rewrite ?attrs_outer_app, ?attrs_inner_app, Ho, ?Hi, print_attrs_app, <- app_assoc; reflexivity.
Qed.

Lemma item_dispatch_sound pi vis input ahead it r :
  sound_in item_lossless pi print_item ->
  item_dispatch pi vis input ahead = Ok it r -> existential_ok input = true ->
  item_lossless it = true ->
  input = print_item it ++ r.
Proof.
  intros Hpi H Hex Hok. unfold item_dispatch in H. cbv beta zeta in H.
  repeat match type of H with
  | context [if ?b then _ else _] => destruct b; cbv beta iota in H
  | context [match ?x with (_, _) => _ end] => destruct x; cbv beta iota in H
  | context [match ?x with Ok _ _ => _ | Err _ => _ end] => destruct x; cbv beta iota in H
  end.
  all: try discriminate H.
  all: first
    [ apply parse_trait_or_trait_alias_sound in H; [exact H | destruct it; try reflexivity; exact Hok]
    | apply fmap_inv in H; destruct H as (x & Hx & ->);
      first [ simpl in Hok; discriminate Hok
            | exact (item_existential_sound _ _ _ Hx (existential_ok_lossy _ Hex))
            | exact (parse_item_extern_crate_sound _ _ _ Hx)
            | exact (parse_item_fn_sound _ _ _ Hx Hok)
            | exact (parse_item_foreign_mod_sound _ _ _ Hx Hok)
            | exact (parse_item_use_sound _ _ _ Hx)
            | exact (parse_item_static_sound _ _ _ Hx)
            | exact (parse_item_const_sound _ _ _ Hx)
            | exact (parse_item_trait_sound _ _ _ Hx Hok)
            | exact (parse_item_impl_sound _ _ _ Hx Hex Hok)
            | exact (parse_item_mod_sound pi _ _ _ Hpi Hx Hex Hok)
            | exact (parse_item_type_sound _ _ _ Hx)
            | exact (parse_item_struct_sound _ _ _ Hx)
            | exact (parse_item_enum_sound _ _ _ Hx)
            | exact (parse_item_union_sound _ _ _ Hx)
            | exact (parse_item_macro2_sound _ _ _ Hx)
            | exact (parse_item_macro_sound _ _ _ Hx) ] ].
Qed.

Lemma parse_item_with_sound pi :
  sound_in item_lossless pi print_item -> sound_in item_lossless (parse_item_with pi) print_item.
Proof.
  intros Hpi ts it r H Hex Hok. unfold parse_item_with in H.
  destruct (parse_outer ts) as [OA r0|] eqn:E1; [|discriminate].
  destruct (parse_visibility r0) as [vis ahead|] eqn:EV; [|discriminate].
  destruct (item_dispatch pi vis r0 ahead) as [it0 r1|] eqn:ED; [|discriminate].
  destruct it0 as [ | | | | | | | | | | | | | | | | v].
  17:{ injection H as <- <-. apply item_dispatch_verbatim in ED as [_ ED].
       exact (existential_branch_sound _ _ _ _ _ E1 ED Hex). }
  all: pose proof E1 as E1'; apply parse_outer_sound in E1' as (Hts & Ho & Hi).
  all: assert (Hex0 : existential_ok r0 = true) by (rewrite Hts in Hex; exact (existential_ok_app _ _ Hex)).
  all: match type of ED with item_dispatch _ _ _ _ = Ok ?i _ =>
         assert (Hl : item_lossless i = true /\ it = item_prepend_attrs OA i /\ r = r1)
           by (try match goal with m : ItemMod |- _ => destruct m end; injection H as <- <-;
               split; [exact Hok|auto]) end.
  all: destruct Hl as (Hl & -> & ->).
  all: rewrite Hts, print_item_prepend by (assumption || (intros ? ?; discriminate)); rewrite <- app_assoc; f_equal.
  all: exact (item_dispatch_sound pi vis r0 ahead _ r1 Hpi ED Hex0 Hl).
Qed.

Lemma parse_item_f_sound n : sound_in item_lossless (parse_item_f n) print_item.
Proof.
  induction n as [|n IH]; [intros ts it r H; discriminate H|].
  apply parse_item_with_sound, IH.
Qed.

(** C10: when [Item::parse] takes the [existential] branch, the outer
    attributes read before the dispatch are dropped: the input is those
    attributes followed by the item proper, and the returned
    [Item::Verbatim] tokens are that item proper (its visibility,
    [existential type], the name, generics, where clause, bounds and [;]),
    with no attribute before them; only a [:] with no bound after it is not
    reproduced. *)
Theorem item_verbatim_drops_attrs input attrs input1 vis ahead v r :
  parse_outer input = Ok attrs input1 ->
  parse_visibility input1 = Ok vis ahead ->
  parse_item input = Ok (Item_Verbatim v) r ->
  input = print_attrs attrs ++ input1 /\
  exists ident g wc bounds,
    input1 = print_visibility vis ++ [TIdent "existential"; TIdent "type"; TIdent ident]
             ++ print_generics g ++ print_where wc
             ++ [TPunct ":"] ++ print_bounds bounds ++ [TPunct ";"] ++ r /\
    v = print_visibility vis ++ [TIdent "existential"; TIdent "type"; TIdent ident]
        ++ print_generics g ++ print_where wc
        ++ (if punctuated_is_empty bounds then [] else [TPunct ":"] ++ print_bounds bounds)
        ++ [TPunct ";"].
Proof.
  intros Ho Hv H.
  split; [exact (proj1 (parse_outer_sound _ _ _ Ho))|].
  rewrite parse_item_eq in H; unfold parse_item_with in H; rewrite Ho, Hv in H.
  destruct (item_dispatch _ vis input1 ahead) as [it r1|e] eqn:Ed; [|discriminate].
  destruct it; simpl in H; try discriminate; try (destruct i; discriminate).
  injection H as -> ->.
  apply item_dispatch_verbatim in Ed as [_ Ee].
  unfold item_existential, bind in Ee. rewrite (parse_outer_stop _ _ _ Ho), Hv in Ee.
  apply parse_visibility_sound in Hv. subst input1.
  unfold ret in Ee. cbv beta in Ee.
  run ltac:(fun E => first [ learn_base E | apply parse_generics_sound in E
                           | apply parse_opt_where_sound in E
                           | apply plus_bounds_sound in E as (E & _) ]).
  all: do 4 eexists; split.
  1,3: simpl; repeat (rewrite <- app_assoc || rewrite <- app_comm_cons); reflexivity.
  all: simpl; match goal with |- context [punctuated_is_empty ?b] =>
      destruct (punctuated_is_empty b) end;
    simpl in *; first [reflexivity | discriminate].
Qed.

Lemma item_verbatim_drops_attrs_witness :
  tok_attr_pub_existential = print_attrs [mkAttribute Outer [TIdent "a"]] ++ skipn 2 tok_attr_pub_existential /\
  exists ident g wc bounds,
    skipn 2 tok_attr_pub_existential
    = print_visibility VisPublic ++ [TIdent "existential"; TIdent "type"; TIdent ident]
      ++ print_generics g ++ print_where wc
      ++ [TPunct ":"] ++ print_bounds bounds ++ [TPunct ";"] ++ [] /\
    [TIdent "pub"; TIdent "existential"; TIdent "type"; TIdent "X"; TPunct ":"; TIdent "T"; TPunct ";"]
    = print_visibility VisPublic ++ [TIdent "existential"; TIdent "type"; TIdent ident]
      ++ print_generics g ++ print_where wc
      ++ (if punctuated_is_empty bounds then [] else [TPunct ":"] ++ print_bounds bounds)
      ++ [TPunct ";"].
Proof.
  refine (item_verbatim_drops_attrs tok_attr_pub_existential
            [mkAttribute Outer [TIdent "a"]] (skipn 2 tok_attr_pub_existential) VisPublic
            (skipn 3 tok_attr_pub_existential) _ [] _ _ _).
  all: vm_compute; reflexivity.
Defined.

(** ** Attributes of items with a body *)

Lemma body_group_inner {B} (q : Parser B) ts x r :
  in_group Brace (fun ts => match parse_inner ts with
                            | Ok inner r => match q r with
                                            | Ok s r' => Ok (inner, s) r'
                                            | Err e => Err e end
                            | Err e => Err e end) ts = Ok x r ->
  exists c rest, ts = TGroup Brace c :: r /\ parse_inner c = Ok (fst x) rest.
Proof.
  intros H. apply in_group_inv in H as (c & -> & H).
  destruct (parse_inner c) as [ia r1|e] eqn:E1; [|discriminate].
  destruct (q r1) as [s r2|e]; [|discriminate].
  injection H as <- _. eauto.
Qed.

Lemma suffix_app (a l s : TokenStream) : (exists h, l = h ++ s) -> exists h, a ++ l = h ++ s.
Proof. intros (h & ->). exists (a ++ h). apply app_assoc. Qed.

Lemma suffix_cons (t : TokenTree) (l s : TokenStream) : (exists h, l = h ++ s) -> exists h, t :: l = h ++ s.
Proof. intros (h & ->). exists (t :: h). reflexivity. Qed.

Lemma suffix_refl (s : TokenStream) : exists h, s = h ++ s.
Proof. exists []. reflexivity. Qed.

Ltac learn_body E :=
  first [ let c := fresh "c" in let Hc := fresh "Hc" in
          apply body_group_inner in E as (c & ? & -> & Hc)
        | learn3 E
        | unfold parse_fn_inputs in E; apply in_group_inv in E as (? & -> & _)
        | apply parse_trait_ref_sound in E ].

Ltac close_suffix :=
  repeat (rewrite <- app_assoc || rewrite <- app_comm_cons);
  repeat first [ apply suffix_refl | apply suffix_cons | apply suffix_app ].

Lemma parse_item_fn_body input f r :
  parse_outer input = Ok [] input -> parse_item_fn input = Ok f r ->
  exists c rest, (exists head, input = head ++ TGroup Brace c :: r) /\ parse_inner c = Ok (fn_attrs f) rest.
Proof.
  intros Ho H. unfold parse_item_fn, parse_body in H. start H.
  run ltac:(fun E => first [rewrite Ho in E | learn_body E]).
  do 2 eexists. split; [close_suffix | exact Hc].
Qed.

Lemma parse_item_foreign_mod_body input f r :
  parse_outer input = Ok [] input -> parse_item_foreign_mod input = Ok f r ->
  exists c rest, (exists head, input = head ++ TGroup Brace c :: r) /\
                 parse_inner c = Ok (foreign_mod_attrs f) rest.
Proof.
  intros Ho H. unfold parse_item_foreign_mod in H. start H.
  run ltac:(fun E => first [rewrite Ho in E | learn_body E]).
  do 2 eexists. split; [close_suffix | exact Hc].
Qed.

Lemma parse_item_impl_body input f r :
  parse_outer input = Ok [] input -> parse_item_impl input = Ok f r ->
  exists c rest, (exists head, input = head ++ TGroup Brace c :: r) /\
                 parse_inner c = Ok (impl_attrs f) rest.
Proof.
  intros Ho H. unfold parse_item_impl in H. start H.
  run ltac:(fun E => first [rewrite Ho in E | learn_body E]).
  all: do 2 eexists; split; [close_suffix | exact Hc].
Qed.

Lemma parse_item_mod_body pi input ats v id c0 s r :
  parse_outer input = Ok [] input ->
  parse_item_mod pi input = Ok (mkItemMod ats v id (Some c0) s) r ->
  exists c rest, (exists head, input = head ++ TGroup Brace c :: r) /\ parse_inner c = Ok ats rest.
Proof.
  intros Ho H. unfold parse_item_mod in H. start H.
  run ltac:(fun E => first [rewrite Ho in E | learn_body E]).
  all: first [discriminate | do 2 eexists; split; [close_suffix | exact Hc]].
Qed.

Lemma item_dispatch_body pi vis input ahead it r :
  parse_outer input = Ok [] input ->
  item_dispatch pi vis input ahead = Ok it r -> has_inner_body it = true ->
  exists c rest, (exists head, input = head ++ TGroup Brace c :: r) /\ parse_inner c = Ok (item_attrs it) rest.
Proof.
  unfold item_dispatch, la_peek, lookahead1, kw, token; simpl; unfold la_peek; simpl.
  intros Ho H Hb.
  split_ifs; try match goal with H : parse_trait_or_trait_alias _ = Ok _ _ |- _ => fail 1 | _ => dispatch_leaf end;
    subst; try discriminate Hb.
  all: try match goal with
            | Hp : parse_item_mod _ _ = Ok ?x _ |- _ => destruct x as [? ? ? [] ?]; try discriminate Hb
            end.
  all: cbn [item_attrs].
  all: try first [ eapply parse_item_fn_body; eassumption
             | eapply parse_item_foreign_mod_body; eassumption
             | eapply parse_item_impl_body; eassumption
             | eapply parse_item_mod_body; eassumption ].
  all: apply trait_or_alias_inv in H as [[? ->]|[? ->]]; discriminate Hb.
Qed.

Lemma item_attrs_split it0 it OA r0 r :
  match it0 with
  | Item_Verbatim ts => Ok (Item_Verbatim ts) r0
  | _ => Ok (item_prepend_attrs OA it0) r0
  end = Ok it r ->
  has_inner_body it = true ->
  has_inner_body it0 = true /\ item_attrs it = OA ++ item_attrs it0.
Proof.
  intros H Hb. destruct it0 as [| | | | | | | | [] | | | | | | | |]; injection H as <- <-;
    first [discriminate Hb | split; [exact Hb | reflexivity]].
Qed.

(** C6: for an item with a braced body ([fn], [mod] with a body, [extern]
    block, [impl]) parsed by [Item::parse], the attribute list is the outer
    attributes written before the item, in source order, followed by the
    inner attributes written at the start of the body, in source order:
    those that [Attribute::parse_inner] reads from the content of the
    braced group the item ends with.  In particular
    [#[A1] #[A2] fn f() { #![A3] #![A4] }] gives the list [A1, A2, A3, A4]. *)
Theorem item_outer_then_inner_attrs :
  (forall ts OA input it r,
     parse_outer ts = Ok OA input -> parse_item ts = Ok it r -> has_inner_body it = true ->
     ts = print_attrs OA ++ input /\ attrs_outer OA = OA /\
     exists c IA rest,
       (exists head, input = head ++ TGroup Brace c :: r) /\
       parse_inner c = Ok IA rest /\ all_inner IA = true /\ item_attrs it = OA ++ IA)
  /\ exists f, parse_item tok_fn_four_attrs = Ok (Item_Fn f) [] /\
       fn_attrs f = [attr_a "A1" Outer; attr_a "A2" Outer; attr_a "A3" Inner; attr_a "A4" Inner].
Proof.
  split.
  - intros ts OA input it r Ho H Hb. destruct (parse_outer_sound _ _ _ Ho) as (Hts & Hout & _).
    split; [exact Hts|]. split; [exact Hout|].
    rewrite parse_item_eq in H. unfold parse_item_with in H. rewrite Ho in H.
    destruct (parse_visibility input) as [vis ahead|e] eqn:Hv; [|discriminate].
    destruct (item_dispatch _ vis input ahead) as [it0 r0|e] eqn:Hd; [|discriminate].
    destruct (item_attrs_split _ _ _ _ _ H Hb) as [Hb0 ->].
    assert (Hr : r0 = r)
      by (destruct it0 as [| | | | | | | | [] | | | | | | | |]; injection H; auto).
    subst r0.
    destruct (item_dispatch_body _ _ _ _ _ _ (parse_outer_stop _ _ _ Ho) Hd Hb0)
      as (c & rest & Hh & Hc).
    exists c, (item_attrs it0), rest. repeat split; try assumption.
    exact (parse_inner_all _ _ _ Hc).
  - eexists. split; [vm_compute; reflexivity | reflexivity].
Qed.

Lemma item_outer_then_inner_attrs_witness :
  exists it, parse_item tok_fn_four_attrs = Ok it [] /\
    (tok_fn_four_attrs = print_attrs [attr_a "A1" Outer; attr_a "A2" Outer] ++ skipn 4 tok_fn_four_attrs
     /\ attrs_outer [attr_a "A1" Outer; attr_a "A2" Outer] = [attr_a "A1" Outer; attr_a "A2" Outer]
     /\ exists c IA rest,
          (exists head, skipn 4 tok_fn_four_attrs = head ++ TGroup Brace c :: []) /\
          parse_inner c = Ok IA rest /\ all_inner IA = true /\
          item_attrs it = [attr_a "A1" Outer; attr_a "A2" Outer] ++ IA).
Proof.
  eexists. split; [vm_compute; reflexivity|].
  apply (proj1 item_outer_then_inner_attrs tok_fn_four_attrs _ _ _ []);
    vm_compute; reflexivity.
Defined.

(** ** Receivers in [FnArg::parse] *)

(** C4, counterexample: [self.x] begins with the form [self] and no [:]
    follows it, yet [FnArg::parse] returns no receiver: after [self] the [.]
    commits the receiver parse to a braced borrow set, which fails on [x],
    and the typed fallback then fails for want of [:]. *)
Lemma self_dot_x_counterexample :
  parse_fn_arg tok_self_dot_x = Err (mkError [TPunct "."; TIdent "x"] (Expected ["`:`"])).
Proof. vm_compute. reflexivity. Qed.

(** C4 (amended): [FnArg::parse] returns a receiver only when, after its
    outer attributes, the parameter is the printed form of a receiver
    ([mut self], [&['a][mut] self], [self] or [self.{...}]) and what follows
    does not begin with [:]; conversely, [mut self], [&['a][mut] self], and a
    bare [self] not followed by [.], each followed by anything that does not
    begin with [:], are parsed as that receiver. [self: Box<Self>] is a typed
    parameter whose pattern is the identifier [self], and [&mut self] is the
    receiver [Reference::Full] with no lifetime and a [mut] token. *)
Theorem fn_arg_receiver_forms :
  (forall ts rc rest,
     parse_fn_arg ts = Ok (FnArg_Receiver rc) rest ->
     ts = print_receiver rc ++ rest /\ peek (PPunct ":") rest = false /\
     exists input1, parse_outer ts = Ok (receiver_attrs rc) input1 /\
                    input1 = print_receiver (mkReceiver [] (reference rc)) ++ rest)
  /\ (forall rf rest,
        simple_receiver_ok rf rest = true -> peek (PPunct ":") rest = false ->
        parse_fn_arg (print_receiver (mkReceiver [] rf) ++ rest)
        = Ok (FnArg_Receiver (mkReceiver [] rf)) rest)
  /\ (exists p, parse_fn_arg tok_self_box = Ok (FnArg_Typed p) [] /\
                pat p = PatIdent false false "self")
  /\ parse_fn_arg tok_ref_mut_self
     = Ok (FnArg_Receiver (mkReceiver [] (Reference_Full None (Some tt)))) [].
Proof.
  split; [exact fn_arg_receiver_sound|].
  split; [exact fn_arg_receiver_complete|].
  split; [eexists; split; [vm_compute; reflexivity | reflexivity] | vm_compute; reflexivity].
Qed.

Lemma fn_arg_receiver_forms_witness :
  parse_fn_arg (print_receiver (mkReceiver [] (Reference_Full (Some "a") (Some tt))) ++ [TPunct ","])
  = Ok (FnArg_Receiver (mkReceiver [] (Reference_Full (Some "a") (Some tt)))) [TPunct ","]
  /\ tok_ref_mut_self = print_receiver (mkReceiver [] (Reference_Full None (Some tt))) ++ [].
Proof.
  split.
  - apply (proj1 (proj2 fn_arg_receiver_forms)); vm_compute; reflexivity.
  - apply (proj1 fn_arg_receiver_forms tok_ref_mut_self _ []); vm_compute; reflexivity.
Defined.

(** ** Printing a parsed item *)

(** C1 (counterexample): two well-formed declarations that [Item::parse]
    accepts but whose tree prints differently.  In
    [trait T { fn f(Vec<u8>); }] the pre-2018 anonymous parameter is given a
    [_] pattern and a [:], so the print is [trait T { fn f(_ : Vec<u8>); }];
    in [trait T { type X: ; }] the [:] before the empty bound list is not
    printed; [#[a] pub existential type X: T;] prints without its
    attribute. *)
Lemma item_roundtrip_counterexample :
  is_ok (parse_item tok_trait_anon_param) = true /\
  (forall it r, parse_item tok_trait_anon_param = Ok it r ->
                print_item it ++ r <> tok_trait_anon_param) /\
  is_ok (parse_item tok_trait_type_colon) = true /\
  (forall it r, parse_item tok_trait_type_colon = Ok it r ->
                print_item it ++ r <> tok_trait_type_colon) /\
  is_ok (parse_item tok_attr_pub_existential) = true /\
  (forall it r, parse_item tok_attr_pub_existential = Ok it r ->
                print_item it ++ r <> tok_attr_pub_existential).
Proof.
  split; [vm_compute; reflexivity|]. split.
  { intros it r H. vm_compute in H. injection H as <- <-. vm_compute. discriminate. }
  split; [vm_compute; reflexivity|]. split.
  { intros it r H. vm_compute in H. injection H as <- <-. vm_compute. discriminate. }
  split; [vm_compute; reflexivity|].
  intros it r H. vm_compute in H. injection H as <- <-. vm_compute. discriminate.
Qed.

(** C1 (amended): when [Item::parse] succeeds on [ts] with the item [it]
    and the remaining tokens [r], the tokens it consumed are exactly the
    printed form of [it] (same tokens, same nesting), provided the tree can
    tell how it was read ([item_lossless]): it holds no [Verbatim] trait or
    foreign item, no typed parameter [_ : Ident<...>] (which the pre-2018
    anonymous parameter [Ident<...>] also yields), no trait associated type
    with a [:] and no bound, and no foreign function with a variadic [...]
    after an argument whose type is the verbatim [...]; and provided the
    input has no [existential type] item preceded by outer attributes or
    with a [:] and no bound ([existential_ok]), since the [Verbatim] tokens
    of such an item lose them. *)
Theorem item_print_roundtrip ts it r :
  parse_item ts = Ok it r -> existential_ok ts = true -> item_lossless it = true ->
  ts = print_item it ++ r.
Proof. intros H He Hl. exact (parse_item_f_sound _ ts it r H He Hl). Qed.

Lemma item_print_roundtrip_witness :
  (exists it, parse_item tok_mod_sample = Ok it [] /\ existential_ok tok_mod_sample = true /\
              item_lossless it = true /\ tok_mod_sample = print_item it ++ []) /\
  (exists it, parse_item tok_fn_wild_param = Ok it [] /\ existential_ok tok_fn_wild_param = true /\
              item_lossless it = true /\ tok_fn_wild_param = print_item it ++ []) /\
  (exists it, parse_item tok_existential = Ok it [] /\ existential_ok tok_existential = true /\
              item_lossless it = true /\ tok_existential = print_item it ++ []).
Proof.
  split; [|split].
  all: eexists; split; [vm_compute; reflexivity|]; split; [vm_compute; reflexivity|].
  all: split; [vm_compute; reflexivity|].
  - apply (item_print_roundtrip tok_mod_sample _ []); vm_compute; reflexivity.
  - apply (item_print_roundtrip tok_fn_wild_param _ []); vm_compute; reflexivity.
  - apply (item_print_roundtrip tok_existential _ []); vm_compute; reflexivity.
Defined.

(* ------------------------------------------------------------------ *)
(** ** Further properties of item.rs and partial_borrows.rs *)




(** X2: [ItemMacro::parse] takes a [;] exactly when the macro body is not
    braced. *)
Theorem item_macro_semi ts m r :
  parse_item_macro ts = Ok m r -> macro_semi m = negb (is_brace (mac_delimiter (mac m))).
Proof.
  unfold parse_item_macro. intros H. start H. run ltac:(fun _ => idtac).
  all: simpl in *; congruence.
Qed.

Lemma item_macro_semi_witness :
  exists m r, parse_item_macro tok_union_bang_semi = Ok m r /\
    macro_semi m = negb (is_brace (mac_delimiter (mac m))).
Proof.
  do 2 eexists. split; [vm_compute; reflexivity|].
  apply (item_macro_semi tok_union_bang_semi _ []); vm_compute; reflexivity.
Defined.

Lemma parse_mac_semi_inv ts m b r :
  parse_mac_semi ts = Ok (m, b) r -> b = negb (is_brace (mac_delimiter m)).
Proof.
  unfold parse_mac_semi. intros H. start H. run ltac:(fun _ => idtac).
  all: rewrite ?C; reflexivity.
Qed.

(** X3: the same holds for the macro items of foreign blocks, traits and
    impls: the [semi_token] is present exactly when the body is not
    braced. *)
Theorem macro_items_semi ts r :
  (forall f, parse_foreign_item_macro ts = Ok f r ->
     foreign_macro_semi f = negb (is_brace (mac_delimiter (foreign_macro_mac f)))) /\
  (forall t, parse_trait_item_macro ts = Ok t r ->
     trait_macro_semi t = negb (is_brace (mac_delimiter (trait_macro_mac t)))) /\
  (forall i, parse_impl_item_macro ts = Ok i r ->
     impl_macro_semi i = negb (is_brace (mac_delimiter (impl_macro_mac i)))).
Proof.
  unfold parse_foreign_item_macro, parse_trait_item_macro, parse_impl_item_macro.
  repeat split; intros x H; start H; run ltac:(fun _ => idtac);
    match goal with E : parse_mac_semi _ = Ok ?a _ |- _ =>
      destruct a; exact (parse_mac_semi_inv _ _ _ _ E) end.
Qed.

Lemma macro_items_semi_witness :
  exists t r, parse_trait_item_macro tok_macro_brace = Ok t r /\
    trait_macro_semi t = negb (is_brace (mac_delimiter (trait_macro_mac t))).
Proof.
  do 2 eexists. split; [vm_compute; reflexivity|].
  apply (proj1 (proj2 (macro_items_semi tok_macro_brace [])) _); vm_compute; reflexivity.
Defined.

(** X4: a parsed [mod] has either no content and a [;], or a braced
    content and no [;]. *)
Theorem item_mod_content_or_semi pi ts m r :
  parse_item_mod pi ts = Ok m r ->
  match m with
  | mkItemMod _ _ _ c s =>
      (c = None /\ s = Some tt) \/ (exists items, c = Some items /\ s = None)
  end.
Proof.
  unfold parse_item_mod. intros H. start H. run ltac:(fun _ => idtac).
  all: simpl; eauto.
Qed.

Lemma item_mod_content_or_semi_witness :
  exists m r, parse_item_mod parse_item tok_mod_semi = Ok m r /\
  match m with
  | mkItemMod _ _ _ c s =>
      (c = None /\ s = Some tt) \/ (exists items, c = Some items /\ s = None)
  end.
Proof.
  do 2 eexists. split; [vm_compute; reflexivity|].
  apply (item_mod_content_or_semi parse_item tok_mod_semi _ []); vm_compute; reflexivity.
Defined.

(** X5: a parsed trait method has no variadic, and has either a body and
    no [;], or no body and a [;]. *)
Theorem trait_item_method_body_or_semi ts m r :
  parse_trait_item_method ts = Ok m r ->
  variadic (trait_method_sig m) = None /\
  ((exists b, trait_method_default m = Some b /\ trait_method_semi m = false) \/
   (trait_method_default m = None /\ trait_method_semi m = true)).
Proof.
  unfold parse_trait_item_method. intros H. start H. run ltac:(fun _ => idtac).
  all: simpl; eauto.
Qed.

Lemma trait_item_method_body_or_semi_witness :
  exists m r, parse_trait_item_method tok_trait_fn_semi = Ok m r /\
  variadic (trait_method_sig m) = None /\
  ((exists b, trait_method_default m = Some b /\ trait_method_semi m = false) \/
   (trait_method_default m = None /\ trait_method_semi m = true)).
Proof.
  do 2 eexists. split; [vm_compute; reflexivity|].
  apply (trait_item_method_body_or_semi tok_trait_fn_semi _ []); vm_compute; reflexivity.
Defined.

(** X6: the [rules] of a parsed [macro] item are either one braced group,
    or a parenthesized group followed by a braced group. *)
Theorem item_macro2_rules_shape ts m r :
  parse_item_macro2 ts = Ok m r ->
  (exists body, rules m = [TGroup Brace body]) \/
  (exists args body, rules m = [TGroup Parenthesis args; TGroup Brace body]).
Proof.
  unfold parse_item_macro2. intros H. start H. run ltac:(fun _ => idtac).
  all: simpl; eauto.
Qed.

Lemma item_macro2_rules_shape_witness :
  exists m r, parse_item_macro2 tok_macro2_args = Ok m r /\
  ((exists body, rules m = [TGroup Brace body]) \/
   (exists args body, rules m = [TGroup Parenthesis args; TGroup Brace body])).
Proof.
  do 2 eexists. split; [vm_compute; reflexivity|].
  apply (item_macro2_rules_shape tok_macro2_args _ []); vm_compute; reflexivity.
Defined.

Lemma is_dot3_eq ts : is_dot3 ts = true -> ts = dot3_tokens.
Proof.
  unfold is_dot3. intros H.
  repeat match type of H with
  | context [match ?x with _ => _ end] => destruct x; try discriminate H
  end.
  reflexivity.
Qed.

Lemma get_variadic_has inputs :
  match punctuated_last inputs with Some a => get_variadic a | None => None end =
  if has_variadic inputs then Some (mkVariadic []) else None.
Proof.
  unfold has_variadic. destruct (punctuated_last inputs) as [[rc|[pa p t]]|]; try reflexivity.
  destruct t; try reflexivity. simpl.
  destruct (is_dot3 ts) eqn:D.
  - apply is_dot3_eq in D. subst. reflexivity.
  - destruct (punct "..." ts) as [u [|x rs]|e] eqn:P; try reflexivity.
    apply punct_sound in P. rewrite app_nil_r in P. subst. discriminate D.
Qed.

(** X7: the [variadic] of a parsed [fn] item is set exactly when its last
    argument's type is the verbatim [...]. *)
Theorem item_fn_variadic ts f r :
  parse_item_fn ts = Ok f r ->
  variadic (sig f) = if has_variadic (inputs (sig f)) then Some (mkVariadic []) else None.
Proof.
  unfold parse_item_fn. intros H. start H. run ltac:(fun _ => idtac).
  simpl. apply get_variadic_has.
Qed.

Lemma item_fn_variadic_witness :
  exists f r, parse_item_fn tok_fn_variadic = Ok f r /\ has_variadic (inputs (sig f)) = true /\
  variadic (sig f) = if has_variadic (inputs (sig f)) then Some (mkVariadic []) else None.
Proof.
  do 2 eexists. split; [vm_compute; reflexivity|]. split; [vm_compute; reflexivity|].
  apply (item_fn_variadic tok_fn_variadic _ []); vm_compute; reflexivity.
Defined.

Lemma is_inherited_eq v : is_inherited v = true -> v = VisInherited.
Proof. destruct v; simpl; congruence. Qed.

Lemma item_dispatch_macro pi vis input ahead m r :
  item_dispatch pi vis input ahead = Ok (Item_Macro m) r -> vis = VisInherited.
Proof.
  intros H. unfold item_dispatch in H. cbv beta zeta in H.
  repeat match type of H with
  | context [if ?b then _ else _] => let E := fresh "C" in destruct b eqn:E; cbv beta iota in H
  | context [match ?x with (_, _) => _ end] => destruct x; cbv beta iota in H
  | context [match ?x with Ok _ _ => _ | Err _ => _ end] => destruct x; cbv beta iota in H
  end.
  all: try discriminate H.
  all: first
    [ apply trait_or_alias_inv in H; destruct H as [[? H]|[? H]]; discriminate H
    | apply fmap_inv in H; destruct H as (x & _ & Hx); discriminate Hx
    | apply is_inherited_eq; assumption ].
Qed.

(** X8: [Item::parse] returns a macro item only when no visibility was
    written before it. *)
Theorem item_macro_inherited ts m r :
  parse_item ts = Ok (Item_Macro m) r ->
  exists attrs rest, parse_outer ts = Ok attrs rest /\ parse_visibility rest = Ok VisInherited rest.
Proof.
  rewrite parse_item_eq. unfold parse_item_with. intros H.
  destruct (parse_outer ts) as [attrs rest|e]; [|discriminate].
  destruct (parse_visibility rest) as [vis ahead|e] eqn:EV; [|discriminate].
  destruct (item_dispatch _ vis rest ahead) as [it r1|e] eqn:ED; [|discriminate].
  assert (Hm : exists m0, it = Item_Macro m0)
    by (destruct it as [ | | | | | | | | [] | | | | | | | | ]; cbn in H; try discriminate H; eauto).
  destruct Hm as (m0 & ->). apply item_dispatch_macro in ED. subst vis.
  exists attrs, rest. split; [reflexivity|].
  unfold parse_visibility in EV |- *.
  destruct (peek (PKw "pub") rest).
  - exfalso. destruct (tl rest) as [|t l]; [discriminate|].
    destruct t; try discriminate. destruct d; try discriminate.
    destruct (restricted_content _); discriminate.
  - destruct (_ && _); [discriminate|]. reflexivity.
Qed.

Lemma item_macro_inherited_witness :
  exists m r, parse_item tok_union_bang_semi = Ok (Item_Macro m) r /\
  exists attrs rest, parse_outer tok_union_bang_semi = Ok attrs rest /\
                     parse_visibility rest = Ok VisInherited rest.
Proof.
  do 2 eexists.
  match goal with |- ?A /\ _ => assert (HA : A) by (vm_compute; reflexivity) end.
  split; [exact HA|]. exact (item_macro_inherited _ _ _ HA).
Defined.

Lemma foreign_inputs_go_typed fuel acc c res r :
  foreign_inputs_go fuel acc c = Ok res r -> p_last acc = None ->
  forallb is_typed (punctuated_items acc) = true ->
  forallb is_typed (punctuated_items (fst res)) = true.
Proof.
  revert acc c. induction fuel as [|fuel IH]; intros acc c H Hl Ht; cbn [foreign_inputs_go] in H.
  - destruct (is_empty c); [|discriminate]. injection H as <- <-. exact Ht.
  - destruct (is_empty c); [injection H as <- <-; exact Ht|].
    destruct (parse_outer c) as [attrs r0|e]; [|discriminate].
    destruct (peek (PPunct "...") r0).
    + apply fmap_inv in H. destruct H as (u & _ & ->). exact Ht.
    + destruct (fn_arg_typed r0) as [arg r1|e]; [|discriminate].
      assert (Hv : forallb is_typed (punctuated_items
                     (push_value acc (FnArg_Typed (mkPatType attrs (pat arg) (pat_ty arg))))) = true)
        by (rewrite punctuated_items_push_value, forallb_app, Ht by exact Hl; reflexivity).
      destruct (is_empty r1); [injection H as <- <-; exact Hv|].
      destruct (punct "," r1) as [u r2|e]; [|discriminate].
      apply (IH _ _ H); [reflexivity|].
      rewrite punctuated_items_push_punct by exact Hl.
      rewrite forallb_app, Ht. reflexivity.
Qed.

(** X9: a function in an [extern] block has only typed arguments (no
    receiver), and is not [const], [async], [unsafe] or [extern]. *)
Theorem foreign_fn_inputs_typed ts f r :
  parse_foreign_item_fn ts = Ok f r ->
  forallb is_typed (punctuated_items (inputs (foreign_fn_sig f))) = true /\
  constness (foreign_fn_sig f) = false /\ asyncness (foreign_fn_sig f) = false /\
  unsafety (foreign_fn_sig f) = false /\ abi (foreign_fn_sig f) = None.
Proof.
  unfold parse_foreign_item_fn. intros H. start H.
  destruct (parse_outer ts) as [a1 r1|]; [|discriminate].
  destruct (parse_visibility r1) as [a2 r2|]; [|discriminate].
  destruct (kw "fn" r2) as [a3 r3|]; [|discriminate].
  destruct (parse_ident r3) as [a4 r4|]; [|discriminate].
  destruct (parse_generics r4) as [a5 r5|]; [|discriminate].
  destruct (in_group Parenthesis _ r5) as [iv r6|] eqn:Ei; [|discriminate].
  destruct (parse_return_type r6) as [a7 r7|]; [|discriminate].
  destruct (parse_opt_where r7) as [a8 r8|]; [|discriminate].
  destruct (punct ";" r8) as [a9 r9|]; [|discriminate].
  injection H as <- <-. simpl. repeat split.
  unfold in_group in Ei.
  destruct r5 as [|[| | |d c] r5]; try discriminate.
  destruct (delimiter_eqb Parenthesis d); [|discriminate].
  destruct (foreign_inputs_go _ _ c) as [res rr|] eqn:Ef; [|discriminate].
  destruct rr; [|discriminate]. injection Ei as <- <-.
  exact (foreign_inputs_go_typed _ _ _ _ _ Ef eq_refl eq_refl).
Qed.

Lemma foreign_fn_inputs_typed_witness :
  exists f r, parse_foreign_item_fn tok_foreign_fn_variadic = Ok f r /\
  forallb is_typed (punctuated_items (inputs (foreign_fn_sig f))) = true /\
  constness (foreign_fn_sig f) = false /\ asyncness (foreign_fn_sig f) = false /\
  unsafety (foreign_fn_sig f) = false /\ abi (foreign_fn_sig f) = None.
Proof.
  do 2 eexists. split; [vm_compute; reflexivity|].
  apply (foreign_fn_inputs_typed tok_foreign_fn_variadic _ []); vm_compute; reflexivity.
Defined.

Lemma terminated_go_complete {A} (p : Parser A) (pr : A -> TokenStream) inner last fuel acc :
  p_last acc = None ->
  (forall v rest, In v (inner ++ match last with Some a => [a] | None => [] end) ->
                  p (pr v ++ rest) = Ok v rest /\ pr v <> []) ->
  length (flat_map (fun a => pr a ++ [TPunct ","]) inner
          ++ match last with Some a => pr a | None => [] end) <= fuel ->
  terminated_go fuel p (punct ",") acc
    (flat_map (fun a => pr a ++ [TPunct ","]) inner
     ++ match last with Some a => pr a | None => [] end)
  = Ok (mkPunctuated (p_inner acc ++ inner) last) [].
Proof.
  revert fuel acc. induction inner as [|v inner IH]; intros fuel acc Hl Hp Hf.
  - destruct last as [v|]; simpl.
    + destruct (Hp v [] (or_introl eq_refl)) as [Hv Hne].
      rewrite app_nil_r in Hv. destruct (pr v) as [|t l] eqn:Epr; [congruence|].
      destruct fuel as [|fuel]; [simpl in Hf; rewrite ?Epr in Hf; simpl in Hf; lia|].
      cbn [terminated_go]. cbn [app] in Hv. rewrite Hv. unfold push_value. rewrite app_nil_r. reflexivity.
    + destruct acc as [ai al]; simpl in Hl |- *. subst al. rewrite app_nil_r.
      destruct fuel; reflexivity.
  - destruct (Hp v (TPunct "," :: flat_map (fun a => pr a ++ [TPunct ","]) inner
                       ++ match last with Some a => pr a | None => [] end) (or_introl eq_refl))
      as [Hv Hne].
    simpl. rewrite <- app_assoc. simpl.
    destruct (pr v) as [|t l] eqn:Epr; [congruence|].
    destruct fuel as [|fuel]; [simpl in Hf; rewrite ?Epr in Hf; simpl in Hf; lia|].
    cbn [terminated_go]. rewrite <- !app_assoc. cbn [app]. cbn [app] in Hv. rewrite Hv.
    change (punct "," (TPunct "," :: ?x)) with (Ok (A:=unit) tt x).
    cbv beta iota.
    rewrite (IH fuel (push_punct (push_value acc v))).
    + simpl. rewrite <- app_assoc. reflexivity.
    + reflexivity.
    + intros w rest Hw. apply Hp. right. exact Hw.
    + clear -Hf Epr. simpl in Hf. rewrite Epr in Hf. rewrite !length_app in Hf |- *.
      simpl in Hf. rewrite !length_app in Hf. simpl in Hf. lia.
Qed.

Lemma accept_not_mut i : accept_as_ident i = true -> String.eqb i "mut" = false.
Proof.
  intros H. destruct (String.eqb i "mut") eqn:E; [|reflexivity].
  apply String.eqb_eq in E. subst. discriminate H.
Qed.

Lemma parse_partial_borrow_complete b rest :
  accept_as_ident (pb_ident b) = true ->
  parse_partial_borrow (print_partial_borrow b ++ rest) = Ok b rest.
Proof.
  destruct b as [[] i]; simpl; intros H;
    unfold parse_partial_borrow, bind, ret, la_peek, lookahead1, fmap; simpl.
  - rewrite H. reflexivity.
  - rewrite (accept_not_mut _ H). simpl. rewrite H. reflexivity.
Qed.

Lemma parse_partial_borrows_complete p r :
  borrows_ok p = true -> parse_partial_borrows (print_partial_borrows p ++ r) = Ok p r.
Proof.
  destruct p as [[inner last]]. intros Hok. unfold borrows_ok, punctuated_items in Hok. simpl in Hok.
  unfold parse_partial_borrows, print_partial_borrows, bind, ret, print_punctuated. simpl.
  unfold in_group, parse_terminated. simpl.
  rewrite (terminated_go_complete parse_partial_borrow print_partial_borrow inner last _ punctuated_new);
    [reflexivity | reflexivity | | lia].
  intros v rest Hv. split.
  - apply parse_partial_borrow_complete.
    rewrite forallb_forall in Hok. apply Hok, Hv.
  - destruct v as [[] ?]; discriminate.
Qed.

(** X10: [PartialBorrows::parse] consumes the printed form of its result,
    and parsing the printed form of borrows whose identifiers are plain
    identifiers gives them back, whatever follows. *)
Theorem partial_borrows_roundtrip :
  (forall ts p r, parse_partial_borrows ts = Ok p r -> ts = print_partial_borrows p ++ r) /\
  (forall p r, borrows_ok p = true -> parse_partial_borrows (print_partial_borrows p ++ r) = Ok p r).
Proof. split; [exact parse_partial_borrows_sound | exact parse_partial_borrows_complete]. Qed.

Lemma partial_borrows_roundtrip_witness :
  exists p r, parse_partial_borrows tok_borrows = Ok p r /\ borrows_ok p = true /\
    parse_partial_borrows (print_partial_borrows p ++ [TPunct ","]) = Ok p [TPunct ","].
Proof.
  do 2 eexists. split; [vm_compute; reflexivity|]. split; [vm_compute; reflexivity|].
  apply (proj2 partial_borrows_roundtrip _ [TPunct ","]); vm_compute; reflexivity.
Defined.

(** X11: [Receiver::parse] gives a receiver with no attributes and consumes
    its printed form; parsing the printed form of an attribute-free
    receiver gives it back, except for a bare [self] followed by [.] and
    borrows with keyword identifiers. *)
Theorem receiver_roundtrip :
  (forall ts rc r, parse_receiver ts = Ok rc r ->
                   receiver_attrs rc = [] /\ ts = print_receiver rc ++ r) /\
  (forall rf rest, receiver_ok rf rest = true ->
                   parse_receiver (print_receiver (mkReceiver [] rf) ++ rest) = Ok (mkReceiver [] rf) rest).
Proof.
  split; [exact parse_receiver_sound|].
  intros rf rest H. destruct rf as [[[]|]|pbs|[l|] [[]|]]; simpl in H.
  3: { unfold parse_receiver. generalize (parse_partial_borrows_complete pbs rest H).
       unfold print_receiver, print_partial_borrows. simpl.
       generalize parse_partial_borrows. intros P HP.
       unfold bind, ret, kw, punct, token; simpl. rewrite HP. reflexivity. }
  all: unfold parse_receiver, print_receiver; simpl;
    unfold bind, ret, opt_mut, opt_lifetime, fmap, bind, ret, kw, punct, token; simpl;
    try reflexivity.
  apply negb_true_iff in H. rewrite H. reflexivity.
Qed.

Lemma receiver_roundtrip_witness :
  exists p r, parse_partial_borrows tok_borrows = Ok p r /\
    parse_receiver (print_receiver (mkReceiver [] (Reference_Partial p)) ++ [TPunct ","])
    = Ok (mkReceiver [] (Reference_Partial p)) [TPunct ","].
Proof.
  do 2 eexists. split; [vm_compute; reflexivity|].
  apply (proj2 receiver_roundtrip (Reference_Partial _) [TPunct ","]); vm_compute; reflexivity.
Defined.

(** X12: [parse_trait_or_trait_alias] returns a trait that is neither
    [unsafe] nor [auto], or a trait alias, and nothing else. *)
Theorem trait_or_alias_plain ts it r :
  parse_trait_or_trait_alias ts = Ok it r ->
  match it with
  | Item_Trait t => trait_unsafety t = false /\ auto_token t = false
  | Item_TraitAlias _ => True
  | _ => False
  end.
Proof.
  unfold parse_trait_or_trait_alias, bind at 1. intros H.
  destruct (parse_start_of_trait_alias ts) as [[[[a v] i] g] r1|e]; [|discriminate].
  cbv beta iota zeta in H.
  repeat match type of H with
  | context [if ?b then _ else _] => destruct b; cbv beta iota in H
  | context [match ?x with (_, _) => _ end] => destruct x; cbv beta iota in H
  end; try discriminate H.
  - apply fmap_inv in H. destruct H as (t & Ht & ->).
    unfold parse_rest_of_trait in Ht. start Ht. run ltac:(fun _ => idtac). all: simpl; auto.
  - apply fmap_inv in H. destruct H as (t & Ht & ->). exact I.
Qed.

Lemma trait_or_alias_plain_witness :
  exists t r, parse_trait_or_trait_alias tok_trait_plain = Ok (Item_Trait t) r /\
    trait_unsafety t = false /\ auto_token t = false.
Proof.
  do 2 eexists. split; [vm_compute; reflexivity|].
  apply (trait_or_alias_plain tok_trait_plain (Item_Trait _) []); vm_compute; reflexivity.
Defined.

(** X13: [TraitItem::parse] never returns [Verbatim], and the attributes of
    its result start with the outer attributes read before the item. *)
Theorem trait_item_attrs_first ts it r :
  parse_trait_item ts = Ok it r ->
  (forall v, it <> TraitItem_Verbatim v) /\
  exists attrs rest l, parse_outer ts = Ok attrs rest /\ trait_item_attrs it = attrs ++ l.
Proof.
  unfold parse_trait_item. intros H.
  destruct (parse_outer ts) as [attrs rest|e]; [|discriminate].
  cbv beta zeta in H.
  repeat match goal with
  | H : Err _ = Ok _ _ |- _ => discriminate H
  | H : context [if ?b then _ else _] |- _ => destruct b; cbv beta iota in H
  | H : context [match ?x with (_, _) => _ end] |- _ => destruct x; cbv beta iota in H
  | H : context [match ?x with Ok _ _ => _ | Err _ => _ end] |- _ =>
      let E := fresh "E" in destruct x eqn:E; cbv beta iota in H
  end.
  all: match goal with E : fmap _ _ _ = Ok _ _ |- _ =>
         apply fmap_inv in E; destruct E as (x & _ & ->) end.
  all: injection H; intros; subst; split; [intros v; discriminate|].
  all: exists attrs, rest; eexists; split; reflexivity.
Qed.

Lemma trait_item_attrs_first_witness :
  exists it r, parse_trait_item tok_trait_fn_semi = Ok it r /\
  (forall v, it <> TraitItem_Verbatim v) /\
  exists attrs rest l, parse_outer tok_trait_fn_semi = Ok attrs rest /\ trait_item_attrs it = attrs ++ l.
Proof.
  do 2 eexists. split; [vm_compute; reflexivity|].
  apply (trait_item_attrs_first tok_trait_fn_semi _ []); vm_compute; reflexivity.
Defined.

Lemma parse_visibility_inherited rest ahead :
  parse_visibility rest = Ok VisInherited ahead -> ahead = rest.
Proof.
  unfold parse_visibility. intros EV.
  destruct (peek (PKw "pub") rest).
  - exfalso. destruct (tl rest) as [|t l]; [discriminate|].
    destruct t; try discriminate. destruct d; try discriminate.
    destruct (restricted_content _); discriminate.
  - destruct (_ && _); [discriminate|]. injection EV; intros; subst; reflexivity.
Qed.

(** X14: [ImplItem::parse] returns a macro or a verbatim [existential] item
    only when no visibility and no [default] were written before it. *)
Theorem impl_item_macro_inherited ts it r :
  parse_impl_item ts = Ok it r ->
  match it with
  | ImplItem_Macro _ | ImplItem_Verbatim _ =>
      exists attrs rest, parse_outer ts = Ok attrs rest /\
        parse_visibility rest = Ok VisInherited rest /\
        peek (PKw "default") rest && negb (peek2 (PPunct "!") rest) = false
  | _ => True
  end.
Proof.
  unfold parse_impl_item. intros H.
  destruct (parse_outer ts) as [attrs rest|e]; [|discriminate].
  destruct (parse_visibility rest) as [vis ahead|e] eqn:EV; [|discriminate].
  cbv beta zeta in H.
  repeat match goal with
  | H : Err _ = Ok _ _ |- _ => discriminate H
  | H : context [if ?b then _ else _] |- _ =>
      let C := fresh "C" in destruct b eqn:C; cbv beta iota in H
  | H : context [match ?x with (_, _) => _ end] |- _ =>
      let P := fresh "P" in destruct x eqn:P; cbv beta iota in H
  | H : context [match ?x with Ok _ _ => _ | Err _ => _ end] |- _ =>
      let E := fresh "E" in destruct x eqn:E; cbv beta iota in H
  end.
  all: match goal with E : fmap _ _ _ = Ok _ _ |- _ =>
         apply fmap_inv in E; destruct E as (x & _ & ->) end.
  all: injection H; intros; subst; simpl; auto.
  all: match goal with
       | C0 : is_inherited ?v && negb true = true |- _ =>
           rewrite Bool.andb_false_r in C0; discriminate C0
       | C0 : is_inherited ?v && negb false = true |- _ =>
           rewrite Bool.andb_true_r in C0; apply is_inherited_eq in C0; subst v
       end.
  all: pose proof (parse_visibility_inherited _ _ EV); subst ahead.
  all: exists attrs, rest; split; [reflexivity|split; [exact EV|]].
  all: unfold la_peek, lookahead1 in P; simpl in P.
  all: destruct (peek (PKw "default") rest); injection P; intros; subst; assumption.
Qed.

Lemma impl_item_macro_inherited_witness :
  exists v r, parse_impl_item tok_existential = Ok (ImplItem_Verbatim v) r /\
  exists attrs rest, parse_outer tok_existential = Ok attrs rest /\
    parse_visibility rest = Ok VisInherited rest /\
    peek (PKw "default") rest && negb (peek2 (PPunct "!") rest) = false.
Proof.
  do 2 eexists.
  match goal with |- ?A /\ _ => assert (HA : A) by (vm_compute; reflexivity) end.
  split; [exact HA|]. exact (impl_item_macro_inherited _ _ _ HA).
Defined.
